(** * Jikan API proxy: cache, request queue and response envelope

    A shallow embedding of [src/index.js] (the Bun server of
    rakarmp/jikan-api-proxy) and the properties of its TTL cache, its
    rate-limited request queue, its endpoint handlers and its response
    envelope.

    Conventions of the embedding:
    - times are integer milliseconds ([Z]), as [Date.now()] returns them, and
      [performance.now()] is read off the same clock; waiting times and
      latencies are [nat], so that time only moves forward;
    - JS strings are [string]s of bytes (their UTF-8 encoding);
    - the [Map] called [cache] and the object [stats.endpoints] are
      insertion-ordered association lists ([JsMap]); JSON objects, whose
      order of fields plays no part here, are [gmap]s;
    - an [async] function is a function that runs up to its first suspension
      and returns either its settled outcome or the latency of what it awaits
      together with its continuation;
    - the outside world (the upstream API, the file system, the rendering of
      dates and of decimals) is an [Env] record of oracles;
    - [log] and [console.log] write lines that nothing reads back; they are
      left out. *)

From Stdlib Require Import ZArith String Ascii List Bool Lia.
From stdpp Require Import gmap strings list fin_maps pretty.

Set Warnings "-register-all".
Local Open Scope string_scope.
Local Open Scope Z_scope.

(** ** JSON values *)

Inductive JSON :=
| JNull
| JBool (b : bool)
| JNum (z : Z)
| JStr (s : string)
| JArr (l : list JSON)
| JObj (m : gmap string JSON).

(** ** The JS [Map]: keys in insertion order *)

Module JsMap.
Section Ops.
Context {V : Type}.

Definition t := list (string * V).

Definition empty : t := [].

Fixpoint get (k : string) (m : t) : option V :=
  match m with
  | [] => None
  | (k', v) :: m' => if String.eqb k k' then Some v else get k m'
  end.

Definition has (k : string) (m : t) : bool :=
  match get k m with Some _ => true | None => false end.

(** [set] on a present key keeps its position, a new key goes last. *)
Fixpoint set (k : string) (v : V) (m : t) : t :=
  match m with
  | [] => [(k, v)]
  | (k', v') :: m' =>
      if String.eqb k k' then (k, v) :: m' else (k', v') :: set k v m'
  end.

Fixpoint delete (k : string) (m : t) : t :=
  match m with
  | [] => []
  | (k', v') :: m' =>
      if String.eqb k k' then delete k m' else (k', v') :: delete k m'
  end.

Definition keys (m : t) : list string := map fst m.
Definition entries (m : t) : list (string * V) := m.
Definition size (m : t) : nat := length m.

(** A [Map] never holds a key twice. *)
Definition wf (m : t) : Prop := NoDup (keys m).
End Ops.
Arguments t : clear implicits.
End JsMap.

(** ** Library functions of the platform *)

(** [Buffer.from(s).toString("base64")]: standard alphabet, padded. *)
Definition b64_alphabet : string :=
  "ABCDEFGHIJKLMNOPQRSTUVWXYZabcdefghijklmnopqrstuvwxyz0123456789+/".

Definition b64_digit (n : N) : ascii :=
  match String.get (N.to_nat n) b64_alphabet with
  | Some c => c
  | None => "="%char
  end.

Fixpoint base64 (s : string) : string :=
  match s with
  | EmptyString => EmptyString
  | String a EmptyString =>
      let x := N_of_ascii a in
      String (b64_digit (x / 4))
        (String (b64_digit ((x mod 4) * 16)) "==")
  | String a (String b EmptyString) =>
      let x := N_of_ascii a in
      let y := N_of_ascii b in
      String (b64_digit (x / 4))
        (String (b64_digit ((x mod 4) * 16 + y / 16))
           (String (b64_digit ((y mod 16) * 4)) "="))
  | String a (String b (String c rest)) =>
      let x := N_of_ascii a in
      let y := N_of_ascii b in
      let z := N_of_ascii c in
      String (b64_digit (x / 4))
        (String (b64_digit ((x mod 4) * 16 + y / 16))
           (String (b64_digit ((y mod 16) * 4 + z / 64))
              (String (b64_digit (z mod 64)) (base64 rest))))
  end%N.

(** [path.join(dir, name)], for a relative [dir]: a leading [./] is
    normalised away. *)
Definition join (dir name : string) : string :=
  match dir with
  | String "."%char (String "/"%char d) => d
  | _ => dir
  end +:+ "/" +:+ name.

(** [URLSearchParams]: an ordered list of name-value pairs. *)
Definition URLSearchParams := list (string * string).

(** [params.get(name)]: the first value of that name, or [null]. *)
Fixpoint params_get (name : string) (params : URLSearchParams) : option string :=
  match params with
  | [] => None
  | (k, v) :: rest => if String.eqb k name then Some v else params_get name rest
  end.

(** Truthiness of what [params.get] returns: [null] and the empty string are falsy. *)
Definition truthy (o : option string) : option string :=
  match o with
  | Some EmptyString => None
  | other => other
  end.

(** [params.get(name) || dflt]. *)
Definition get_or (name dflt : string) (params : URLSearchParams) : string :=
  match truthy (params_get name params) with
  | Some v => v
  | None => dflt
  end.

Definition hex_digit (n : N) : ascii :=
  match String.get (N.to_nat n) "0123456789ABCDEF" with
  | Some c => c
  | None => "0"%char
  end.

(** The bytes the [application/x-www-form-urlencoded] serialiser leaves
    alone: ASCII letters and digits and [*], [-], [.], [_]. *)
Definition form_safe (c : ascii) : bool :=
  let n := N_of_ascii c in
  ((48 <=? n) && (n <=? 57) || (65 <=? n) && (n <=? 90)
   || (97 <=? n) && (n <=? 122)
   || (n =? 42) || (n =? 45) || (n =? 46) || (n =? 95))%N.

(** What one byte becomes: a space is [+], a safe byte is itself, any other
    is [%] and its two upper-case hex digits. *)
Definition form_token (c : ascii) : string :=
  if Ascii.eqb c " "%char then "+"
  else if form_safe c then String c EmptyString
  else
    let n := N_of_ascii c in
    String "%"%char
      (String (hex_digit (n / 16)) (String (hex_digit (n mod 16)) EmptyString))%N.

Fixpoint form_encode (s : string) : string :=
  match s with
  | EmptyString => EmptyString
  | String c rest => form_token c +:+ form_encode rest
  end.

(** [query.toString()]. *)
Fixpoint query_toString (query : URLSearchParams) : string :=
  match query with
  | [] => EmptyString
  | [(k, v)] => form_encode k +:+ "=" +:+ form_encode v
  | (k, v) :: rest =>
      form_encode k +:+ "=" +:+ form_encode v +:+ "&" +:+ query_toString rest
  end.

(** ** Module-level state of [index.js] *)

Definition BASE_URL : string := "https://api.jikan.moe/v4".
Definition CACHE_DURATION : Z := 60 * 60 * 1000.
Definition CACHE_DIR : string := "./cache".
Definition MAX_REQUESTS_PER_SECOND : nat := 4.
(** The delay of the [setTimeout] in [processQueue]. *)
Definition COOLDOWN : Z := 1000.

(** A value of the [cache] map: [{ timestamp, duration, data }]. *)
Record CacheEntry := {
  timestamp : Z;
  duration : Z;
  data : JSON
}.

Record EndpointStats := {
  calls : nat;
  ep_errors : nat;
  totalResponseTime : Z
}.

Record Stats := {
  requests : nat;
  cacheHits : nat;
  cacheMisses : nat;
  errors : nat;
  startTime : Z;
  endpoints : JsMap.t EndpointStats;
  responseTime : list Z
}.

(** The files under [CACHE_DIR]; [JSON.stringify] and [JSON.parse] are taken
    to be inverse on what the server writes, so a file holds the value. *)
Inductive File :=
| IndexFile (keys : list string)
| ItemFile (item : CacheEntry).

(** What [new Response(...)] carries: a status and a JSON body. *)
Record HttpResponse := {
  status : nat;
  body : JSON
}.

(** Everything the handlers read and write. [fetched] logs the upstream
    calls (url and time), [responses] the responses sent, by connection. *)
Record World := {
  cache : JsMap.t CacheEntry;
  stats : Stats;
  disk : gmap string File;
  fetched : list (string * Z);
  responses : list (nat * HttpResponse)
}.

Definition set_cache (c : JsMap.t CacheEntry) (w : World) : World :=
  {| cache := c; stats := stats w; disk := disk w;
     fetched := fetched w; responses := responses w |}.

Definition set_stats (s : Stats) (w : World) : World :=
  {| cache := cache w; stats := s; disk := disk w;
     fetched := fetched w; responses := responses w |}.

Definition set_disk (d : gmap string File) (w : World) : World :=
  {| cache := cache w; stats := stats w; disk := d;
     fetched := fetched w; responses := responses w |}.

Definition log_fetch (url : string) (now : Z) (w : World) : World :=
  {| cache := cache w; stats := stats w; disk := disk w;
     fetched := (fetched w ++ [(url, now)])%list; responses := responses w |}.

Definition send (conn : nat) (r : HttpResponse) (w : World) : World :=
  {| cache := cache w; stats := stats w; disk := disk w;
     fetched := fetched w; responses := (responses w ++ [(conn, r)])%list |}.

Definition initial_stats (start : Z) : Stats :=
  {| requests := 0; cacheHits := 0; cacheMisses := 0; errors := 0;
     startTime := start; endpoints := JsMap.empty; responseTime := [] |}.

Definition initial_world (start : Z) : World :=
  {| cache := JsMap.empty; stats := initial_stats start; disk := ∅;
     fetched := []; responses := [] |}.

(** ** The environment *)

(** What [fetch(url)] gives after its latency: a transport failure, or a
    response with [ok], [status], its [text()] and its [json()] ([None] when
    the body does not parse). *)
Inductive Reply :=
| NetworkError (message : string)
| HttpReply (ok : bool) (code : nat) (text : string) (json : option JSON).

Record Env := {
  (** the n-th upstream call, to this url at this time: latency and reply *)
  upstream : nat -> string -> Z -> nat * Reply;
  (** [writeFileSync] throws on these paths *)
  write_fails : string -> bool;
  (** [new Date(t).toISOString()] *)
  toISOString : Z -> string;
  (** [(a / b * 100).toFixed(2)] and [(a / b).toFixed(2)] *)
  percent_toFixed : Z -> Z -> string;
  mean_toFixed : Z -> Z -> string;
  (** the message of the error [response.json()] throws *)
  parse_error : string
}.

(** ** Asynchronous functions *)

(** What a running function can read of the event loop. *)
Record Ctx := {
  now : Z;
  queueLength : nat
}.

(** A call of an [async] function runs to its first [await]: it has then
    returned ([Settled], with a value or an error), or waits [latency]
    milliseconds for what it awaits before its continuation runs. *)
Inductive Progress (W V E : Type) :=
| Settled (o : V + E)
| Suspended (latency : nat) (k : W -> Ctx -> W * (V + E)).
Arguments Settled {W V E} o.
Arguments Suspended {W V E} latency k.

Definition Async (W V E : Type) : Type := W -> Ctx -> W * Progress W V E.

(** ** Persistence *)

(** The file of a cache entry: [join(CACHE_DIR, `${base64(key)}.json`)]. *)
Definition cacheFilePath (key : string) : string :=
  join CACHE_DIR (base64 key +:+ ".json").

(** [writeFileSync(path, content)]: [None] when it throws. *)
Definition writeFileSync (env : Env) (path : string) (content : File)
    (d : gmap string File) : option (gmap string File) :=
  if write_fails env path then None else Some (<[path := content]> d).

(** The [for] loop of [saveCacheToDisk] (lines 66-69); the first write that
    throws leaves the loop. The boolean tells whether the loop completed. *)
Fixpoint save_items (env : Env) (items : list (string * CacheEntry))
    (d : gmap string File) : gmap string File * bool :=
  match items with
  | [] => (d, true)
  | (key, value) :: rest =>
      match writeFileSync env (cacheFilePath key) (ItemFile value) d with
      | None => (d, false)
      | Some d' => save_items env rest d'
      end
  end.

(** [saveCacheToDisk()] (lines 59-74): one [try] around the index write and
    the loop; the [catch] only logs. *)
Definition saveCacheToDisk (env : Env) (w : World) : World :=
  let keys := JsMap.keys (cache w) in
  match writeFileSync env (join CACHE_DIR "cache-index.json")
          (IndexFile keys) (disk w) with
  | None => w
  | Some d => set_disk (fst (save_items env (JsMap.entries (cache w)) d)) w
  end.

(** The start-up load (lines 35-56): each indexed key whose file exists and
    parses as an item is admitted when unexpired; a failure on one key is
    caught inside the loop. *)
Definition load_item (t0 : Z) (d : gmap string File)
    (c : JsMap.t CacheEntry) (key : string) : JsMap.t CacheEntry :=
  match d !! cacheFilePath key with
  | Some (ItemFile cachedItem) =>
      if t0 - timestamp cachedItem <? duration cachedItem
      then JsMap.set key cachedItem c
      else c
  | _ => c
  end.

Definition loadCacheFromDisk (t0 : Z) (d : gmap string File)
    : JsMap.t CacheEntry :=
  match d !! join CACHE_DIR "cache-index.json" with
  | Some (IndexFile keys) => fold_left (load_item t0 d) keys JsMap.empty
  | _ => JsMap.empty
  end.

(** The hourly clean-up (lines 578-592): the callback of [setInterval]. It
    returns the cache and the number of removed entries. *)
Definition sweep_entry (now : Z) (acc : JsMap.t CacheEntry * nat)
    (kv : string * CacheEntry) : JsMap.t CacheEntry * nat :=
  let '(key, value) := kv in
  if duration value <? now - timestamp value
  then (JsMap.delete key (fst acc), S (snd acc))
  else acc.

Definition sweep (now : Z) (c : JsMap.t CacheEntry)
    : JsMap.t CacheEntry * nat :=
  fold_left (sweep_entry now) (JsMap.entries c) (c, 0%nat).

(** ** [fetchWithCache] *)

Definition hit (s : Stats) : Stats :=
  {| requests := requests s; cacheHits := S (cacheHits s);
     cacheMisses := cacheMisses s; errors := errors s;
     startTime := startTime s; endpoints := endpoints s;
     responseTime := responseTime s |}.

Definition miss (s : Stats) : Stats :=
  {| requests := requests s; cacheHits := cacheHits s;
     cacheMisses := S (cacheMisses s); errors := errors s;
     startTime := startTime s; endpoints := endpoints s;
     responseTime := responseTime s |}.

(** The lookup (lines 99-109): the payload on a hit; an expired entry is
    deleted on the way. *)
Definition cache_lookup (now : Z) (cacheKey : string) (w : World)
    : World * option JSON :=
  match JsMap.get cacheKey (cache w) with
  | Some cachedData =>
      if now - timestamp cachedData <? duration cachedData
      then (set_stats (hit (stats w)) w, Some (data cachedData))
      else (set_cache (JsMap.delete cacheKey (cache w)) w, None)
  | None => (w, None)
  end.

(** The store (lines 125-134): [cache.set] and the flush to disk on every
    100th miss. *)
Definition cache_store (env : Env) (now : Z) (cacheKey : string)
    (cacheDuration : Z) (value : JSON) (w : World) : World :=
  let w1 :=
    set_cache
      (JsMap.set cacheKey
         {| timestamp := now; duration := cacheDuration; data := value |}
         (cache w)) w in
  if (cacheMisses (stats w1) mod 100 =? 0)%nat
  then saveCacheToDisk env w1
  else w1.

(** What follows [await fetch(url)] (lines 116-136). [now] is the time read
    at the entry of [fetchWithCache]. *)
Definition fetchWithCache_resume (env : Env) (now : Z) (cacheKey : string)
    (cacheDuration : Z) (reply : Reply) (w : World) : World * (JSON + string) :=
  match reply with
  | NetworkError message => (w, inr message)
  | HttpReply false code text _ =>
      (w, inr ("API responded with status: " +:+ pretty code
               +:+ " - " +:+ text))
  | HttpReply true _ _ None => (w, inr (parse_error env))
  | HttpReply true _ _ (Some value) =>
      (cache_store env now cacheKey cacheDuration value w, inl value)
  end.

Definition fetchWithCache (env : Env) (url cacheKey : string)
    (cacheDuration : Z) : Async World JSON string :=
  fun w ctx =>
    let '(w1, found) := cache_lookup (now ctx) cacheKey w in
    match found with
    | Some value => (w1, Settled (inl value))
    | None =>
        let w2 := set_stats (miss (stats w1)) w1 in
        let '(latency, reply) :=
          upstream env (length (fetched w2)) url (now ctx) in
        (log_fetch url (now ctx) w2,
         Suspended latency
           (fun w' _ =>
              fetchWithCache_resume env (now ctx) cacheKey cacheDuration
                reply w'))
    end.

(** ** The endpoint handlers *)

(** Every handler but [stats] computes its arguments and ends in one call:
    of [fetchWithCache], or (for [random]) of [fetch]. The call is kept as a
    value, so that its url, cache key and duration can be stated. *)
Inductive Call :=
| CallFetchWithCache (url cacheKey : string) (cacheDuration : Z)
| CallFetch (url : string)
| CallNone.

Definition cacheKey_of (c : Call) : option string :=
  match c with
  | CallFetchWithCache _ cacheKey _ => Some cacheKey
  | _ => None
  end.

Module handlers.

(** Lines 219-237. The loop copies every entry of [params], in order. *)
Definition anime (params : URLSearchParams) : Call :=
  match truthy (params_get "id" params) with
  | Some id =>
      CallFetchWithCache (BASE_URL +:+ "/anime/" +:+ id) ("anime_" +:+ id)
        CACHE_DURATION
  | None =>
      let query := params in
      CallFetchWithCache (BASE_URL +:+ "/anime?" +:+ query_toString query)
        ("anime_search_" +:+ query_toString query) CACHE_DURATION
  end.

(** Lines 240-258. *)
Definition manga (params : URLSearchParams) : Call :=
  match truthy (params_get "id" params) with
  | Some id =>
      CallFetchWithCache (BASE_URL +:+ "/manga/" +:+ id) ("manga_" +:+ id)
        CACHE_DURATION
  | None =>
      let query := params in
      CallFetchWithCache (BASE_URL +:+ "/manga?" +:+ query_toString query)
        ("manga_search_" +:+ query_toString query) CACHE_DURATION
  end.

(** Lines 261-286. *)
Definition seasons (params : URLSearchParams) : Call :=
  match truthy (params_get "year" params),
        truthy (params_get "season" params) with
  | Some year, Some season =>
      CallFetchWithCache (BASE_URL +:+ "/seasons/" +:+ year +:+ "/" +:+ season)
        ("season_" +:+ year +:+ "_" +:+ season) (12 * 60 * 60 * 1000)
  | _, _ =>
      match params_get "now" params with
      | Some "true" =>
          CallFetchWithCache (BASE_URL +:+ "/seasons/now") "season_now"
            (6 * 60 * 60 * 1000)
      | _ =>
          CallFetchWithCache (BASE_URL +:+ "/seasons") "seasons_list"
            (24 * 60 * 60 * 1000)
      end
  end.

(** Lines 289-303. *)
Definition top (params : URLSearchParams) : Call :=
  let type := get_or "type" "anime" params in
  let filter := get_or "filter" EmptyString params in
  let page := get_or "page" "1" params in
  let url := BASE_URL +:+ "/top/" +:+ type in
  let url := if String.eqb filter EmptyString then url else url +:+ "/" +:+ filter in
  let url := url +:+ "?page=" +:+ page in
  CallFetchWithCache url
    ("top_" +:+ type +:+ "_" +:+ filter +:+ "_" +:+ page)
    (3 * 60 * 60 * 1000).

(** Lines 306-314. *)
Definition schedule (params : URLSearchParams) : Call :=
  let day := get_or "day" EmptyString params in
  CallFetchWithCache
    (BASE_URL +:+ "/schedules"
     +:+ (if String.eqb day EmptyString then EmptyString else "/" +:+ day))
    ("schedule_" +:+ (if String.eqb day EmptyString then "all" else day))
    (12 * 60 * 60 * 1000).

(** Lines 317-325. *)
Definition genres (params : URLSearchParams) : Call :=
  let type := get_or "type" "anime" params in
  CallFetchWithCache (BASE_URL +:+ "/genres/" +:+ type) ("genres_" +:+ type)
    (7 * 24 * 60 * 60 * 1000).

(** The loop of [characters] and [people]: every entry but those named
    [id]. *)
Definition without_id (params : URLSearchParams) : URLSearchParams :=
  List.filter (fun kv => negb (String.eqb (fst kv) "id")) params.

(** Lines 328-347. *)
Definition characters (params : URLSearchParams) : Call :=
  match truthy (params_get "id" params) with
  | Some id =>
      CallFetchWithCache (BASE_URL +:+ "/characters/" +:+ id)
        ("character_" +:+ id) (7 * 24 * 60 * 60 * 1000)
  | None =>
      let query := without_id params in
      CallFetchWithCache
        (BASE_URL +:+ "/characters?" +:+ query_toString query)
        ("characters_search_" +:+ query_toString query) CACHE_DURATION
  end.

(** Lines 350-369. *)
Definition people (params : URLSearchParams) : Call :=
  match truthy (params_get "id" params) with
  | Some id =>
      CallFetchWithCache (BASE_URL +:+ "/people/" +:+ id)
        ("person_" +:+ id) (7 * 24 * 60 * 60 * 1000)
  | None =>
      let query := without_id params in
      CallFetchWithCache (BASE_URL +:+ "/people?" +:+ query_toString query)
        ("people_search_" +:+ query_toString query) CACHE_DURATION
  end.

(** Lines 372-380: never cached. *)
Definition random (params : URLSearchParams) : Call :=
  let type := get_or "type" "anime" params in
  CallFetch (BASE_URL +:+ "/random/" +:+ type).

(** Lines 383-392. *)
Definition reviews (params : URLSearchParams) : Call :=
  let type := get_or "type" "anime" params in
  let page := get_or "page" "1" params in
  CallFetchWithCache
    (BASE_URL +:+ "/reviews/" +:+ type +:+ "?page=" +:+ page)
    ("reviews_" +:+ type +:+ "_" +:+ page) (6 * 60 * 60 * 1000).

(** Lines 395-404. *)
Definition recommendations (params : URLSearchParams) : Call :=
  let type := get_or "type" "anime" params in
  let page := get_or "page" "1" params in
  CallFetchWithCache
    (BASE_URL +:+ "/recommendations/" +:+ type +:+ "?page=" +:+ page)
    ("recommendations_" +:+ type +:+ "_" +:+ page) (12 * 60 * 60 * 1000).

(** Lines 407-422. *)
Definition studios (params : URLSearchParams) : Call :=
  match truthy (params_get "id" params) with
  | Some id =>
      CallFetchWithCache (BASE_URL +:+ "/studios/" +:+ id)
        ("studio_" +:+ id) (7 * 24 * 60 * 60 * 1000)
  | None =>
      CallFetchWithCache (BASE_URL +:+ "/studios") "studios_list"
        (7 * 24 * 60 * 60 * 1000)
  end.

(** Lines 425-458: answered from the server's own state. *)
Definition stats (params : URLSearchParams) : Call := CallNone.

(** The keys of the [handlers] object, in the order of the source. *)
Definition names : list string :=
  [ "anime"; "manga"; "seasons"; "top"; "schedule"; "genres"; "characters";
    "people"; "random"; "reviews"; "recommendations"; "studios"; "stats" ].

(** [handlers[name]], for an own key of the object. *)
Definition lookup (name : string) : option (URLSearchParams -> Call) :=
  match name with
  | "anime" => Some anime
  | "manga" => Some manga
  | "seasons" => Some seasons
  | "top" => Some top
  | "schedule" => Some schedule
  | "genres" => Some genres
  | "characters" => Some characters
  | "people" => Some people
  | "random" => Some random
  | "reviews" => Some reviews
  | "recommendations" => Some recommendations
  | "studios" => Some studios
  | "stats" => Some stats
  | _ => None
  end.

End handlers.

(** ** Performing a handler *)

Definition obj (fields : list (string * JSON)) : JSON :=
  JObj (list_to_map fields).

Definition sum_list (l : list Z) : Z := fold_left Z.add l 0.

(** The object [handlers.stats] returns (lines 427-457). *)
Definition stats_report (env : Env) (w : World) (ctx : Ctx) : JSON :=
  let s := stats w in
  let samples := Z.of_nat (length (responseTime s)) in
  let averageResponseTime :=
    if 0 <? samples then mean_toFixed env (sum_list (responseTime s)) samples
    else mean_toFixed env 0 1 in
  let uptime := (now ctx - startTime s) / 1000 in
  let hours := uptime / 3600 in
  let minutes := Z.rem uptime 3600 / 60 in
  let seconds := Z.rem uptime 60 in
  obj
    [ ("uptime", JStr (pretty hours +:+ "h " +:+ pretty minutes +:+ "m "
                       +:+ pretty seconds +:+ "s"));
      ("requests", JNum (Z.of_nat (requests s)));
      ("cacheHits", JNum (Z.of_nat (cacheHits s)));
      ("cacheMisses", JNum (Z.of_nat (cacheMisses s)));
      ("cacheRatio",
        JStr (if (0 <? requests s)%nat
              then percent_toFixed env (Z.of_nat (cacheHits s))
                     (Z.of_nat (requests s)) +:+ "%"
              else "0%"));
      ("errors", JNum (Z.of_nat (errors s)));
      ("cacheSize", JNum (Z.of_nat (JsMap.size (cache w))));
      ("averageResponseTime", JStr (averageResponseTime +:+ "ms"));
      ("endpoints",
        JArr (map (fun '(name, d) =>
                obj [ ("name", JStr name);
                      ("calls", JNum (Z.of_nat (calls d)));
                      ("errors", JNum (Z.of_nat (ep_errors d)));
                      ("averageResponseTime",
                        JStr (if (0 <? calls d)%nat
                              then mean_toFixed env (totalResponseTime d)
                                     (Z.of_nat (calls d)) +:+ "ms"
                              else "0ms"));
                      ("errorRate",
                        JStr (if (0 <? calls d)%nat
                              then percent_toFixed env (Z.of_nat (ep_errors d))
                                     (Z.of_nat (calls d)) +:+ "%"
                              else "0%")) ])
                (JsMap.entries (endpoints s))));
      ("queueLength", JNum (Z.of_nat (queueLength ctx))) ].

(** What follows [await fetch(...)] in [handlers.random] (lines 376-379). *)
Definition random_resume (env : Env) (reply : Reply) : JSON + string :=
  match reply with
  | NetworkError message => inr message
  | HttpReply false code _ _ =>
      inr ("Random API responded with status: " +:+ pretty code)
  | HttpReply true _ _ None => inr (parse_error env)
  | HttpReply true _ _ (Some value) => inl value
  end.

Definition perform (env : Env) (c : Call) : Async World JSON string :=
  match c with
  | CallFetchWithCache url cacheKey cacheDuration =>
      fetchWithCache env url cacheKey cacheDuration
  | CallFetch url =>
      fun w ctx =>
        let '(latency, reply) :=
          upstream env (length (fetched w)) url (now ctx) in
        (log_fetch url (now ctx) w,
         Suspended latency (fun w' _ => (w', random_resume env reply)))
  | CallNone => fun w ctx => (w, Settled (inl (stats_report env w ctx)))
  end.

(** ** [performanceMiddleware] (lines 176-214) *)

Definition set_endpoints (e : JsMap.t EndpointStats) (s : Stats) : Stats :=
  {| requests := requests s; cacheHits := cacheHits s;
     cacheMisses := cacheMisses s; errors := errors s;
     startTime := startTime s; endpoints := e;
     responseTime := responseTime s |}.

Definition endpoint_stats (endpoint : string) (s : Stats) : EndpointStats :=
  match JsMap.get endpoint (endpoints s) with
  | Some d => d
  | None => {| calls := 0; ep_errors := 0; totalResponseTime := 0 |}
  end.

(** Before the handler runs (lines 181-192). *)
Definition count_call (endpoint : string) (s : Stats) : Stats :=
  let d := endpoint_stats endpoint s in
  let d' := {| calls := S (calls d); ep_errors := ep_errors d;
               totalResponseTime := totalResponseTime d |} in
  {| requests := S (requests s); cacheHits := cacheHits s;
     cacheMisses := cacheMisses s; errors := errors s;
     startTime := startTime s;
     endpoints := JsMap.set endpoint d' (endpoints s);
     responseTime := responseTime s |}.

(** [push] and, beyond 1000 samples, [shift]. *)
Definition push_sample (t : Z) (samples : list Z) : list Z :=
  let l := (samples ++ [t])%list in
  if (1000 <? length l)%nat then tl l else l.

(** After the handler returned (lines 196-207). *)
Definition count_success (endpoint : string) (elapsed : Z) (s : Stats) : Stats :=
  let d := endpoint_stats endpoint s in
  let d' := {| calls := calls d; ep_errors := ep_errors d;
               totalResponseTime := totalResponseTime d + elapsed |} in
  {| requests := requests s; cacheHits := cacheHits s;
     cacheMisses := cacheMisses s; errors := errors s;
     startTime := startTime s;
     endpoints := JsMap.set endpoint d' (endpoints s);
     responseTime := push_sample elapsed (responseTime s) |}.

(** After the handler threw (lines 209-211). *)
Definition count_error (endpoint : string) (s : Stats) : Stats :=
  let d := endpoint_stats endpoint s in
  let d' := {| calls := calls d; ep_errors := S (ep_errors d);
               totalResponseTime := totalResponseTime d |} in
  {| requests := requests s; cacheHits := cacheHits s;
     cacheMisses := cacheMisses s; errors := S (errors s);
     startTime := startTime s;
     endpoints := JsMap.set endpoint d' (endpoints s);
     responseTime := responseTime s |}.

Definition record_outcome (endpoint : string) (startTime endTime : Z)
    (o : JSON + string) (w : World) : World :=
  match o with
  | inl _ => set_stats (count_success endpoint (endTime - startTime) (stats w)) w
  | inr _ => set_stats (count_error endpoint (stats w)) w
  end.

(** The wrapper awaits the handler, so it always suspends: when the handler
    returned at once, its own continuation runs after the synchronous code
    that called it, with no time elapsed. *)
Definition performanceMiddleware (endpoint : string)
    (handler : Async World JSON string) : Async World JSON string :=
  fun w ctx =>
    let w1 := set_stats (count_call endpoint (stats w)) w in
    let startTime := now ctx in
    match handler w1 ctx with
    | (w2, Settled o) =>
        (w2, Suspended 0
               (fun w' ctx' =>
                  (record_outcome endpoint startTime (now ctx') o w', o)))
    | (w2, Suspended latency k) =>
        (w2, Suspended latency
               (fun w' ctx' =>
                  let '(w'', o) := k w' ctx' in
                  (record_outcome endpoint startTime (now ctx') o w'', o)))
    end.

(** [handlersWithStats[endpoint]], for the own keys of the object. *)
Definition handlersWithStats (env : Env) (endpoint : string)
    : option (URLSearchParams -> Async World JSON string) :=
  match handlers.lookup endpoint with
  | Some handler =>
      Some (fun params =>
              performanceMiddleware endpoint (perform env (handler params)))
  | None => None
  end.

(** ** The request queue (lines 139-173) and the event loop it runs on *)

(** The event loop is single-threaded: a callback runs to its end, or to
    its next [await], before another starts. Its state is the state of the
    queue together with what is pending: the promises of the running batch,
    each with the time at which what it awaits comes back, and the timer of
    the cooldown. Pending things happen in the order of their times, and at
    equal times in the order in which they were created; all that is due by
    the end of a wait happens within that wait. *)

Section Dispatcher.
Context {W V E : Type}.

(** An element of [requestQueue]: [{ resolve, reject, fn }]. Settling the
    promise resumes whoever awaits it; here that is a change of the world. *)
Record Task := {
  resolve : V -> W -> Ctx -> W;
  reject : E -> W -> Ctx -> W;
  fn : Async W V E
}.

(** What the loop did, for stating properties: the n-th task submitted
    has number n. *)
Inductive Event :=
| Started (tid : nat) (t : Z)
| Resolved (tid : nat) (v : V) (t : Z)
| Rejected (tid : nat) (e : E) (t : Z).

(** A promise of the current batch that has not settled yet. *)
Record Running := {
  due : Z;
  tid_of : nat;
  task_of : Task;
  resume : W -> Ctx -> W * (V + E)
}.

Record Loop := {
  world : W;
  clock : Z;
  requestQueue : list (nat * Task);
  processingQueue : bool;
  (** the promises [Promise.all] waits for *)
  running : list Running;
  (** when the pending [setTimeout] of [processQueue] fires *)
  timer : option Z;
  (** how many times [enqueueRequest] was called *)
  submitted : nat;
  trace : list Event
}.

Definition initial_loop (w : W) (t0 : Z) : Loop :=
  {| world := w; clock := t0; requestQueue := []; processingQueue := false;
     running := []; timer := None; submitted := 0; trace := [] |}.

Definition ctx_of (st : Loop) : Ctx :=
  {| now := clock st; queueLength := length (requestQueue st) |}.

(** The body of [batch.map(async ...)] up to its [await fn()]. *)
Definition start_task (st : Loop) (item : nat * Task) : Loop :=
  let '(tid, task) := item in
  let '(w', p) := fn task (world st) (ctx_of st) in
  let r :=
    match p with
    | Settled o =>
        {| due := clock st; tid_of := tid; task_of := task;
           resume := fun w _ => (w, o) |}
    | Suspended latency k =>
        {| due := clock st + Z.of_nat latency; tid_of := tid;
           task_of := task; resume := k |}
    end in
  {| world := w'; clock := clock st; requestQueue := requestQueue st;
     processingQueue := processingQueue st;
     running := (running st ++ [r])%list; timer := timer st;
     submitted := submitted st;
     trace := (trace st ++ [Started tid (clock st)])%list |}.

(** [processQueue()] up to [await Promise.all(promises)]. *)
Definition processQueue (st : Loop) : Loop :=
  if processingQueue st || (length (requestQueue st) =? 0)%nat then st
  else
    let batch := firstn MAX_REQUESTS_PER_SECOND (requestQueue st) in
    let st1 :=
      {| world := world st; clock := clock st;
         requestQueue := skipn MAX_REQUESTS_PER_SECOND (requestQueue st);
         processingQueue := true; running := running st; timer := timer st;
         submitted := submitted st; trace := trace st |} in
    fold_left start_task batch st1.

(** [enqueueRequest(fn)], with the callbacks of the promise it returns. *)
Definition enqueueRequest (task : Task) (st : Loop) : Loop :=
  processQueue
    {| world := world st; clock := clock st;
       requestQueue := (requestQueue st ++ [(submitted st, task)])%list;
       processingQueue := processingQueue st; running := running st;
       timer := timer st; submitted := S (submitted st);
       trace := trace st |}.

(** The promise that settles first; among equals, the first started. *)
Fixpoint earliest (rs : list Running) : option (Running * list Running) :=
  match rs with
  | [] => None
  | r :: rest =>
      match earliest rest with
      | None => Some (r, [])
      | Some (m, others) =>
          if due r <=? due m then Some (r, rest) else Some (m, r :: others)
      end
  end.

(** What awaited [fn()] comes back: the rest of the body of
    [batch.map(async ...)]. When it was the last of the batch,
    [Promise.all] is fulfilled and the timer is set. *)
Definition settle (r : Running) (others : list Running) (st : Loop) : Loop :=
  let ctx := {| now := due r; queueLength := length (requestQueue st) |} in
  let '(w1, o) := resume r (world st) ctx in
  let '(w2, ev) :=
    match o with
    | inl result =>
        (resolve (task_of r) result w1 ctx, Resolved (tid_of r) result (due r))
    | inr error =>
        (reject (task_of r) error w1 ctx, Rejected (tid_of r) error (due r))
    end in
  {| world := w2; clock := due r; requestQueue := requestQueue st;
     processingQueue := processingQueue st; running := others;
     timer := match others with
              | [] => Some (due r + COOLDOWN)
              | _ => timer st
              end;
     submitted := submitted st; trace := (trace st ++ [ev])%list |}.

(** The timer fires: the last two statements of [processQueue]. *)
Definition wake (t : Z) (st : Loop) : Loop :=
  processQueue
    {| world := world st; clock := t; requestQueue := requestQueue st;
       processingQueue := false; running := running st; timer := None;
       submitted := submitted st; trace := trace st |}.

(** When the loop has something to do next, and doing it. *)
Definition next_due (st : Loop) : option Z :=
  match earliest (running st) with
  | Some (r, _) => Some (due r)
  | None => timer st
  end.

Definition step (st : Loop) : Loop :=
  match earliest (running st) with
  | Some (r, others) => settle r others st
  | None =>
      match timer st with
      | Some t => wake t st
      | None => st
      end
  end.

(** Everything due up to [limit] (with no limit: everything), in order. *)
Definition within (limit : option Z) (d : Z) : bool :=
  match limit with Some l => d <=? l | None => true end.

Fixpoint advance (fuel : nat) (limit : option Z) (st : Loop) : Loop :=
  match fuel with
  | O => st
  | S fuel' =>
      match next_due st with
      | None => st
      | Some d =>
          if within limit d then advance fuel' limit (step st) else st
      end
  end.

(** A bound on the steps still to come: a queued task is started and
    settled, a running one settled, and the timer fires. *)
Definition work (st : Loop) : nat :=
  2 * length (requestQueue st) + 2 * length (running st)
  + match timer st with Some _ => 1 | None => 0 end.

Definition set_clock (t : Z) (st : Loop) : Loop :=
  {| world := world st; clock := t; requestQueue := requestQueue st;
     processingQueue := processingQueue st; running := running st;
     timer := timer st; submitted := submitted st; trace := trace st |}.

(** [dt] milliseconds pass. *)
Definition elapse (dt : nat) (st : Loop) : Loop :=
  let limit := clock st + Z.of_nat dt in
  set_clock limit (advance (work st) (Some limit) st).

(** The loop runs until nothing is left to do. *)
Definition drain (st : Loop) : Loop :=
  advance (work st) None st.

(** Another callback of the event loop, which leaves the queue alone. *)
Definition act (f : W -> Ctx -> W) (st : Loop) : Loop :=
  {| world := f (world st) (ctx_of st); clock := clock st;
     requestQueue := requestQueue st;
     processingQueue := processingQueue st; running := running st;
     timer := timer st; submitted := submitted st; trace := trace st |}.

(** What happens to the process, from outside. *)
Inductive Input :=
| Elapse (dt : nat)
| Enqueue (task : Task)
| Act (f : W -> Ctx -> W).

Definition react (st : Loop) (i : Input) : Loop :=
  match i with
  | Elapse dt => elapse dt st
  | Enqueue task => enqueueRequest task st
  | Act f => act f st
  end.

Definition run (inputs : list Input) (st : Loop) : Loop :=
  fold_left react inputs st.

(** Readings of the trace. *)
Definition event_task (ev : Event) : nat :=
  match ev with
  | Started i _ | Resolved i _ _ | Rejected i _ _ => i
  end.

Definition event_time (ev : Event) : Z :=
  match ev with
  | Started _ t | Resolved _ _ t | Rejected _ _ t => t
  end.

Definition is_start (ev : Event) : bool :=
  match ev with
  | Started _ _ => true
  | _ => false
  end.

(** How the promise of a task settled, if the event is that. *)
Definition settlement (ev : Event) : option (V + E) :=
  match ev with
  | Started _ _ => None
  | Resolved _ v _ => Some (inl v)
  | Rejected _ e _ => Some (inr e)
  end.

(** The tasks started, in order. *)
Definition started (tr : list Event) : list nat :=
  map event_task (List.filter is_start tr).

(** The times at which task [tid] was started. *)
Definition start_time (tid : nat) (tr : list Event) : list Z :=
  map event_time
    (List.filter (fun ev => is_start ev && (event_task ev =? tid)%nat) tr).

(** The ways in which the promise of task [tid] was settled. *)
Definition settlements (tid : nat) (tr : list Event) : list (V + E) :=
  omap settlement
    (List.filter (fun ev => negb (is_start ev) && (event_task ev =? tid)%nat) tr).

(** The tasks that started in the window [[a, a + COOLDOWN)]. *)
Definition started_in (a : Z) (tr : list Event) : list nat :=
  map event_task
    (List.filter
       (fun ev => is_start ev && (a <=? event_time ev)
                  && (event_time ev <? a + COOLDOWN)) tr).

(** The tasks submitted by a list of inputs, in order. *)
Definition enqueued (inputs : list Input) : list Task :=
  omap (fun i => match i with Enqueue task => Some task | _ => None end)
    inputs.

(** The task that the inputs submit as number [tid]. *)
Definition submission (inputs : list Input) (tid : nat) : option Task :=
  enqueued inputs !! tid.

(** [o] is an outcome of [fn]: what some call of it returned or threw. *)
Definition delivers (task : Task) (o : V + E) : Prop :=
  exists w ctx,
    match snd (fn task w ctx) with
    | Settled o' => o' = o
    | Suspended _ k => exists w' ctx', snd (k w' ctx') = o
    end.

(** A task that takes [latency] milliseconds and ends in [o], whatever
    the world. *)
Definition job (latency : nat) (o : V + E) : Task :=
  {| resolve := fun _ w _ => w;
     reject := fun _ w _ => w;
     fn := fun w _ => (w, Suspended latency (fun w' _ => (w', o))) |}.

(** No window of one cooldown sees more than a batch start. *)
Definition window_bound (tr : list Event) : Prop :=
  forall a, (length (started_in a tr) <= MAX_REQUESTS_PER_SECOND)%nat.

(** The task after the first [MAX_REQUESTS_PER_SECOND] starts no sooner
    than a cooldown after the first task started, and after every event
    of the tasks that started together with the first. *)
Definition first_cooldown_respected (tr : list Event) : Prop :=
  forall t1 t5,
    In (Started 0 t1) tr ->
    In (Started MAX_REQUESTS_PER_SECOND t5) tr ->
    t1 + COOLDOWN <= t5
    /\ forall ev, In ev tr -> In (Started (event_task ev) t1) tr ->
                  event_time ev + COOLDOWN <= t5.

(** *** Invariants of the loop *)

(** The events of a batch that starts at [t]. *)
Definition batch_events (t : Z) (batch : list (nat * Task)) : list Event :=
  map (fun item => Started (fst item) t) batch.

Definition count_running (tid : nat) (rs : list Running) : nat :=
  length (List.filter (fun r => (tid_of r =? tid)%nat) rs).

(** How a promise of a batch that started at [t] relates to its item. *)
Definition runs (t : Z) (r : Running) (item : nat * Task) : Prop :=
  tid_of r = fst item /\ task_of r = snd item /\ t <= due r
  /\ forall w ctx, delivers (task_of r) (snd (resume r w ctx)).

(** The flag is up exactly while a batch runs or cools down, and nothing
    is due in the past. *)
Record Shape (st : Loop) : Prop := {
  sh_excl : running st <> [] -> timer st = None;
  sh_busy : processingQueue st = true -> running st <> [] \/ timer st <> None;
  sh_idle : processingQueue st = false -> running st = [] /\ timer st = None;
  sh_due : Forall (fun r => clock st <= due r) (running st);
  sh_timer : forall t, timer st = Some t -> clock st <= t;
  sh_batch : (length (running st) <= MAX_REQUESTS_PER_SECOND)%nat
}.

(** Tasks are numbered in submission order, started in that order, and
    each started task is running or has settled once. *)
Record Numbered (st : Loop) : Prop := {
  nb_queue :
    map fst (requestQueue st)
    = seq (length (started (trace st))) (length (requestQueue st));
  nb_submitted :
    submitted st
    = (length (started (trace st)) + length (requestQueue st))%nat;
  nb_started : started (trace st) = seq 0 (length (started (trace st)));
  nb_once : forall tid,
    (length (settlements tid (trace st))
     + count_running tid (running st))%nat
    = if (tid <? length (started (trace st)))%nat then 1%nat else 0%nat;
  nb_events : forall ev, In ev (trace st) ->
    (event_task ev < length (started (trace st)))%nat
}.

(** Batches are a cooldown apart. *)
Record Paced (st : Loop) : Prop := {
  pc_past : forall ev, In ev (trace st) -> event_time ev <= clock st;
  pc_idle : processingQueue st = false ->
    forall ev, In ev (trace st) -> event_time ev + COOLDOWN <= clock st;
  pc_cool : forall t, timer st = Some t ->
    forall ev, In ev (trace st) -> event_time ev + COOLDOWN <= t;
  pc_window : forall a,
    (length (started_in a (trace st)) <= MAX_REQUESTS_PER_SECOND)%nat;
  pc_far : forall ev1 ev2,
    In ev1 (trace st) -> In ev2 (trace st) ->
    is_start ev1 = true -> is_start ev2 = true ->
    (event_task ev1 + MAX_REQUESTS_PER_SECOND <= event_task ev2)%nat ->
    event_time ev1 + COOLDOWN <= event_time ev2;
  pc_latest : forall r, In r (running st) ->
    exists s, In (Started (tid_of r) s) (trace st)
              /\ forall ev, In ev (trace st) -> is_start ev = true ->
                            event_time ev <= s;
  pc_later : forall ev ev1 ev2,
    In ev (trace st) -> In ev1 (trace st) -> In ev2 (trace st) ->
    is_start ev1 = true -> is_start ev2 = true ->
    event_task ev = event_task ev1 ->
    event_time ev1 < event_time ev2 ->
    event_time ev + COOLDOWN <= event_time ev2
}.

(** What holds between two callbacks of the event loop. [Ready] is the
    state in which [processQueue] is called. *)
Definition Ready (st : Loop) : Prop := Shape st /\ Numbered st /\ Paced st.

Definition Inv (st : Loop) : Prop :=
  Ready st /\ (processingQueue st = false -> requestQueue st = []).

(** Every promise settles with an outcome of the function of its task. *)
Record Faithful (spec : nat -> option Task) (st : Loop) : Prop := {
  fa_queue : forall tid task,
    In (tid, task) (requestQueue st) -> spec tid = Some task;
  fa_running : forall r, In r (running st) ->
    spec (tid_of r) = Some (task_of r)
    /\ forall w ctx, delivers (task_of r) (snd (resume r w ctx));
  fa_trace : forall ev o, In ev (trace st) -> settlement ev = Some o ->
    exists task, spec (event_task ev) = Some task /\ delivers task o
}.
End Dispatcher.

Arguments Task : clear implicits.
Arguments Event : clear implicits.
Arguments Running : clear implicits.
Arguments Loop : clear implicits.
Arguments Input : clear implicits.

(** ** The server (lines 470-572) *)

(** The own enumerable properties a spread [...value] copies: the fields of
    an object, the indices of an array or of a string, nothing otherwise. *)
Fixpoint chars_of (s : string) : list JSON :=
  match s with
  | EmptyString => []
  | String c rest => JStr (String c EmptyString) :: chars_of rest
  end.

Definition indexed (l : list JSON) : gmap string JSON :=
  list_to_map (imap (fun (i : nat) v => (pretty i, v)) l).

Definition own_properties (value : JSON) : gmap string JSON :=
  match value with
  | JObj m => m
  | JArr l => indexed l
  | JStr s => indexed (chars_of s)
  | _ => ∅
  end.

(** The object literal of lines 546-552: the four fields, then the spread,
    whose properties replace fields of the same name. *)
Definition enhancedData (env : Env) (endpoint : string) (t : Z)
    (jikanData : JSON) : gmap string JSON :=
  own_properties jikanData ∪
  <["source" := JStr "Jikan API Proxy"]>
  (<["cached" := JBool (negb (String.eqb endpoint "random")
                        && negb (String.eqb endpoint "stats"))]>
  (<["timestamp" := JStr (toISOString env t)]>
  (<["endpoint" := JStr endpoint]> ∅))).

(** The body of the [catch] (lines 559-569). *)
Definition error_response (endpoint errorMessage : string) : HttpResponse :=
  let message :=
    if String.eqb errorMessage EmptyString then "Unknown error" else errorMessage in
  {| status := 500;
     body := obj [ ("error", JStr "Gagal mengambil data");
                   ("message", JStr message);
                   ("endpoint", JStr endpoint) ] |}.

Definition not_found_response : HttpResponse :=
  {| status := 404;
     body := obj [ ("error", JStr "Endpoint tidak ditemukan");
                   ("available_endpoints", JArr (map JStr handlers.names)) ] |}.

Definition home_response : HttpResponse :=
  {| status := 200;
     body :=
       obj [ ("message", JStr "Jikan API Proxy with High Performance Caching");
             ("version", JStr "1.1.0");
             ("endpoints",
               obj [ ("/api/anime", JStr "Cari anime atau dapatkan by ID dengan ?id=123");
                     ("/api/manga", JStr "Cari manga atau dapatkan by ID dengan ?id=123");
                     ("/api/seasons", JStr "Dapatkan anime berdasarkan musim");
                     ("/api/seasons?now=true", JStr "Dapatkan anime musim sekarang");
                     ("/api/top", JStr "Dapatkan top anime/manga dengan ?type=anime|manga");
                     ("/api/schedule", JStr "Dapatkan jadwal anime dengan ?day=hari");
                     ("/api/genres", JStr "Dapatkan genre dengan ?type=anime|manga");
                     ("/api/characters", JStr "Cari karakter atau dapatkan by ID dengan ?id=123");
                     ("/api/people", JStr "Cari orang atau dapatkan by ID dengan ?id=123");
                     ("/api/random", JStr "Dapatkan anime/manga acak dengan ?type=anime|manga");
                     ("/api/reviews", JStr "Dapatkan review dengan ?type=anime|manga");
                     ("/api/recommendations", JStr "Dapatkan rekomendasi dengan ?type=anime|manga");
                     ("/api/studios", JStr "Dapatkan daftar studio atau detail dengan ?id=123");
                     ("/api/stats", JStr "Dapatkan statistik server") ]);
             ("documentation", JStr "Akses /api/stats untuk melihat performa server") ] |}.

(** An inbound request: the connection it came on, its method, the segments
    of its lower-cased path and its query. *)
Record Request := {
  conn : nat;
  method : string;
  parts : list string;
  searchParams : URLSearchParams
}.

(** The task the handler submits (lines 541-543) with what happens when its
    promise settles (lines 545-557 and 558-569). *)
Definition request_task (env : Env) (req : Request) (endpoint : string)
    (handler : URLSearchParams -> Async World JSON string)
    : Task World JSON string :=
  {| fn := handler (searchParams req);
     resolve := fun jikanData w ctx =>
       send (conn req)
         {| status := 200;
            body := JObj (enhancedData env endpoint (now ctx) jikanData) |} w;
     reject := fun error w ctx =>
       send (conn req) (error_response endpoint error) w |}.

(** [fetch(req)] answers at once, or submits a task to the queue: which of
    the two, as an input of the event loop. An endpoint is looked up among
    the own keys of [handlersWithStats]; the names the object inherits from
    its prototype are left out of the model. *)
Definition route (env : Env) (req : Request) : Input World JSON string :=
  if String.eqb (method req) "OPTIONS"
  then Act (fun w _ => send (conn req) {| status := 200; body := JNull |} w)
  else
    match parts req with
    | "api" :: endpoint :: _ =>
        match handlersWithStats env endpoint with
        | None => Act (fun w _ => send (conn req) not_found_response w)
        | Some handler => Enqueue (request_task env req endpoint handler)
        end
    | _ => Act (fun w _ => send (conn req) home_response w)
    end.

Definition fetch (env : Env) (req : Request)
    (st : Loop World JSON string) : Loop World JSON string :=
  react st (route env req).

(** The two [setInterval] callbacks (lines 578-597). *)
Definition cleanup_tick (w : World) (ctx : Ctx) : World :=
  set_cache (fst (sweep (now ctx) (cache w))) w.

Definition flush_tick (env : Env) (w : World) (ctx : Ctx) : World :=
  saveCacheToDisk env w.

(** What reaches the server. *)
Inductive ServerInput :=
| Wait (dt : nat)
| Receive (req : Request)
| Cleanup
| Flush.

Definition serve_input (env : Env) (st : Loop World JSON string)
    (i : ServerInput) : Loop World JSON string :=
  match i with
  | Wait dt => elapse dt st
  | Receive req => fetch env req st
  | Cleanup => act cleanup_tick st
  | Flush => act (flush_tick env) st
  end.

Definition serve (env : Env) (inputs : list ServerInput)
    (st : Loop World JSON string) : Loop World JSON string :=
  fold_left (serve_input env) inputs st.

(** What an input of the server is to the event loop. *)
Definition to_input (env : Env) (i : ServerInput) : Input World JSON string :=
  match i with
  | Wait dt => Elapse dt
  | Receive req => route env req
  | Cleanup => Act cleanup_tick
  | Flush => Act (flush_tick env)
  end.

(** The server after start-up at time [t0] over the files [d]. *)
Definition boot (t0 : Z) (d : gmap string File) : Loop World JSON string :=
  initial_loop
    {| cache := loadCacheFromDisk t0 d; stats := initial_stats t0; disk := d;
       fetched := []; responses := [] |} t0.

(** ** Notions used in the statements *)

(** The value the server computes for the [cached] field. *)
Definition cached_flag (endpoint : string) : bool :=
  negb (String.eqb endpoint "random") && negb (String.eqb endpoint "stats").

(** Whether a byte occurs in a string. *)
Fixpoint occurs (c : ascii) (s : string) : bool :=
  match s with
  | EmptyString => false
  | String c' rest => Ascii.eqb c c' || occurs c rest
  end.

(** Reading one token of [form_encode] back. *)
Definition unhex (c : ascii) : option N :=
  let n := N_of_ascii c in
  (if (48 <=? n) && (n <=? 57) then Some (n - 48)
   else if (65 <=? n) && (n <=? 70) then Some (n - 55)
   else None)%N.

Definition read_token (s : string) : option (ascii * string) :=
  match s with
  | EmptyString => None
  | String "+"%char rest => Some (" "%char, rest)
  | String "%"%char (String h (String l rest)) =>
      match unhex h, unhex l with
      | Some x, Some y => Some (ascii_of_N (x * 16 + y), rest)
      | _, _ => None
      end
  | String c rest => Some (c, rest)
  end%N.

(** The test of the clean-up: the age is strictly above the duration. *)
Definition expired_for_sweep (t : Z) (e : CacheEntry) : bool :=
  duration e <? t - timestamp e.

(** The disk after the files of [items] were written, none failing. *)
Fixpoint write_all (items : list (string * CacheEntry))
    (d : gmap string File) : gmap string File :=
  match items with
  | [] => d
  | (key, value) :: rest =>
      write_all rest (<[cacheFilePath key := ItemFile value]> d)
  end.

(** ** Sample environments and inputs *)

(** An upstream that answers every call after 120 ms with [{ data: n }],
    [n] the number of the call; a file system that accepts every write. *)
Definition calm_env : Env :=
  {| upstream := fun n _ _ =>
       (120%nat, HttpReply true 200 EmptyString (Some (obj [("data", JNum (Z.of_nat n))])));
     write_fails := fun _ => false;
     toISOString := fun t => pretty t;
     percent_toFixed := fun a b => pretty (a * 100 / b);
     mean_toFixed := fun a b => pretty (a / b);
     parse_error := "SyntaxError" |}.

Fixpoint count_char (c : ascii) (s : string) : nat :=
  match s with
  | EmptyString => 0
  | String c' rest => (if Ascii.eqb c c' then 1 else 0) + count_char c rest
  end%nat.

(** The same, over a cache directory without subdirectories: writing
    [cache/a/b] throws, there being no directory [cache/a]. *)
Definition flat_dir_env : Env :=
  {| upstream := upstream calm_env;
     write_fails := fun path => (1 <? count_char "/" path)%nat;
     toISOString := toISOString calm_env;
     percent_toFixed := percent_toFixed calm_env;
     mean_toFixed := mean_toFixed calm_env;
     parse_error := parse_error calm_env |}.

Definition sample_entry (t ttl : Z) : CacheEntry :=
  {| timestamp := t; duration := ttl; data := JNull |}.

Definition get_request (c : nat) (endpoint : string)
    (params : URLSearchParams) : Request :=
  {| conn := c; method := "GET"; parts := ["api"; endpoint];
     searchParams := params |}.

(** A cache of two entries; the key of the first has a base64 name with a
    [/] in it. *)
Definition two_entries : World :=
  set_cache [("anime_21?", sample_entry 0 1000); ("anime_5", sample_entry 0 1000)]
    (initial_world 0).

(** Six jobs of 100 ms submitted at once, and three of which the second
    fails. *)
Definition six_jobs : list (Input unit nat string) :=
  map (fun n => Enqueue (job 100 (inl n))) (seq 0 6).

Definition three_jobs : list (Input unit nat string) :=
  [ Enqueue (job 100 (inl 1%nat));
    Enqueue (job 300 (inr "boom"));
    Enqueue (job 200 (inl 3%nat)) ].

(** An upstream that answers every call with [payload]. *)
Definition replying (payload : JSON) : Env :=
  {| upstream := fun _ _ _ => (120%nat, HttpReply true 200 EmptyString (Some payload));
     write_fails := write_fails calm_env;
     toISOString := toISOString calm_env;
     percent_toFixed := percent_toFixed calm_env;
     mean_toFixed := mean_toFixed calm_env;
     parse_error := parse_error calm_env |}.

Definition sample_ctx : Ctx := {| now := 0; queueLength := 0 |}.


(** ** Further notions used in the statements *)

(** The entries the clean-up keeps. *)
Definition fresh_for_sweep (t : Z) (kv : string * CacheEntry) : bool :=
  negb (expired_for_sweep t (snd kv)).

(** The entries a lookup at [t] accepts. *)
Definition valid_at (t : Z) (e : CacheEntry) : bool :=
  t - timestamp e <? duration e.

(** The [handlers] object as a table. *)
Definition handler_table : list (string * (URLSearchParams -> Call)) :=
  [ ("anime", handlers.anime); ("manga", handlers.manga);
    ("seasons", handlers.seasons); ("top", handlers.top);
    ("schedule", handlers.schedule); ("genres", handlers.genres);
    ("characters", handlers.characters); ("people", handlers.people);
    ("random", handlers.random); ("reviews", handlers.reviews);
    ("recommendations", handlers.recommendations);
    ("studios", handlers.studios); ("stats", handlers.stats) ].



Definition url_of (c : Call) : option string :=
  match c with
  | CallFetchWithCache url _ _ => Some url
  | CallFetch url => Some url
  | CallNone => None
  end.

(** The payload of a reply that [fetchWithCache] accepts. *)
Definition reply_value (reply : Reply) : option JSON :=
  match reply with
  | HttpReply true _ _ (Some value) => Some value
  | _ => None
  end.

(** The handlers that read their parameters by name only. *)
Definition by_name_handlers : list (URLSearchParams -> Call) :=
  [ handlers.seasons; handlers.top; handlers.schedule; handlers.genres;
    handlers.random; handlers.reviews; handlers.recommendations;
    handlers.studios ].

(** An upstream that answers every call with a 404. *)
Definition failing_env : Env :=
  {| upstream := fun _ _ _ => (80%nat, HttpReply false 404 "Not Found" None);
     write_fails := write_fails calm_env;
     toISOString := toISOString calm_env;
     percent_toFixed := percent_toFixed calm_env;
     mean_toFixed := mean_toFixed calm_env;
     parse_error := parse_error calm_env |}.

(** Reading base64 back: the value of a digit, and the bytes of a text. *)
Definition unb64 (c : ascii) : N :=
  let n := N_of_ascii c in
  (if (65 <=? n) && (n <=? 90) then n - 65
   else if (97 <=? n) && (n <=? 122) then n - 71
   else if (48 <=? n) && (n <=? 57) then n + 4
   else if n =? 43 then 62
   else 63)%N.

Fixpoint unbase64 (s : string) : string :=
  match s with
  | String a (String b (String c (String d rest))) =>
      let x := (unb64 a * 4 + unb64 b / 16)%N in
      let y := ((unb64 b mod 16) * 16 + unb64 c / 4)%N in
      let z := ((unb64 c mod 4) * 64 + unb64 d)%N in
      if Ascii.eqb c "="%char then String (ascii_of_N x) EmptyString
      else if Ascii.eqb d "="%char
           then String (ascii_of_N x) (String (ascii_of_N y) EmptyString)
           else String (ascii_of_N x)
                  (String (ascii_of_N y) (String (ascii_of_N z) (unbase64 rest)))
  | _ => EmptyString
  end.

(** ** The steps of the queue, one at a time *)

Section Steps.
Context {W V E : Type}.

(** [enqueueRequest] after its [push], before it calls [processQueue]. *)
Definition queued (task : Task W V E) (st : Loop W V E) : Loop W V E :=
{| world := world st; clock := clock st;
   requestQueue := (requestQueue st ++ [(submitted st, task)])%list;
   processingQueue := processingQueue st; running := running st;
   timer := timer st; submitted := S (submitted st);
   trace := trace st |}.

(** The timer callback after it lowered the flag, before it calls
  [processQueue]. *)
Definition woken (t : Z) (st : Loop W V E) : Loop W V E :=
{| world := world st; clock := t; requestQueue := requestQueue st;
   processingQueue := false; running := running st; timer := None;
   submitted := submitted st; trace := trace st |}.

(** [processQueue] after its [splice], before it starts the batch. *)
Definition opened (st : Loop W V E) : Loop W V E :=
{| world := world st; clock := clock st;
   requestQueue := skipn MAX_REQUESTS_PER_SECOND (requestQueue st);
   processingQueue := true; running := running st; timer := timer st;
   submitted := submitted st; trace := trace st |}.

(** The times at which tasks started, in order. *)
Definition start_times (tr : list (Event V E)) : list Z :=
map event_time (List.filter is_start tr).

Definition is_rejection (ev : Event V E) : bool :=
match ev with
| Rejected _ _ _ => true
| _ => false
end.

Definition is_settlement (ev : Event V E) : bool := negb (is_start ev).
End Steps.

(** The times of a list that fall in the window [[a, a + COOLDOWN)]. *)
Definition in_window (a : Z) (times : list Z) : list Z :=
  List.filter (fun t => (a <=? t) && (t <? a + COOLDOWN)) times.

(** ** What the server keeps in step with its queue *)

(** An outcome counts as an error when the handler threw. *)
Definition counted (o : JSON + string) : nat :=
  match o with
  | inl _ => 0%nat
  | inr _ => 1%nat
  end.

(** The responses of the [catch] of the server carry status 500. *)
Definition failed (r : nat * HttpResponse) : bool :=
  (status (snd r) =? 500)%nat.

(** The connections on which requests came in, in order. *)
Definition received (inputs : list ServerInput) : list nat :=
  omap (fun i => match i with Receive req => Some (conn req) | _ => None end)
    inputs.

(** [task] is what the server submits for [req]. *)
Definition for_request (env : Env) (req : Request)
    (task : Task World JSON string) : Prop :=
  exists endpoint handler,
    handlersWithStats env endpoint = Some handler
    /\ task = request_task env req endpoint handler.

(** What the code after an [await] of a handler leaves alone. *)
Record Silent (k : World -> Ctx -> World * (JSON + string)) : Prop := {
  si_stats : forall w ctx, stats (fst (k w ctx)) = stats w;
  si_fetched : forall w ctx, fetched (fst (k w ctx)) = fetched w;
  si_responses : forall w ctx, responses (fst (k w ctx)) = responses w
}.

(** What the code after the [await] of [performanceMiddleware] does to the
    counters: it calls no upstream, sends nothing, and counts the error. *)
Record Quiet (k : World -> Ctx -> World * (JSON + string)) : Prop := {
  qu_fetched : forall w ctx, fetched (fst (k w ctx)) = fetched w;
  qu_responses : forall w ctx, responses (fst (k w ctx)) = responses w;
  qu_requests : forall w ctx,
    requests (stats (fst (k w ctx))) = requests (stats w);
  qu_hits : forall w ctx,
    cacheHits (stats (fst (k w ctx))) = cacheHits (stats w);
  qu_misses : forall w ctx,
    cacheMisses (stats (fst (k w ctx))) = cacheMisses (stats w);
  qu_errors : forall w ctx,
    errors (stats (fst (k w ctx)))
    = (errors (stats w) + counted (snd (k w ctx)))%nat;
  qu_samples : forall w ctx,
    (length (responseTime (stats w)) <= 1000)%nat ->
    (length (responseTime (stats (fst (k w ctx)))) <= 1000)%nat
}.

(** What a handler does to the world up to its first [await], at time [t]:
    [n] more requests counted, and one hit or at most one upstream call. *)
Record Touched (n : nat) (t : Z) (w w' : World) : Prop := {
  to_responses : responses w' = responses w;
  to_requests : requests (stats w') = (n + requests (stats w))%nat;
  to_errors : errors (stats w') = errors (stats w);
  to_samples : responseTime (stats w') = responseTime (stats w);
  to_calls :
    (fetched w' = fetched w
     /\ cacheMisses (stats w') = cacheMisses (stats w)
     /\ (cacheHits (stats w') <= S (cacheHits (stats w)))%nat)
    \/ (exists url, fetched w' = (fetched w ++ [(url, t)])%list
        /\ cacheHits (stats w') = cacheHits (stats w)
        /\ (cacheMisses (stats w') <= S (cacheMisses (stats w)))%nat)
}.

(** The books of the server: who is still owed a response, and how the
    counters and the log of upstream calls follow the trace of the queue.
    [conns] are the connections of the requests received, [batch] the tasks
    that [processQueue] took off the queue and has not started yet. *)
Record Ledger (env : Env) (conns : list nat)
    (batch : list (nat * Task World JSON string))
    (st : Loop World JSON string) : Prop := {
  lg_conns : exists qs bs rs : list Request,
    Forall2 (fun item req => for_request env req (snd item))
      (requestQueue st) qs
    /\ Forall2 (fun item req => for_request env req (snd item)) batch bs
    /\ Forall2 (fun r req => for_request env req (task_of r)) (running st) rs
    /\ (map fst (responses (world st)) ++ map conn rs
        ++ map conn bs ++ map conn qs)%list ≡ₚ conns;
  lg_quiet : Forall (fun r => Quiet (resume r)) (running st);
  lg_fetched :
    sublist (map snd (fetched (world st))) (start_times (trace st));
  lg_requests :
    requests (stats (world st)) = length (started (trace st));
  lg_errors :
    errors (stats (world st))
    = length (List.filter is_rejection (trace st));
  lg_failed :
    length (List.filter failed (responses (world st)))
    = length (List.filter is_rejection (trace st));
  lg_hits :
    (cacheHits (stats (world st)) + length (fetched (world st))
     <= requests (stats (world st)))%nat;
  lg_misses :
    (cacheMisses (stats (world st)) <= length (fetched (world st)))%nat;
  lg_samples : (length (responseTime (stats (world st))) <= 1000)%nat
}.

(** The sum of a counter over the endpoints of [stats.endpoints]. *)
Definition total (f : EndpointStats -> nat) (m : JsMap.t EndpointStats) : nat :=
  list_sum (map (fun e => f (snd e)) m).

(** The counters per endpoint add up to the counters of the server. *)
Record Tallied (w : World) : Prop := {
  ta_calls : total calls (endpoints (stats w)) = requests (stats w);
  ta_errors : total ep_errors (endpoints (stats w)) = errors (stats w)
}.

Definition Steady (k : World -> Ctx -> World * (JSON + string)) : Prop :=
  forall w ctx, Tallied w -> Tallied (fst (k w ctx)).

Definition Books (env : Env) (conns : list nat)
    (batch : list (nat * Task World JSON string))
    (st : Loop World JSON string) : Prop :=
  Ledger env conns batch st
  /\ Tallied (world st)
  /\ Forall (fun r => Steady (resume r)) (running st).

(** ** The shape of a file name *)

(** The bytes of a text: [Buffer.from(key)] encodes the key in UTF-8, and
    no byte of UTF-8 reaches [0xFC]. *)
Fixpoint text_bytes (s : string) : bool :=
  match s with
  | EmptyString => true
  | String a rest => (N_of_ascii a <? 252)%N && text_bytes rest
  end.

(** No slash follows a slash: [path.join] finds no empty segment to
    remove. [after_slash] tells whether the text follows a slash. *)
Fixpoint slashes_apart (after_slash : bool) (s : string) : bool :=
  match s with
  | EmptyString => true
  | String a rest =>
      negb (after_slash && Ascii.eqb a "/"%char)
      && slashes_apart (Ascii.eqb a "/"%char) rest
  end.

(** ** The requests the model of the server covers *)

(** The names every object inherits from [Object.prototype]:
    [handlersWithStats[name]] is defined for them, though they are no
    endpoints, and [route] leaves them out. *)
Definition inherited_names : list string :=
  [ "constructor"; "__proto__"; "hasOwnProperty"; "isPrototypeOf";
    "propertyIsEnumerable"; "toLocaleString"; "toString"; "valueOf";
    "__defineGetter__"; "__defineSetter__"; "__lookupGetter__";
    "__lookupSetter__" ].

Definition own_endpoint (req : Request) : bool :=
  match parts req with
  | _ :: endpoint :: _ => negb (existsb (String.eqb endpoint) inherited_names)
  | _ => true
  end.

Definition own_endpoints (inputs : list ServerInput) : bool :=
  forallb (fun i => match i with
                    | Receive req => own_endpoint req
                    | _ => true
                    end) inputs.

(** A lookup by id, a request for an endpoint that does not exist, a wait
    and a request for a random title. *)
Definition sample_inputs : list ServerInput :=
  [ Receive (get_request 1 "anime" [("id", "5")]);
    Receive (get_request 2 "waifu" []);
    Wait 3000;
    Receive (get_request 3 "random" []) ].

(** ** Watching the tasks of the queue *)

(** What the queue does to a task can be seen from outside only through
    what the task and the callbacks of its promise do. A watched task notes
    in the world each call of its function, what the function returned or
    threw, and what its promise was resolved or rejected with. *)
Section Watch.
Context {W V E : Type}.

Inductive Note :=
| Ran (tid : nat)
| Returned (tid : nat) (o : V + E)
| Got (tid : nat) (o : V + E).

(** The task [task], numbered [tid], with the notes. A function that
  returns without awaiting is resumed at once, as [start_task] does. *)
Definition observed (tid : nat) (task : Task W V E)
  : Task (W * list Note) V E :=
{| fn := fun wl ctx =>
     let r := fn task (fst wl) ctx in
     ((fst r, (snd wl ++ [Ran tid])%list),
      match snd r with
      | Settled o =>
          Suspended 0
            (fun wl' _ => ((fst wl', (snd wl' ++ [Returned tid o])%list), o))
      | Suspended latency k =>
          Suspended latency
            (fun wl' ctx' =>
               let r' := k (fst wl') ctx' in
               ((fst r', (snd wl' ++ [Returned tid (snd r')])%list), snd r'))
      end);
   resolve := fun v wl ctx =>
     (resolve task v (fst wl) ctx, (snd wl ++ [Got tid (inl v)])%list);
   reject := fun e wl ctx =>
     (reject task e (fst wl) ctx, (snd wl ++ [Got tid (inr e)])%list) |}.

(** The inputs with every task watched, the tasks numbered from [n] in the
  order of their submission. *)
Fixpoint observe (n : nat) (inputs : list (Input W V E))
  : list (Input (W * list Note) V E) :=
match inputs with
| [] => []
| Elapse dt :: rest => Elapse dt :: observe n rest
| Enqueue task :: rest => Enqueue (observed n task) :: observe (S n) rest
| Act f :: rest =>
    Act (fun wl ctx => (f (fst wl) ctx, snd wl)) :: observe n rest
end.

(** Readings of the notes: how often the function of task [tid] ran, what
  it returned or threw, and what its promise got. *)
Definition executions (tid : nat) (notes : list Note) : nat :=
length (List.filter (fun n => match n with
                              | Ran i => (i =? tid)%nat
                              | _ => false
                              end) notes).

Definition returned (tid : nat) (notes : list Note) : list (V + E) :=
omap (fun n => match n with
               | Returned i o => if (i =? tid)%nat then Some o else None
               | _ => None
               end) notes.

Definition got (tid : nat) (notes : list Note) : list (V + E) :=
omap (fun n => match n with
               | Got i o => if (i =? tid)%nat then Some o else None
               | _ => None
               end) notes.

(** The notes that go with an event of the trace. *)
Definition notes_of (ev : Event V E) : list Note :=
match ev with
| Started i _ => [Ran i]
| Resolved i v _ => [Returned i (inl v); Got i (inl v)]
| Rejected i e _ => [Returned i (inr e); Got i (inr e)]
end.

(** A promise of the watched run and the promise of the plain run it
  stands for. *)
Definition watches (r' : Running (W * list Note) V E) (r : Running W V E)
  : Prop :=
due r' = due r /\ tid_of r' = tid_of r
/\ task_of r' = observed (tid_of r) (task_of r)
/\ forall wl ctx,
     resume r' wl ctx
     = ((fst (resume r (fst wl) ctx),
         (snd wl ++ [Returned (tid_of r) (snd (resume r (fst wl) ctx))])%list),
        snd (resume r (fst wl) ctx)).

(** The watched run goes as the plain run does, and its notes are those of
  its trace. *)
Record Watched (st' : Loop (W * list Note) V E) (st : Loop W V E) : Prop := {
wa_world : fst (world st') = world st;
wa_notes : snd (world st') = flat_map notes_of (trace st');
wa_clock : clock st' = clock st;
wa_flag : processingQueue st' = processingQueue st;
wa_timer : timer st' = timer st;
wa_submitted : submitted st' = submitted st;
wa_trace : trace st' = trace st;
wa_queue :
  Forall2 (fun i' i => fst i' = fst i /\ snd i' = observed (fst i) (snd i))
    (requestQueue st') (requestQueue st);
wa_running : Forall2 watches (running st') (running st)
}.
End Watch.

Arguments Note : clear implicits.

(** Three watched jobs; the second fails. *)
Definition three_jobs_watched : Loop (unit * list (Note nat string)) nat string :=
  drain (run (observe 0 three_jobs) (initial_loop (tt, []) 0)).

(** A slow upstream: a call of [fetchWithCache] with a ttl of 50 ms,
    answered after 120 ms, as a task of the queue. *)
Definition slow_task : Task World JSON string :=
  {| fn := fetchWithCache calm_env "https://api.jikan.moe/v4/anime/5" "anime_5" 50;
     resolve := fun _ w _ => w;
     reject := fun _ w _ => w |}.

(** A cache with an entry that has expired by 5000 and one that has not. *)
Definition stale_and_fresh : World :=
  set_cache [("a", sample_entry 0 1000); ("b", sample_entry 4500 1000)]
    (initial_world 0).

(** * Properties *)

(** ** The [Map] *)

Section JsMapFacts.
Context {V : Type}.
Implicit Types (m : JsMap.t V) (k : string) (v : V).

Lemma get_set_eq k v m : JsMap.get k (JsMap.set k v m) = Some v.
Proof.
  induction m as [|[k' v'] m IH]; simpl.
  - now rewrite String.eqb_refl.
  - destruct (String.eqb k k') eqn:Hk; simpl; rewrite ?String.eqb_refl, ?Hk; auto.
Qed.

Lemma get_set_ne k k' v m :
  k <> k' -> JsMap.get k' (JsMap.set k v m) = JsMap.get k' m.
Proof.
  intros Hne. induction m as [|[k0 v0] m IH]; simpl.
  - destruct (String.eqb_spec k' k); congruence.
  - destruct (String.eqb_spec k k0) as [->|Hk]; simpl.
    + destruct (String.eqb_spec k' k0); congruence.
    + destruct (String.eqb_spec k' k0); auto.
Qed.

Lemma get_delete_eq k m : JsMap.get k (JsMap.delete k m) = None.
Proof.
  induction m as [|[k' v'] m IH]; simpl; auto.
  destruct (String.eqb k k') eqn:Hk; simpl; rewrite ?Hk; auto.
Qed.

Lemma get_delete_ne k k' m :
  k <> k' -> JsMap.get k' (JsMap.delete k m) = JsMap.get k' m.
Proof.
  intros Hne. induction m as [|[k0 v0] m IH]; simpl; auto.
  destruct (String.eqb_spec k k0) as [->|Hk]; simpl.
  - destruct (String.eqb_spec k' k0); congruence.
  - destruct (String.eqb_spec k' k0); auto.
Qed.

Lemma has_delete k m : JsMap.has k (JsMap.delete k m) = false.
Proof. unfold JsMap.has. now rewrite get_delete_eq. Qed.

Lemma get_In k v m : JsMap.get k m = Some v -> In (k, v) m.
Proof.
  induction m as [|[k' v'] m IH]; simpl; [discriminate|].
  destruct (String.eqb_spec k k') as [->|Hk]; intros H.
  - left. congruence.
  - right. auto.
Qed.

Lemma In_get k v m : JsMap.wf m -> In (k, v) m -> JsMap.get k m = Some v.
Proof.
  unfold JsMap.wf, JsMap.keys.
  induction m as [|[k' v'] m IH]; simpl; [tauto|].
  intros Hnd Hin. apply NoDup_cons in Hnd as [Hnot Hnd].
  destruct Hin as [Heq|Hin].
  - inversion Heq; subst. now rewrite String.eqb_refl.
  - destruct (String.eqb_spec k k') as [->|Hk].
    + exfalso. apply Hnot. apply list_elem_of_In.
      apply (in_map fst) in Hin. exact Hin.
    + apply IH; auto.
Qed.
End JsMapFacts.

(** ** The cache *)

Section CacheFacts.
Variable env : Env.

Lemma saveCacheToDisk_cache w : cache (saveCacheToDisk env w) = cache w.
Proof.
  unfold saveCacheToDisk. now destruct (writeFileSync _ _ _ _).
Qed.

Lemma cache_store_cache t key ttl value w :
  cache (cache_store env t key ttl value w)
  = JsMap.set key {| timestamp := t; duration := ttl; data := value |} (cache w).
Proof.
  unfold cache_store.
  destruct (_ =? _)%nat; [rewrite saveCacheToDisk_cache|]; reflexivity.
Qed.

(** The lookup on a present, unexpired entry. *)
Lemma cache_lookup_valid t key w e :
  JsMap.get key (cache w) = Some e ->
  t - timestamp e < duration e ->
  cache_lookup t key w = (set_stats (hit (stats w)) w, Some (data e)).
Proof.
  intros Hget Hlt. unfold cache_lookup. rewrite Hget.
  apply Z.ltb_lt in Hlt. now rewrite Hlt.
Qed.

(** The lookup on a present, expired entry. *)
Lemma cache_lookup_expired t key w e :
  JsMap.get key (cache w) = Some e ->
  duration e <= t - timestamp e ->
  cache_lookup t key w
  = (set_cache (JsMap.delete key (cache w)) w, None).
Proof.
  intros Hget Hge. unfold cache_lookup. rewrite Hget.
  apply Z.ltb_ge in Hge. now rewrite Hge.
Qed.

(** C6: once [t >= ttl] milliseconds have passed since the store, the
    lookup finds nothing and leaves the map without the key. *)
Theorem lookup_after_ttl_misses_and_deletes t0 key ttl value w (t : Z) :
  ttl <= t ->
  let after := cache_lookup (t0 + t) key (cache_store env t0 key ttl value w) in
  snd after = None
  /\ JsMap.has key (cache (fst after)) = false
  /\ ~ In key (JsMap.keys (cache (fst after))).
Proof.
  intros Hge after. subst after.
  erewrite cache_lookup_expired with (e := {| timestamp := t0; duration := ttl; data := value |}).
  - simpl. split; [reflexivity|]. split; [apply has_delete|].
    generalize (cache (cache_store env t0 key ttl value w)). intros m.
    induction m as [|[k' v'] m IH]; simpl; [tauto|].
    destruct (String.eqb_spec key k'); simpl; [assumption|]. intros []; [congruence|tauto].
  - rewrite cache_store_cache. apply get_set_eq.
  - simpl. lia.
Qed.
End CacheFacts.

(** With a ttl of zero the entry stored is expired at once, and the lookup
    that follows does not return the value. *)
Example lookup_after_store_zero_ttl :
  snd (cache_lookup 0 "k" (cache_store calm_env 0 "k" 0 (JNum 1) (initial_world 0)))
  <> Some (JNum 1).
Proof. vm_compute. discriminate. Qed.

Lemma lookup_after_ttl_misses_and_deletes_witness :
  let after :=
    cache_lookup (5 + 1000) "k"
      (cache_store calm_env 5 "k" 1000 (JNum 1) (initial_world 0)) in
  snd after = None
  /\ JsMap.has "k" (cache (fst after)) = false
  /\ ~ In "k" (JsMap.keys (cache (fst after))).
Proof.
  apply (lookup_after_ttl_misses_and_deletes calm_env 5 "k" 1000 (JNum 1)). lia.
Defined.

(** ** The hourly clean-up *)

Lemma sweep_fold_get t k l :
  forall acc n,
    JsMap.get k (fst (fold_left (sweep_entry t) l (acc, n)))
    = if existsb (fun kv => String.eqb (fst kv) k && expired_for_sweep t (snd kv)) l
      then None else JsMap.get k acc.
Proof.
  induction l as [|[k' v] l IH]; intros acc n; simpl; [reflexivity|].
  unfold expired_for_sweep at 1. simpl.
  destruct (duration v <? t - timestamp v) eqn:Hexp; simpl.
  - rewrite IH. destruct (String.eqb_spec k' k) as [->|Hne]; simpl.
    + rewrite get_delete_eq. now destruct (existsb _ l).
    + now rewrite get_delete_ne.
  - rewrite andb_false_r. simpl. apply IH.
Qed.

(** What the clean-up leaves under a key: the entry, unless its age is
    strictly above its duration. *)
Lemma sweep_get t k c :
  JsMap.wf c ->
  JsMap.get k (fst (sweep t c))
  = match JsMap.get k c with
    | Some e => if expired_for_sweep t e then None else Some e
    | None => None
    end.
Proof.
  intros Hwf. unfold sweep, JsMap.entries. rewrite sweep_fold_get.
  destruct (existsb _ c) eqn:Hex.
  - apply existsb_exists in Hex as [[k' v] [Hin Hp]]. simpl in Hp.
    apply andb_true_iff in Hp as [Hk Hexp]. apply String.eqb_eq in Hk. subst k'.
    rewrite (In_get _ _ _ Hwf Hin). now rewrite Hexp.
  - destruct (JsMap.get k c) as [e|] eqn:Hget; [|reflexivity].
    destruct (expired_for_sweep t e) eqn:Hexp; [|reflexivity].
    exfalso. apply get_In in Hget.
    assert (existsb (fun kv => String.eqb (fst kv) k && expired_for_sweep t (snd kv)) c = true).
    { apply existsb_exists. exists (k, e). simpl. now rewrite String.eqb_refl, Hexp. }
    congruence.
Qed.

(** C7 (where the code departs from it): an entry whose age equals its
    duration, which the lookup treats as expired, survives the clean-up. *)
Theorem sweep_keeps_entry_of_age_ttl t k e c :
  JsMap.wf c ->
  JsMap.get k c = Some e ->
  t - timestamp e = duration e ->
  JsMap.get k (fst (sweep t c)) = Some e.
Proof.
  intros Hwf Hget Hage. rewrite sweep_get, Hget by assumption.
  unfold expired_for_sweep. rewrite Hage.
  now rewrite Z.ltb_irrefl.
Qed.

Lemma sweep_keeps_entry_of_age_ttl_witness :
  JsMap.get "k" (fst (sweep 1000 [("k", sample_entry 0 1000)]))
  = Some (sample_entry 0 1000).
Proof.
  apply sweep_keeps_entry_of_age_ttl.
  - unfold JsMap.wf. simpl. apply NoDup_singleton.
  - reflexivity.
  - reflexivity.
Defined.

(** At that entry, the lookup and the clean-up disagree. *)
Example sweep_and_lookup_disagree :
  let w := set_cache [("k", sample_entry 0 1000)] (initial_world 0) in
  sweep 1000 (cache w) = (cache w, 0%nat)
  /\ cache_lookup 1000 "k" w = (set_cache [] w, None).
Proof. split; reflexivity. Qed.

(** ** The snapshot to disk *)

Section SaveFacts.
Variable env : Env.

Lemma save_items_app_failure before key value after d :
  Forall (fun kv => write_fails env (cacheFilePath (fst kv)) = false) before ->
  write_fails env (cacheFilePath key) = true ->
  save_items env (before ++ (key, value) :: after) d
  = (write_all before d, false).
Proof.
  intros Hok Hfail. revert d.
  induction Hok as [|[k v] before Hk Hok IH]; intros d; simpl.
  - unfold writeFileSync. now rewrite Hfail.
  - unfold writeFileSync. simpl in Hk. rewrite Hk. apply IH.
Qed.

(** C8 (where the code departs from it): when the write of one entry
    throws, the snapshot holds the index and the entries before it in the
    map, and none of the entries after it is written. *)
Theorem save_stops_at_failed_write w before key value after :
  cache w = (before ++ (key, value) :: after)%list ->
  write_fails env (join CACHE_DIR "cache-index.json") = false ->
  Forall (fun kv => write_fails env (cacheFilePath (fst kv)) = false) before ->
  write_fails env (cacheFilePath key) = true ->
  disk (saveCacheToDisk env w)
  = write_all before
      (<[join CACHE_DIR "cache-index.json" := IndexFile (JsMap.keys (cache w))]>
         (disk w)).
Proof.
  intros Hc Hidx Hok Hfail. unfold saveCacheToDisk, writeFileSync.
  rewrite Hidx. unfold JsMap.entries.
  pose proof (save_items_app_failure before key value after) as Hsave.
  rewrite <- Hc in Hsave. now rewrite Hsave.
Qed.
End SaveFacts.

Lemma save_stops_at_failed_write_witness :
  disk (saveCacheToDisk flat_dir_env two_entries)
  = write_all []
      (<[join CACHE_DIR "cache-index.json" := IndexFile ["anime_21?"; "anime_5"]]> ∅).
Proof.
  apply (save_stops_at_failed_write flat_dir_env two_entries []
           "anime_21?" (sample_entry 0 1000) [("anime_5", sample_entry 0 1000)]).
  - reflexivity.
  - reflexivity.
  - constructor.
  - reflexivity.
Defined.

Example second_entry_never_written :
  base64 "anime_21?" = "YW5pbWVfMjE/"
  /\ disk (saveCacheToDisk flat_dir_env two_entries) !! cacheFilePath "anime_5" = None
  /\ disk (saveCacheToDisk calm_env two_entries) !! cacheFilePath "anime_5"
     = Some (ItemFile (sample_entry 0 1000)).
Proof. vm_compute. auto. Qed.

(** ** The response envelope *)

Section EnvelopeFacts.
Variable env : Env.

Lemma enhancedData_payload endpoint t jikanData name v :
  own_properties jikanData !! name = Some v ->
  enhancedData env endpoint t jikanData !! name = Some v.
Proof. intros H. unfold enhancedData. now apply lookup_union_Some_l. Qed.

Lemma enhancedData_cached endpoint t jikanData :
  own_properties jikanData !! "cached" = None ->
  enhancedData env endpoint t jikanData !! "cached"
  = Some (JBool (cached_flag endpoint)).
Proof.
  intros H. unfold enhancedData. rewrite lookup_union_r by assumption.
  rewrite lookup_insert_ne by discriminate.
  now rewrite lookup_insert_eq.
Qed.

Lemma resolve_sends req endpoint handler jikanData w ctx :
  responses (resolve (request_task env req endpoint handler) jikanData w ctx)
  = (responses w ++
     [(conn req,
       {| status := 200;
          body := JObj (enhancedData env endpoint (now ctx) jikanData) |})])%list.
Proof. reflexivity. Qed.

(** C9, as amended: the successful response to an endpoint other than
    [random] and [stats] says [cached: true] whatever the state of the
    cache, hit or miss, unless the payload has a property [cached] of its
    own. *)
Theorem cached_field_follows_endpoint req endpoint handler jikanData w ctx :
  endpoint <> "random" ->
  endpoint <> "stats" ->
  own_properties jikanData !! "cached" = None ->
  exists fields,
    last (responses (resolve (request_task env req endpoint handler)
                       jikanData w ctx))
    = Some (conn req, {| status := 200; body := JObj fields |})
    /\ fields !! "cached" = Some (JBool true).
Proof.
  intros Hr Hs Hown. eexists. split.
  - rewrite resolve_sends. apply last_snoc.
  - rewrite enhancedData_cached by assumption. unfold cached_flag.
    apply String.eqb_neq in Hr, Hs. now rewrite Hr, Hs.
Qed.

(** C10: a field of the payload named [source], [cached], [timestamp] or
    [endpoint] is the field of that name in the response. *)
Theorem payload_field_replaces_metadata req endpoint handler m name v w ctx :
  In name ["source"; "cached"; "timestamp"; "endpoint"] ->
  m !! name = Some v ->
  exists fields,
    last (responses (resolve (request_task env req endpoint handler)
                       (JObj m) w ctx))
    = Some (conn req, {| status := 200; body := JObj fields |})
    /\ fields !! name = Some v.
Proof.
  intros _ Hm. eexists. split.
  - rewrite resolve_sends. apply last_snoc.
  - now apply enhancedData_payload.
Qed.
End EnvelopeFacts.

(** ** Cache keys *)

Lemma read_form_token c rest : read_token (form_token c +:+ rest) = Some (c, rest).
Proof.
  destruct c as [[] [] [] [] [] [] [] []]; reflexivity.
Qed.

Lemma form_token_no_separator c :
  occurs "=" (form_token c) = false /\ occurs "&" (form_token c) = false.
Proof.
  destruct c as [[] [] [] [] [] [] [] []]; split; reflexivity.
Qed.

Lemma append_nil_l (b : string) : EmptyString +:+ b = b.
Proof. reflexivity. Qed.

Lemma append_cons c (a b : string) : String c a +:+ b = String c (a +:+ b).
Proof. reflexivity. Qed.

(** [simpl] leaves [+:+] alone; these equations unfold it on a literal. *)
Ltac unfold_append := rewrite ?append_cons, ?append_nil_l in *.

Lemma app_assoc_string (a b c : string) : (a +:+ b) +:+ c = a +:+ (b +:+ c).
Proof. induction a; unfold_append; congruence. Qed.

Lemma app_nil_string (a : string) : a +:+ EmptyString = a.
Proof. induction a; unfold_append; congruence. Qed.

Lemma occurs_app c a b : occurs c (a +:+ b) = occurs c a || occurs c b.
Proof.
  induction a as [|x a IH]; unfold_append; simpl; [reflexivity|].
  rewrite IH. now rewrite orb_assoc.
Qed.

Lemma form_encode_no_separator s :
  occurs "=" (form_encode s) = false /\ occurs "&" (form_encode s) = false.
Proof.
  induction s as [|c s [IH1 IH2]]; simpl; [auto|].
  rewrite !occurs_app, IH1, IH2.
  destruct (form_token_no_separator c) as [-> ->]. auto.
Qed.

Lemma form_encode_inj s1 s2 : form_encode s1 = form_encode s2 -> s1 = s2.
Proof.
  revert s2. induction s1 as [|c1 s1 IH]; intros [|c2 s2]; simpl; intros H.
  - reflexivity.
  - apply (f_equal read_token) in H. now rewrite read_form_token in H.
  - apply (f_equal read_token) in H. now rewrite read_form_token in H.
  - apply (f_equal read_token) in H. rewrite !read_form_token in H.
    inversion H; subst. f_equal. now apply IH.
Qed.

(** A string is cut in one way only at the first occurrence of a byte. *)
Lemma cut_unique c a1 a2 r1 r2 :
  occurs c a1 = false -> occurs c a2 = false ->
  a1 +:+ String c r1 = a2 +:+ String c r2 -> a1 = a2 /\ r1 = r2.
Proof.
  revert a2. induction a1 as [|x a1 IH]; intros [|y a2]; simpl; intros H1 H2 H;
    unfold_append.
  - inversion H. auto.
  - inversion H; subst. rewrite Ascii.eqb_refl in H2. discriminate.
  - inversion H; subst. rewrite Ascii.eqb_refl in H1. discriminate.
  - injection H as Hxy Hrest. subst y.
    apply orb_false_iff in H1 as [_ H1]. apply orb_false_iff in H2 as [_ H2].
    destruct (IH a2 H1 H2 Hrest) as [-> ->]. auto.
Qed.

Lemma query_toString_cons k v q :
  query_toString ((k, v) :: q)
  = form_encode k +:+ "=" +:+ form_encode v
    +:+ match q with [] => EmptyString | _ => "&" +:+ query_toString q end.
Proof.
  destruct q as [|[k' v'] q]; simpl.
  - now rewrite app_nil_string.
  - reflexivity.
Qed.

(** [toString] keeps the pairs and their order. *)
Lemma query_toString_inj q1 q2 :
  query_toString q1 = query_toString q2 -> q1 = q2.
Proof.
  revert q2. induction q1 as [|[k1 v1] q1 IH]; intros [|[k2 v2] q2] H.
  - reflexivity.
  - rewrite query_toString_cons in H. simpl in H.
    apply (f_equal (occurs "=")) in H. rewrite !occurs_app in H. simpl in H.
    rewrite orb_true_r in H. discriminate.
  - rewrite query_toString_cons in H. simpl in H.
    apply (f_equal (occurs "=")) in H. rewrite !occurs_app in H. simpl in H.
    rewrite orb_true_r in H. discriminate.
  - rewrite !query_toString_cons in H. unfold_append.
    apply cut_unique in H as [Hk H];
      try apply form_encode_no_separator.
    apply form_encode_inj in Hk. subst k2.
    destruct q1 as [|p1 q1], q2 as [|p2 q2].
    + rewrite !app_nil_string in H. apply form_encode_inj in H. now subst.
    + exfalso. apply (f_equal (occurs "&")) in H.
      rewrite app_nil_string, occurs_app in H. simpl in H.
      destruct (form_encode_no_separator v1) as [_ Hv]. rewrite Hv in H.
      rewrite orb_true_r in H. discriminate.
    + exfalso. apply (f_equal (occurs "&")) in H.
      rewrite app_nil_string, occurs_app in H. simpl in H.
      destruct (form_encode_no_separator v2) as [_ Hv]. rewrite Hv in H.
      rewrite orb_true_r in H. discriminate.
    + unfold_append. apply cut_unique in H as [Hv H];
        try apply form_encode_no_separator.
      apply form_encode_inj in Hv. subst v2.
      f_equal. apply IH. exact H.
Qed.

(** For two requests to [anime] (or to [manga]) that agree on their first
    [id], or both have none that is non-empty, the cache keys are the same
    exactly when that id is there, or the parameters are the same pairs in
    the same order. *)
Lemma same_key_of_anime_and_manga (p1 p2 : URLSearchParams) :
  truthy (params_get "id" p1) = truthy (params_get "id" p2) ->
  (cacheKey_of (handlers.anime p1) = cacheKey_of (handlers.anime p2)
   <-> truthy (params_get "id" p1) <> None \/ p1 = p2)
  /\ (cacheKey_of (handlers.manga p1) = cacheKey_of (handlers.manga p2)
      <-> truthy (params_get "id" p1) <> None \/ p1 = p2).
Proof.
  intros Hid. unfold handlers.anime, handlers.manga. rewrite <- Hid.
  destruct (truthy (params_get "id" p1)) as [id|]; simpl.
  - split; split; auto; intros _; left; discriminate.
  - split; split; intros H.
    + right. unfold_append. inversion H as [Hq]. now apply query_toString_inj.
    + destruct H as [H|H]; [congruence|now subst].
    + right. unfold_append. inversion H as [Hq]. now apply query_toString_inj.
    + destruct H as [H|H]; [congruence|now subst].
Qed.

(** An id lookup ignores the other parameters and their order. *)
Example id_lookup_ignores_order :
  cacheKey_of (handlers.anime [("id", "5"); ("x", "1")])
  = cacheKey_of (handlers.anime [("x", "1"); ("id", "5")]).
Proof. reflexivity. Qed.

(** C2 as stated fails: the two orders of [q=naruto] and [page=1] give two
    keys, and the second request misses the cache as the first did. *)
Lemma reordered_search_has_other_key :
  let p1 := [("q", "naruto"); ("page", "1")] in
  let p2 := [("page", "1"); ("q", "naruto")] in
  p1 ≡ₚ p2
  /\ cacheKey_of (handlers.anime p1) = Some "anime_search_q=naruto&page=1"
  /\ cacheKey_of (handlers.anime p2) = Some "anime_search_page=1&q=naruto"
  /\ cacheKey_of (handlers.anime p1) <> cacheKey_of (handlers.anime p2)
  /\ let final :=
       drain (serve calm_env
                [Receive (get_request 1 "anime" p1); Wait 5000;
                 Receive (get_request 2 "anime" p2)] (boot 0 ∅)) in
     cacheHits (stats (world final)) = 0%nat
     /\ cacheMisses (stats (world final)) = 2%nat.
Proof.
  cbv zeta. split; [apply Permutation_swap|].
  split; [reflexivity|]. split; [reflexivity|].
  split; [discriminate|]. vm_compute. auto.
Qed.

(** ** The request queue *)

Section DispatcherFacts.
Context {W V E : Type}.
Implicit Types (st : Loop W V E) (tr : list (Event V E))
  (rs : list (Running W V E)) (r : Running W V E)
  (batch : list (nat * Task W V E)) (task : Task W V E).

(** *** Readings of a trace that grows *)

Lemma started_app tr tr' : started (tr ++ tr') = (started tr ++ started tr')%list.
Proof. unfold started. now rewrite List.filter_app, map_app. Qed.

Lemma start_time_app tid tr tr' :
  start_time tid (tr ++ tr') = (start_time tid tr ++ start_time tid tr')%list.
Proof. unfold start_time. now rewrite List.filter_app, map_app. Qed.

Lemma settlements_app tid tr tr' :
  settlements tid (tr ++ tr')
  = (settlements tid tr ++ settlements tid tr')%list.
Proof. unfold settlements. now rewrite List.filter_app, omap_app. Qed.

Lemma started_in_app a tr tr' :
  started_in a (tr ++ tr') = (started_in a tr ++ started_in a tr')%list.
Proof. unfold started_in. now rewrite List.filter_app, map_app. Qed.

Lemma started_batch t batch : started (batch_events t batch) = map fst batch.
Proof.
  unfold started, batch_events. induction batch as [|[i x] b IH]; simpl; congruence.
Qed.

Lemma settlements_batch tid t batch : settlements tid (batch_events t batch) = [].
Proof.
  unfold settlements, batch_events. induction batch as [|[i x] b IH]; simpl; auto.
Qed.

Lemma started_in_batch_le a t batch :
  (length (started_in a (batch_events t batch)) <= length batch)%nat.
Proof.
  unfold started_in, batch_events. rewrite length_map.
  etransitivity; [apply List.filter_length_le|]. now rewrite length_map.
Qed.

Lemma started_in_nil_before a tr :
  (forall ev, In ev tr -> is_start ev = true -> event_time ev < a) ->
  started_in a tr = [].
Proof.
  intros H. unfold started_in. induction tr as [|ev tr IH]; simpl; [reflexivity|].
  destruct (is_start ev) eqn:Hs; simpl.
  - assert (event_time ev < a) as Hlt by (apply H; simpl; auto).
    apply Z.leb_gt in Hlt. rewrite Hlt. simpl. apply IH.
    intros; apply H; simpl; auto.
  - apply IH. intros; apply H; simpl; auto.
Qed.

Lemma started_in_nil_after a tr :
  (forall ev, In ev tr -> is_start ev = true -> a + COOLDOWN <= event_time ev) ->
  started_in a tr = [].
Proof.
  intros H. unfold started_in. induction tr as [|ev tr IH]; simpl; [reflexivity|].
  destruct (is_start ev) eqn:Hs; simpl.
  - assert (a + COOLDOWN <= event_time ev) as Hge by (apply H; simpl; auto).
    apply Z.ltb_ge in Hge. rewrite Hge, andb_false_r. apply IH.
    intros; apply H; simpl; auto.
  - apply IH. intros; apply H; simpl; auto.
Qed.

Lemma in_batch_events ev t batch :
  In ev (batch_events t batch) ->
  ev = Started (event_task ev) t /\ In (event_task ev) (map fst batch).
Proof.
  unfold batch_events. rewrite in_map_iff. intros [[i x] [<- Hin]]. simpl.
  split; [reflexivity|]. apply in_map_iff. now exists (i, x).
Qed.

(** *** The promise that settles first *)

Lemma earliest_None rs : earliest rs = None <-> rs = [].
Proof.
  destruct rs as [|r rs]; simpl; [tauto|].
  destruct (earliest rs) as [[m o]|]; [destruct (due r <=? due m)|];
    split; discriminate.
Qed.

Lemma earliest_Some rs r others :
  earliest rs = Some (r, others) ->
  (forall x, In x rs <-> x = r \/ In x others)
  /\ (forall tid, count_running tid rs
                  = ((if (tid_of r =? tid)%nat then 1 else 0)
                     + count_running tid others)%nat)
  /\ Forall (fun x => due r <= due x) rs
  /\ length rs = S (length others).
Proof.
  revert r others. induction rs as [|x rs IH]; intros r others H; simpl in H.
  - discriminate.
  - destruct (earliest rs) as [[m o]|] eqn:He.
    + destruct (IH m o eq_refl) as (Hin & Hcount & Hdue & Hlen).
      destruct (due x <=? due m) eqn:Hle; inversion H; subst; clear H.
      * apply Z.leb_le in Hle. split; [|split; [|split]].
        -- intros y. simpl. intuition congruence.
        -- intros tid. unfold count_running. simpl.
           destruct (tid_of r =? tid)%nat; reflexivity.
        -- constructor; [lia|]. eapply Forall_impl; [exact Hdue|].
           simpl. intros; lia.
        -- reflexivity.
      * apply Z.leb_gt in Hle. split; [|split; [|split]].
        -- intros y. simpl. rewrite Hin. intuition congruence.
        -- intros tid. unfold count_running in *. simpl.
           specialize (Hcount tid).
           destruct (tid_of x =? tid)%nat; simpl; rewrite Hcount; lia.
        -- constructor; [lia|exact Hdue].
        -- simpl. now rewrite Hlen.
    + apply earliest_None in He. subst rs. inversion H; subst.
      split; [|split; [|split]].
      * intros y. simpl. intuition congruence.
      * intros tid. unfold count_running. simpl.
        destruct (tid_of r =? tid)%nat; reflexivity.
      * constructor; [lia|constructor].
      * reflexivity.
Qed.

(** *** What one call does to the fields of the loop *)

Lemma start_task_fields st tid task :
  let st1 := start_task st (tid, task) in
  clock st1 = clock st /\ requestQueue st1 = requestQueue st
  /\ processingQueue st1 = processingQueue st /\ timer st1 = timer st
  /\ submitted st1 = submitted st
  /\ trace st1 = (trace st ++ [Started tid (clock st)])%list
  /\ exists r, running st1 = (running st ++ [r])%list
               /\ runs (clock st) r (tid, task).
Proof.
  unfold start_task.
  destruct (fn task (world st) (ctx_of st)) as [w' p] eqn:Hfn.
  simpl. repeat (split; [reflexivity|]).
  eexists. split; [reflexivity|]. unfold runs.
  destruct p as [o|latency k]; simpl.
  - repeat split; try lia. intros w ctx.
    exists (world st), (ctx_of st). now rewrite Hfn.
  - repeat split; try lia. intros w ctx.
    exists (world st), (ctx_of st). rewrite Hfn. simpl. eauto.
Qed.

Lemma start_batch_fields batch : forall st,
  let st' := fold_left start_task batch st in
  clock st' = clock st /\ requestQueue st' = requestQueue st
  /\ processingQueue st' = processingQueue st /\ timer st' = timer st
  /\ submitted st' = submitted st
  /\ trace st' = (trace st ++ batch_events (clock st) batch)%list
  /\ exists rs, running st' = (running st ++ rs)%list
                /\ Forall2 (runs (clock st)) rs batch.
Proof.
  induction batch as [|[tid task] batch IH]; intros st; cbv zeta.
  - simpl. repeat (split; [reflexivity|]). split; [now rewrite app_nil_r|].
    exists []. split; [now rewrite app_nil_r|constructor].
  - change (fold_left start_task ((tid, task) :: batch) st)
      with (fold_left start_task batch (start_task st (tid, task))).
    change (batch_events (clock st) ((tid, task) :: batch))
      with (Started tid (clock st) :: batch_events (clock st) batch).
    destruct (start_task_fields st tid task)
      as (Hc & Hq & Hp & Ht & Hs & Htr & r & Hr & Hruns).
    destruct (IH (start_task st (tid, task)))
      as (Hc' & Hq' & Hp' & Ht' & Hs' & Htr' & rs & Hrs & Hall).
    rewrite Hc', Hq', Hp', Ht', Hs', Htr', Hrs, Hc, Hq, Hp, Ht, Hs, Htr, Hr.
    repeat (split; [reflexivity|]). split.
    + now rewrite <- app_assoc.
    + exists (r :: rs). split; [now rewrite <- app_assoc|].
      constructor; [exact Hruns|]. now rewrite Hc in Hall.
Qed.

Lemma processQueue_skip st :
  processingQueue st = true \/ requestQueue st = [] -> processQueue st = st.
Proof.
  intros [H|H]; unfold processQueue; rewrite H; simpl; [reflexivity|].
  now rewrite orb_true_r.
Qed.

Lemma processQueue_fields st :
  processingQueue st = false -> requestQueue st <> [] ->
  let batch := firstn MAX_REQUESTS_PER_SECOND (requestQueue st) in
  let st' := processQueue st in
  clock st' = clock st
  /\ requestQueue st' = skipn MAX_REQUESTS_PER_SECOND (requestQueue st)
  /\ processingQueue st' = true /\ timer st' = timer st
  /\ submitted st' = submitted st
  /\ trace st' = (trace st ++ batch_events (clock st) batch)%list
  /\ exists rs, running st' = (running st ++ rs)%list
                /\ Forall2 (runs (clock st)) rs batch.
Proof.
  intros Hp Hq. unfold processQueue. rewrite Hp.
  destruct (requestQueue st) as [|item q] eqn:Hqueue; [congruence|].
  cbn [length Nat.eqb orb].
  match goal with
  | |- context [fold_left start_task ?b ?s] =>
      destruct (start_batch_fields b s)
        as (Hc' & Hq' & Hp' & Ht' & Hs' & Htr' & rs & Hrs & Hall)
  end.
  simpl in Hc', Hq', Hp', Ht', Hs', Htr', Hrs, Hall.
  cbv zeta. repeat split; try assumption. exists rs. split; assumption.
Qed.

(** *** Numbers *)

Lemma count_running_app tid rs rs' :
  count_running tid (rs ++ rs')
  = (count_running tid rs + count_running tid rs')%nat.
Proof. unfold count_running. now rewrite List.filter_app, length_app. Qed.

Lemma count_running_seq tid rs n k :
  map tid_of rs = seq n k ->
  count_running tid rs
  = if ((n <=? tid) && (tid <? n + k))%nat then 1%nat else 0%nat.
Proof.
  revert n k. induction rs as [|r rs IH]; intros n [|k] H; simpl in H;
    try discriminate.
  - rewrite Nat.add_0_r.
    destruct (n <=? tid)%nat eqn:H1, (tid <? n)%nat eqn:H2; try reflexivity.
    apply Nat.leb_le in H1. apply Nat.ltb_lt in H2. lia.
  - injection H as Hr Hrs. unfold count_running in *. simpl.
    rewrite Hr. specialize (IH _ _ Hrs).
    destruct (n =? tid)%nat eqn:Hn; simpl; rewrite IH.
    + apply Nat.eqb_eq in Hn. subst tid.
      replace (S n <=? n)%nat with false by (symmetry; apply Nat.leb_gt; lia).
      replace (n <=? n)%nat with true by (symmetry; apply Nat.leb_le; lia).
      replace (n <? n + S k)%nat with true by (symmetry; apply Nat.ltb_lt; lia).
      reflexivity.
    + apply Nat.eqb_neq in Hn.
      destruct (S n <=? tid)%nat eqn:H1, (tid <? S n + k)%nat eqn:H2;
        destruct (n <=? tid)%nat eqn:H3, (tid <? n + S k)%nat eqn:H4;
        try reflexivity;
        repeat match goal with
               | H : (_ <=? _)%nat = true |- _ => apply Nat.leb_le in H
               | H : (_ <=? _)%nat = false |- _ => apply Nat.leb_gt in H
               | H : (_ <? _)%nat = true |- _ => apply Nat.ltb_lt in H
               | H : (_ <? _)%nat = false |- _ => apply Nat.ltb_ge in H
               end; lia.
Qed.

Lemma runs_tids t rs batch :
  Forall2 (runs t) rs batch -> map tid_of rs = map fst batch.
Proof.
  induction 1 as [|r item rs batch (Hr & _) _ IH]; simpl; congruence.
Qed.

(** A start event is the only one of its task. *)
Lemma start_unique tr ev1 ev2 :
  NoDup (started tr) ->
  In ev1 tr -> In ev2 tr ->
  is_start ev1 = true -> is_start ev2 = true ->
  event_task ev1 = event_task ev2 -> ev1 = ev2.
Proof.
  unfold started. induction tr as [|ev tr IH]; simpl; [tauto|].
  intros Hnd H1 H2 Hs1 Hs2 Heq.
  assert (forall x, In x tr -> is_start x = true ->
                    event_task x ∈ map event_task (List.filter is_start tr)) as Hmem.
  { intros x Hx Hsx. apply list_elem_of_In, in_map, filter_In. auto. }
  destruct (is_start ev) eqn:Hs; simpl in Hnd.
  - apply NoDup_cons in Hnd as [Hnot Hnd].
    destruct H1 as [->|H1], H2 as [->|H2]; auto.
    + exfalso. apply Hnot. rewrite Heq. now apply Hmem.
    + exfalso. apply Hnot. rewrite <- Heq. now apply Hmem.
  - destruct H1 as [->|H1]; [congruence|].
    destruct H2 as [->|H2]; [congruence|]. auto.
Qed.

(** *** [processQueue] establishes the invariant *)

Lemma batch_numbers st :
  Numbered st ->
  let n := length (started (trace st)) in
  let batch := firstn MAX_REQUESTS_PER_SECOND (requestQueue st) in
  map fst batch = seq n (length batch)
  /\ map fst (skipn MAX_REQUESTS_PER_SECOND (requestQueue st))
     = seq (n + length batch)
         (length (skipn MAX_REQUESTS_PER_SECOND (requestQueue st)))
  /\ (length batch <= MAX_REQUESTS_PER_SECOND)%nat.
Proof.
  intros Hnb n batch. pose proof (nb_queue _ Hnb) as Hq. fold n in Hq.
  pose proof (firstn_skipn MAX_REQUESTS_PER_SECOND (requestQueue st)) as Hsplit.
  fold batch in Hsplit.
  set (rest := skipn MAX_REQUESTS_PER_SECOND (requestQueue st)) in *.
  rewrite <- Hsplit in Hq. rewrite map_app, length_app, seq_app in Hq.
  apply app_inj_1 in Hq as [H1 H2]; [|now rewrite length_map, length_seq].
  repeat split; try assumption. apply firstn_le_length.
Qed.

Lemma processQueue_Shape st :
  Shape st -> Numbered st ->
  processingQueue st = false -> requestQueue st <> [] ->
  Shape (processQueue st).
Proof.
  intros Hsh Hnb Hp Hq.
  destruct (processQueue_fields st Hp Hq)
    as (Hc & Hq' & Hp' & Ht & Hs & Htr & rs & Hrs & Hall).
  destruct (sh_idle _ Hsh Hp) as [Hrun Htimer].
  rewrite Hrun in Hrs. simpl in Hrs.
  assert (length rs = length (firstn MAX_REQUESTS_PER_SECOND (requestQueue st)))
    as Hlen by (eapply Forall2_length; eassumption).
  assert (rs <> []) as Hne.
  { intros ->. destruct (requestQueue st); [congruence|discriminate]. }
  constructor; rewrite ?Hc, ?Hp', ?Ht, ?Hrs.
  - intros _. exact Htimer.
  - intros _. now left.
  - discriminate.
  - clear -Hall. induction Hall as [|r item rs b (_ & _ & Hd & _) _ IH];
      constructor; auto.
  - rewrite Htimer. discriminate.
  - rewrite Hlen. apply firstn_le_length.
Qed.

Lemma processQueue_Numbered st :
  Numbered st ->
  processingQueue st = false -> requestQueue st <> [] ->
  Numbered (processQueue st).
Proof.
  intros Hnb Hp Hq.
  destruct (processQueue_fields st Hp Hq)
    as (Hc & Hq' & Hp' & Ht & Hs & Htr & rs & Hrs & Hall).
  destruct (batch_numbers st Hnb) as (Hb & Hrest & Hk).
  set (n := length (started (trace st))) in *.
  set (batch := firstn MAX_REQUESTS_PER_SECOND (requestQueue st)) in *.
  assert (started (trace (processQueue st)) = seq 0 (n + length batch)) as Hst.
  { rewrite Htr, started_app, started_batch, Hb, (nb_started _ Hnb).
    fold n. now rewrite <- seq_app. }
  assert (length (started (trace (processQueue st))) = (n + length batch)%nat)
    as Hlen by (now rewrite Hst, length_seq).
  constructor; rewrite ?Hlen.
  - rewrite Hq'. exact Hrest.
  - rewrite Hs, Hq', (nb_submitted _ Hnb). fold n.
    pose proof (firstn_skipn MAX_REQUESTS_PER_SECOND (requestQueue st)) as Hsplit.
    apply (f_equal (@length _)) in Hsplit. rewrite length_app in Hsplit.
    fold batch in Hsplit. lia.
  - exact Hst.
  - intros tid. rewrite Htr, settlements_app, settlements_batch, app_nil_r.
    rewrite Hrs, count_running_app.
    rewrite (count_running_seq tid rs n (length batch))
      by (rewrite (runs_tids _ _ _ Hall); exact Hb).
    pose proof (nb_once _ Hnb tid) as Honce. fold n in Honce.
    destruct (tid <? n)%nat eqn:H1, (n <=? tid)%nat eqn:H2,
             (tid <? n + length batch)%nat eqn:H3; simpl;
      repeat match goal with
             | H : (_ <=? _)%nat = true |- _ => apply Nat.leb_le in H
             | H : (_ <=? _)%nat = false |- _ => apply Nat.leb_gt in H
             | H : (_ <? _)%nat = true |- _ => apply Nat.ltb_lt in H
             | H : (_ <? _)%nat = false |- _ => apply Nat.ltb_ge in H
             end; lia.
  - intros ev. rewrite Htr, in_app_iff. intros [Hin|Hin].
    + pose proof (nb_events _ Hnb ev Hin). fold n in H. lia.
    + apply in_batch_events in Hin as [_ Hin]. rewrite Hb in Hin.
      apply in_seq in Hin. lia.
Qed.

Lemma batch_event_facts t batch ev n k :
  map fst batch = seq n k ->
  In ev (batch_events t batch) ->
  event_time ev = t /\ is_start ev = true
  /\ (n <= event_task ev < n + k)%nat.
Proof.
  intros Hb Hin. apply in_batch_events in Hin as [Hev Hin].
  rewrite Hb in Hin. apply in_seq in Hin.
  rewrite Hev. simpl. auto.
Qed.

Lemma processQueue_Paced st :
  Shape st -> Numbered st -> Paced st ->
  processingQueue st = false -> requestQueue st <> [] ->
  Paced (processQueue st).
Proof.
  intros Hsh Hnb Hpc Hp Hq.
  destruct (processQueue_fields st Hp Hq)
    as (Hc & Hq' & Hp' & Ht & Hs & Htr & rs & Hrs & Hall).
  destruct (batch_numbers st Hnb) as (Hb & _ & Hk).
  destruct (sh_idle _ Hsh Hp) as [Hrun Htimer].
  set (n := length (started (trace st))) in *.
  set (batch := firstn MAX_REQUESTS_PER_SECOND (requestQueue st)) in *.
  pose proof (pc_idle _ Hpc Hp) as Hold.
  pose proof (nb_events _ Hnb) as Holdn. fold n in Holdn.
  pose proof (batch_event_facts (clock st) batch) as Hnew.
  specialize (fun ev => Hnew ev _ _ Hb).
  unfold COOLDOWN in *. unfold MAX_REQUESTS_PER_SECOND in Hk.
  constructor; rewrite ?Hc, ?Hp', ?Ht, ?Htr.
  - intros ev [Hin|Hin]%in_app_iff.
    + specialize (Hold ev Hin). lia.
    + destruct (Hnew ev Hin) as (-> & _). lia.
  - discriminate.
  - rewrite Htimer. discriminate.
  - intros a. rewrite started_in_app, length_app.
    destruct (Z_le_gt_dec (a + 1000) (clock st)) as [Hle|Hgt].
    + rewrite (started_in_nil_after a (batch_events (clock st) batch)).
      * simpl. rewrite Nat.add_0_r. apply (pc_window _ Hpc).
      * intros ev Hin _. destruct (Hnew ev Hin) as (-> & _).
        unfold COOLDOWN. lia.
    + rewrite (started_in_nil_before a (trace st)).
      * simpl. etransitivity; [apply started_in_batch_le|].
        unfold MAX_REQUESTS_PER_SECOND. exact Hk.
      * intros ev Hin _. specialize (Hold ev Hin). lia.
  - intros ev1 ev2 [H1|H1]%in_app_iff [H2|H2]%in_app_iff Hs1 Hs2 Hfar.
    + apply (pc_far _ Hpc); assumption.
    + destruct (Hnew ev2 H2) as (-> & _). apply Hold, H1.
    + destruct (Hnew ev1 H1) as (_ & _ & Hr1).
      specialize (Holdn ev2 H2). unfold MAX_REQUESTS_PER_SECOND in Hfar. lia.
    + destruct (Hnew ev1 H1) as (_ & _ & Hr1).
      destruct (Hnew ev2 H2) as (_ & _ & Hr2).
      unfold MAX_REQUESTS_PER_SECOND in Hfar. lia.
  - intros r. rewrite Hrs, Hrun. simpl. intros Hin.
    exists (clock st). split.
    + apply in_app_iff. right.
      apply list_elem_of_In, list_elem_of_lookup in Hin as [i Hi].
      destruct (Forall2_lookup_l _ _ _ _ _ Hall Hi) as (item & Hitem & Hr & _).
      unfold batch_events. apply in_map_iff. exists item.
      rewrite Hr. split; [reflexivity|].
      apply list_elem_of_In, list_elem_of_lookup. eauto.
    + intros ev [Hev|Hev]%in_app_iff _.
      * specialize (Hold ev Hev). lia.
      * destruct (Hnew ev Hev) as (-> & _). lia.
  - intros ev ev1 ev2 Hev H1 H2 Hs1 Hs2 Htask Hlt.
    assert (In ev1 (trace st)) as H1old.
    { apply in_app_iff in H1 as [H1|H1]; [exact H1|].
      destruct (Hnew ev1 H1) as (Ht1 & _).
      apply in_app_iff in H2 as [H2|H2].
      - specialize (Hold ev2 H2). lia.
      - destruct (Hnew ev2 H2) as (Ht2 & _). lia. }
    assert (In ev (trace st)) as Hevold.
    { apply in_app_iff in Hev as [Hev|Hev]; [exact Hev|].
      destruct (Hnew ev Hev) as (_ & _ & Hr).
      specialize (Holdn ev1 H1old). lia. }
    apply in_app_iff in H2 as [H2|H2].
    + apply (pc_later _ Hpc ev ev1 ev2); assumption.
    + destruct (Hnew ev2 H2) as (-> & _). apply Hold, Hevold.
Qed.

Lemma processQueue_Inv st : Ready st -> Inv (processQueue st).
Proof.
  intros (Hsh & Hnb & Hpc).
  destruct (processingQueue st) eqn:Hp.
  - rewrite processQueue_skip by auto.
    split; [exact (conj Hsh (conj Hnb Hpc))|]. congruence.
  - destruct (requestQueue st) as [|item q] eqn:Hq.
    + rewrite processQueue_skip by auto.
      split; [exact (conj Hsh (conj Hnb Hpc))|]. auto.
    + assert (requestQueue st <> []) as Hne by (rewrite Hq; discriminate).
      split.
      * split; [now apply processQueue_Shape|].
        split; [now apply processQueue_Numbered|].
        now apply processQueue_Paced.
      * destruct (processQueue_fields st Hp Hne) as (_ & _ & Hp' & _).
        congruence.
Qed.

(** *** [enqueueRequest] keeps the invariant *)

Lemma enqueueRequest_Inv task st : Inv st -> Inv (enqueueRequest task st).
Proof.
  intros [(Hsh & Hnb & Hpc) Hidle]. unfold enqueueRequest.
  apply processQueue_Inv. split; [|split].
  - destruct Hsh. constructor; simpl; auto.
  - destruct Hnb as [Hq Hs Hst Honce Hev]. constructor; simpl; auto.
    + rewrite map_app, length_app, Hq. simpl.
      rewrite seq_app. simpl. now rewrite Hs.
    + rewrite length_app. simpl. lia.
  - destruct Hpc. constructor; simpl; auto.
Qed.

(** *** A promise settles *)

Lemma settle_fields r others st :
  let st' := settle r others st in
  clock st' = due r /\ requestQueue st' = requestQueue st
  /\ processingQueue st' = processingQueue st /\ running st' = others
  /\ timer st' = match others with
                 | [] => Some (due r + COOLDOWN)
                 | _ => timer st
                 end
  /\ submitted st' = submitted st
  /\ exists ev o, trace st' = (trace st ++ [ev])%list
                  /\ is_start ev = false /\ event_task ev = tid_of r
                  /\ event_time ev = due r /\ settlement ev = Some o
                  /\ exists w ctx, o = snd (resume r w ctx).
Proof.
  unfold settle.
  destruct (resume r (world st) _) as [w1 o] eqn:Hres.
  destruct o as [v|e]; simpl; repeat (split; [reflexivity|]).
  - exists (Resolved (tid_of r) v (due r)), (inl v).
    repeat (split; [reflexivity|]). do 2 eexists. now rewrite Hres.
  - exists (Rejected (tid_of r) e (due r)), (inr e).
    repeat (split; [reflexivity|]). do 2 eexists. now rewrite Hres.
Qed.

Lemma started_snoc tr ev :
  is_start ev = false -> started (tr ++ [ev]) = started tr.
Proof.
  intros H. rewrite started_app. unfold started at 2. simpl.
  rewrite H. simpl. apply app_nil_r.
Qed.

Lemma started_in_snoc a tr ev :
  is_start ev = false -> started_in a (tr ++ [ev]) = started_in a tr.
Proof.
  intros H. rewrite started_in_app. unfold started_in at 2. simpl.
  rewrite H. simpl. apply app_nil_r.
Qed.

Lemma settlements_snoc tid tr ev o :
  is_start ev = false -> settlement ev = Some o ->
  length (settlements tid (tr ++ [ev]))
  = (length (settlements tid tr)
     + if (event_task ev =? tid)%nat then 1 else 0)%nat.
Proof.
  intros H Ho. rewrite settlements_app, length_app. f_equal.
  unfold settlements. simpl. rewrite H. simpl.
  destruct (event_task ev =? tid)%nat; simpl; [now rewrite Ho|reflexivity].
Qed.

Lemma settle_Inv r others st :
  Inv st -> earliest (running st) = Some (r, others) ->
  Inv (settle r others st).
Proof.
  intros [(Hsh & Hnb & Hpc) Hidle] He.
  destruct (earliest_Some _ _ _ He) as (Hin & Hcount & Hdue & Hlen).
  destruct (settle_fields r others st)
    as (Hc & Hq & Hp & Hrun & Ht & Hs & ev & o & Htr & Hns & Htask & Htime
        & Hset & _).
  assert (running st <> []) as Hne.
  { intros Hnil. rewrite Hnil in Hlen. discriminate. }
  assert (processingQueue st = true) as Hbusy.
  { destruct (processingQueue st) eqn:Hpq; [reflexivity|].
    destruct (sh_idle _ Hsh Hpq). contradiction. }
  assert (In r (running st)) as Hr by (apply Hin; auto).
  assert (clock st <= due r) as Hclock.
  { pose proof (sh_due _ Hsh) as Hd. rewrite Forall_forall in Hd.
    apply Hd. now apply list_elem_of_In. }
  assert (forall e', In e' (trace st) -> event_time e' <= due r) as Hpast.
  { intros e' He'. pose proof (pc_past _ Hpc e' He'). lia. }
  split; [split; [|split]|].
  - constructor; rewrite ?Hc, ?Hp, ?Hrun, ?Ht.
    + destruct others; [congruence|]. intros _. now apply (sh_excl _ Hsh).
    + intros _. destruct others; [right; discriminate|left; discriminate].
    + congruence.
    + rewrite Forall_forall in Hdue |- *. intros x Hx. apply Hdue.
      apply list_elem_of_In. apply Hin. right. now apply list_elem_of_In.
    + destruct others; [intros t [= <-]; unfold COOLDOWN; lia|].
      rewrite (sh_excl _ Hsh Hne). discriminate.
    + pose proof (sh_batch _ Hsh). lia.
  - constructor; rewrite ?Hq, ?Hs, ?Hrun, ?Htr, ?started_snoc by assumption.
    + apply (nb_queue _ Hnb).
    + apply (nb_submitted _ Hnb).
    + apply (nb_started _ Hnb).
    + intros tid. rewrite (settlements_snoc tid _ ev o) by assumption.
      pose proof (nb_once _ Hnb tid) as Honce. rewrite Hcount in Honce.
      rewrite Htask. lia.
    + intros e' [He'|[<-|[]]]%in_app_iff; [now apply (nb_events _ Hnb)|].
      rewrite Htask. pose proof (nb_once _ Hnb (tid_of r)) as Honce.
      rewrite Hcount, Nat.eqb_refl in Honce.
      destruct (tid_of r <? _)%nat eqn:Hlt; [now apply Nat.ltb_lt|lia].
  - constructor; rewrite ?Hc, ?Hp, ?Hrun, ?Ht, ?Htr.
    + intros e' [He'|[<-|[]]]%in_app_iff; [auto|lia].
    + congruence.
    + destruct others.
      * intros t [= <-] e' [He'|[<-|[]]]%in_app_iff.
        -- specialize (Hpast e' He'). lia.
        -- lia.
      * rewrite (sh_excl _ Hsh Hne). discriminate.
    + intros a. rewrite started_in_snoc by assumption. apply (pc_window _ Hpc).
    + intros ev1 ev2 [H1|[<-|[]]]%in_app_iff [H2|[<-|[]]]%in_app_iff Hs1 Hs2;
        try congruence.
      now apply (pc_far _ Hpc).
    + intros x Hx.
      destruct (pc_latest _ Hpc x) as (s & Hs1 & Hs2).
      { apply Hin. now right. }
      exists s. split; [apply in_app_iff; now left|].
      intros e' [He'|[<-|[]]]%in_app_iff Hse'; [auto|congruence].
    + intros e0 ev1 ev2 H0 [H1|[<-|[]]]%in_app_iff [H2|[<-|[]]]%in_app_iff
        Hs1 Hs2 Htk Hlt; try congruence.
      apply in_app_iff in H0 as [H0|[<-|[]]].
      * now apply (pc_later _ Hpc e0 ev1 ev2).
      * exfalso.
        destruct (pc_latest _ Hpc r Hr) as (s & Hs1' & Hs2').
        assert (ev1 = Started (tid_of r) s) as ->.
        { apply (start_unique (trace st)); auto.
          - rewrite (nb_started _ Hnb). apply NoDup_seq.
          - simpl. congruence. }
        specialize (Hs2' ev2 H2 Hs2). simpl in Hlt. lia.
  - rewrite Hp, Hq. exact Hidle.
Qed.

(** *** The timer fires *)

Lemma wake_Inv t st :
  Inv st -> running st = [] -> timer st = Some t -> Inv (wake t st).
Proof.
  intros [(Hsh & Hnb & Hpc) Hidle] Hrun Ht. unfold wake.
  apply processQueue_Inv. split; [|split].
  - constructor; simpl; rewrite ?Hrun.
    + congruence.
    + discriminate.
    + auto.
    + constructor.
    + discriminate.
    + simpl. lia.
  - destruct Hnb. constructor; simpl; auto.
  - pose proof (sh_timer _ Hsh t Ht) as Hle.
    constructor; simpl; try discriminate.
    + intros ev Hev. pose proof (pc_past _ Hpc ev Hev). lia.
    + intros _. apply (pc_cool _ Hpc t Ht).
    + apply (pc_window _ Hpc).
    + apply (pc_far _ Hpc).
    + rewrite Hrun. intros r [].
    + apply (pc_later _ Hpc).
Qed.

Lemma step_Inv st : Inv st -> Inv (step st).
Proof.
  intros Hinv. unfold step.
  destruct (earliest (running st)) as [[r others]|] eqn:He.
  - now apply settle_Inv.
  - destruct (timer st) as [t|] eqn:Ht; [|exact Hinv].
    apply wake_Inv; auto. now apply earliest_None.
Qed.

(** *** The loop runs out of work *)

Lemma processQueue_work st : work (processQueue st) = work st.
Proof.
  destruct (processingQueue st) eqn:Hp.
  { now rewrite processQueue_skip by auto. }
  destruct (requestQueue st) as [|item q] eqn:Hq.
  { now rewrite processQueue_skip by auto. }
  assert (requestQueue st <> []) as Hne by (rewrite Hq; discriminate).
  destruct (processQueue_fields st Hp Hne)
    as (_ & Hq' & _ & Ht & _ & _ & rs & Hrs & Hall).
  unfold work. rewrite Hq', Ht, Hrs, length_app.
  apply Forall2_length in Hall. rewrite Hall.
  pose proof (firstn_skipn MAX_REQUESTS_PER_SECOND (requestQueue st)) as Hsplit.
  apply (f_equal (@length _)) in Hsplit. rewrite length_app in Hsplit. lia.
Qed.

Lemma step_work st d :
  next_due st = Some d -> (work (step st) < work st)%nat.
Proof.
  unfold next_due, step.
  destruct (earliest (running st)) as [[r others]|] eqn:He.
  - intros _. destruct (earliest_Some _ _ _ He) as (_ & _ & _ & Hlen).
    destruct (settle_fields r others st) as (_ & Hq & _ & Hrun & Ht & _).
    unfold work. rewrite Hq, Hrun, Ht, Hlen.
    destruct others; simpl; destruct (timer st); lia.
  - intros Ht. rewrite Ht. unfold wake. rewrite processQueue_work.
    unfold work. simpl. rewrite Ht. lia.
Qed.

Lemma step_clock st d :
  Inv st -> next_due st = Some d -> clock st <= d /\ clock (step st) = d.
Proof.
  intros [(Hsh & _ & _) _]. unfold next_due, step.
  destruct (earliest (running st)) as [[r others]|] eqn:He.
  - intros [= <-]. destruct (earliest_Some _ _ _ He) as (Hin & _).
    destruct (settle_fields r others st) as (Hc & _). split; [|exact Hc].
    pose proof (sh_due _ Hsh) as Hd. rewrite Forall_forall in Hd.
    apply Hd, list_elem_of_In, Hin. now left.
  - intros Ht. rewrite Ht. split; [now apply (sh_timer _ Hsh)|].
    unfold wake.
    match goal with |- clock (processQueue ?s) = _ => set (st0 := s) end.
    destruct (processingQueue st0 || (length (requestQueue st0) =? 0)%nat) eqn:Hg.
    + unfold processQueue. now rewrite Hg.
    + apply orb_false_iff in Hg as [Hp Hq].
      assert (requestQueue st0 <> []) as Hne.
      { intros Hnil. rewrite Hnil in Hq. discriminate. }
      now destruct (processQueue_fields st0 Hp Hne) as (-> & _).
Qed.

Lemma advance_spec fuel : forall limit st,
  Inv st -> (work st <= fuel)%nat ->
  (forall l, limit = Some l -> clock st <= l) ->
  let st' := advance fuel limit st in
  Inv st'
  /\ (forall l, limit = Some l -> clock st' <= l)
  /\ clock st <= clock st'
  /\ (forall d, next_due st' = Some d -> within limit d = false).
Proof.
  induction fuel as [|fuel IH]; intros limit st Hinv Hfuel Hclock; cbv zeta.
  - simpl. split; [exact Hinv|]. split; [exact Hclock|]. split; [lia|].
    intros d Hd. exfalso.
    pose proof (step_work st d Hd). lia.
  - simpl. destruct (next_due st) as [d|] eqn:Hd.
    + destruct (within limit d) eqn:Hw.
      * destruct (step_clock st d Hinv Hd) as [Hle Hc].
        destruct (IH limit (step st)) as (H1 & H2 & H3 & H4).
        -- now apply step_Inv.
        -- pose proof (step_work st d Hd). lia.
        -- intros l ->. rewrite Hc. simpl in Hw. lia.
        -- split; [exact H1|]. split; [exact H2|]. split; [lia|exact H4].
      * split; [exact Hinv|]. split; [exact Hclock|]. split; [lia|].
        intros d' Hd'. congruence.
    + split; [exact Hinv|]. split; [exact Hclock|]. split; [lia|].
      intros d' Hd'. congruence.
Qed.

(** *** Time passes *)

Lemma next_due_bound st l :
  Inv st -> (forall d, next_due st = Some d -> l < d) ->
  Forall (fun r => l <= due r) (running st)
  /\ forall t, timer st = Some t -> l <= t.
Proof.
  intros [(Hsh & _ & _) _] Hnext. unfold next_due in Hnext.
  destruct (earliest (running st)) as [[r others]|] eqn:He.
  - destruct (earliest_Some _ _ _ He) as (_ & _ & Hdue & Hlen).
    specialize (Hnext _ eq_refl). split.
    + eapply Forall_impl; [exact Hdue|]. simpl. intros; lia.
    + rewrite (sh_excl _ Hsh); [discriminate|].
      intros Hnil. rewrite Hnil in Hlen. discriminate.
  - apply earliest_None in He. rewrite He. split; [constructor|].
    intros t Ht. specialize (Hnext t Ht). lia.
Qed.

Lemma set_clock_Inv l st :
  Inv st -> clock st <= l ->
  (forall d, next_due st = Some d -> l < d) ->
  Inv (set_clock l st).
Proof.
  intros Hinv Hle Hnext.
  destruct (next_due_bound st l Hinv Hnext) as [Hdue Htimer].
  destruct Hinv as [(Hsh & Hnb & Hpc) Hidle].
  split; [split; [|split]|]; [| |  |exact Hidle].
  - destruct Hsh. constructor; simpl; auto.
  - destruct Hnb. constructor; simpl; auto.
  - constructor; simpl.
    + intros ev Hev. pose proof (pc_past _ Hpc ev Hev). lia.
    + intros Hp ev Hev. pose proof (pc_idle _ Hpc Hp ev Hev). lia.
    + apply (pc_cool _ Hpc).
    + apply (pc_window _ Hpc).
    + apply (pc_far _ Hpc).
    + apply (pc_latest _ Hpc).
    + apply (pc_later _ Hpc).
Qed.

Lemma elapse_Inv dt st : Inv st -> Inv (elapse dt st).
Proof.
  intros Hinv. unfold elapse.
  destruct (advance_spec (work st) (Some (clock st + Z.of_nat dt)) st)
    as (H1 & H2 & H3 & H4); auto.
  { intros l [= <-]. lia. }
  apply set_clock_Inv; auto.
  intros d Hd. specialize (H4 d Hd). simpl in H4. lia.
Qed.

Lemma act_Inv f st : Inv st -> Inv (act f st).
Proof.
  intros [(Hsh & Hnb & Hpc) Hidle].
  split; [split; [|split]|]; [| | |exact Hidle].
  - destruct Hsh. constructor; simpl; auto.
  - destruct Hnb. constructor; simpl; auto.
  - destruct Hpc. constructor; simpl; auto.
Qed.

Lemma initial_Inv (w : W) t0 : Inv (initial_loop (V := V) (E := E) w t0).
Proof.
  split; [split; [|split]|]; [| | |reflexivity].
  - constructor; simpl.
    + congruence.
    + discriminate.
    + auto.
    + constructor.
    + discriminate.
    + lia.
  - constructor; simpl; auto. intros ev [].
  - constructor; simpl; intros; try contradiction; try discriminate.
    unfold MAX_REQUESTS_PER_SECOND. lia.
Qed.

Lemma react_Inv st i : Inv st -> Inv (react st i).
Proof.
  destruct i; simpl; intros H.
  - now apply elapse_Inv.
  - now apply enqueueRequest_Inv.
  - now apply act_Inv.
Qed.

Lemma run_Inv inputs : forall st, Inv st -> Inv (run inputs st).
Proof.
  unfold run. induction inputs as [|i inputs IH]; intros st H; simpl; auto.
  apply IH. now apply react_Inv.
Qed.

(** After [drain] nothing runs, no timer is set and the queue is empty. *)
Lemma drain_spec st :
  Inv st ->
  Inv (drain st)
  /\ running (drain st) = [] /\ timer (drain st) = None
  /\ requestQueue (drain st) = [] /\ processingQueue (drain st) = false.
Proof.
  intros Hinv. unfold drain.
  destruct (advance_spec (work st) None st) as (H1 & _ & _ & H4); auto.
  { discriminate. }
  set (st' := advance (work st) None st) in *.
  assert (next_due st' = None) as Hnone.
  { destruct (next_due st') as [d|] eqn:Hd; [|reflexivity].
    specialize (H4 d eq_refl). discriminate. }
  unfold next_due in Hnone.
  destruct (earliest (running st')) as [[r others]|] eqn:He; [discriminate|].
  apply earliest_None in He.
  destruct H1 as [(Hsh & Hnb & Hpc) Hidle].
  assert (processingQueue st' = false) as Hp.
  { destruct (processingQueue st') eqn:Hp; [|reflexivity].
    destruct (sh_busy _ Hsh Hp); congruence. }
  split; [exact (conj (conj Hsh (conj Hnb Hpc)) Hidle)|].
  split; [exact He|]. split; [exact Hnone|]. split; [now apply Hidle|exact Hp].
Qed.

(** *** Promises settle with what their task gave *)

Section Outcomes.
Variable spec : nat -> option (Task W V E).

Lemma processQueue_Faithful st :
  Faithful spec st -> Faithful spec (processQueue st).
Proof.
  intros Hfa.
  destruct (processingQueue st) eqn:Hp.
  { now rewrite processQueue_skip by auto. }
  destruct (requestQueue st) as [|item q] eqn:Hq.
  { now rewrite processQueue_skip by auto. }
  assert (requestQueue st <> []) as Hne by (rewrite Hq; discriminate).
  destruct (processQueue_fields st Hp Hne)
    as (_ & Hq' & _ & _ & _ & Htr & rs & Hrs & Hall).
  destruct Hfa as [Hfq Hfr Hft].
  constructor; rewrite ?Hq', ?Hrs, ?Htr.
  - intros tid task Hin. apply Hfq.
    rewrite <- (firstn_skipn MAX_REQUESTS_PER_SECOND (requestQueue st)).
    apply in_app_iff. now right.
  - intros r [Hr|Hr]%in_app_iff; [now apply Hfr|].
    apply list_elem_of_In, list_elem_of_lookup in Hr as [i Hi].
    destruct (Forall2_lookup_l _ _ _ _ _ Hall Hi)
      as ([tid task] & Hitem & Htid & Htask & _ & Hdel).
    simpl in Htid, Htask. split; [|exact Hdel].
    rewrite Htid, Htask. apply Hfq.
    rewrite <- (firstn_skipn MAX_REQUESTS_PER_SECOND (requestQueue st)).
    apply in_app_iff. left.
    apply list_elem_of_In, list_elem_of_lookup. eauto.
  - intros ev o [Hev|Hev]%in_app_iff Ho; [now apply Hft|].
    apply in_batch_events in Hev as [Hev _]. rewrite Hev in Ho. discriminate.
Qed.

Lemma enqueueRequest_Faithful task st :
  Faithful spec st -> spec (submitted st) = Some task ->
  Faithful spec (enqueueRequest task st).
Proof.
  intros [Hfq Hfr Hft] Hspec. unfold enqueueRequest.
  apply processQueue_Faithful. constructor; simpl; auto.
  intros tid task' [Hin|[[= <- <-]|[]]]%in_app_iff; auto.
Qed.

Lemma settle_Faithful r others st :
  Faithful spec st -> earliest (running st) = Some (r, others) ->
  Faithful spec (settle r others st).
Proof.
  intros [Hfq Hfr Hft] He.
  destruct (earliest_Some _ _ _ He) as (Hin & _).
  destruct (settle_fields r others st)
    as (_ & Hq & _ & Hrun & _ & _ & ev & o & Htr & _ & Htask & _ & Hset
        & w & ctx & Ho).
  constructor; rewrite ?Hq, ?Hrun, ?Htr.
  - exact Hfq.
  - intros x Hx. apply Hfr, Hin. now right.
  - intros e' o' [He'|[<-|[]]]%in_app_iff Ho'; [now apply Hft|].
    destruct (Hfr r) as [Hspec Hdel]; [apply Hin; now left|].
    exists (task_of r). rewrite Htask. split; [exact Hspec|].
    rewrite Hset in Ho'. injection Ho' as <-. rewrite Ho. apply Hdel.
Qed.

Lemma step_Faithful st : Faithful spec st -> Faithful spec (step st).
Proof.
  intros Hfa. unfold step.
  destruct (earliest (running st)) as [[r others]|] eqn:He.
  - now apply settle_Faithful.
  - destruct (timer st) as [t|]; [|exact Hfa].
    unfold wake. apply processQueue_Faithful.
    destruct Hfa. constructor; simpl; auto.
Qed.

Lemma advance_Faithful fuel limit : forall st,
  Faithful spec st -> Faithful spec (advance fuel limit st).
Proof.
  induction fuel as [|fuel IH]; intros st Hfa; simpl; [exact Hfa|].
  destruct (next_due st); [|exact Hfa].
  destruct (within limit z); [|exact Hfa].
  apply IH. now apply step_Faithful.
Qed.

Lemma elapse_Faithful dt st : Faithful spec st -> Faithful spec (elapse dt st).
Proof.
  intros Hfa. unfold elapse.
  pose proof (advance_Faithful (work st)
                (Some (clock st + Z.of_nat dt)) st Hfa) as [].
  constructor; simpl; auto.
Qed.

Lemma act_Faithful f st : Faithful spec st -> Faithful spec (act f st).
Proof. intros []. constructor; simpl; auto. Qed.
End Outcomes.

(** *** The number of submissions *)

Lemma processQueue_submitted st : submitted (processQueue st) = submitted st.
Proof.
  destruct (processingQueue st) eqn:Hp.
  { now rewrite processQueue_skip by auto. }
  destruct (requestQueue st) as [|item q] eqn:Hq.
  { now rewrite processQueue_skip by auto. }
  assert (requestQueue st <> []) as Hne by (rewrite Hq; discriminate).
  now destruct (processQueue_fields st Hp Hne) as (_ & _ & _ & _ & -> & _).
Qed.

Lemma enqueueRequest_submitted task st :
  submitted (enqueueRequest task st) = S (submitted st).
Proof. unfold enqueueRequest. now rewrite processQueue_submitted. Qed.

Lemma step_submitted st : submitted (step st) = submitted st.
Proof.
  unfold step. destruct (earliest (running st)) as [[r others]|].
  - now destruct (settle_fields r others st) as (_ & _ & _ & _ & _ & -> & _).
  - destruct (timer st); [|reflexivity].
    unfold wake. now rewrite processQueue_submitted.
Qed.

Lemma advance_submitted fuel limit : forall st,
  submitted (advance fuel limit st) = submitted st.
Proof.
  induction fuel as [|fuel IH]; intros st; simpl; [reflexivity|].
  destruct (next_due st); [|reflexivity].
  destruct (within limit z); [|reflexivity].
  now rewrite IH, step_submitted.
Qed.

Lemma react_submitted st i :
  submitted (react st i)
  = (submitted st + length (enqueued [i]))%nat.
Proof.
  destruct i; simpl.
  - unfold elapse. simpl. rewrite advance_submitted. lia.
  - rewrite enqueueRequest_submitted. lia.
  - lia.
Qed.

Lemma enqueued_app (i1 i2 : list (Input W V E)) :
  enqueued (i1 ++ i2) = (enqueued i1 ++ enqueued i2)%list.
Proof. apply omap_app. Qed.

Lemma run_Faithful inputs : forall done st,
  Faithful (submission (done ++ inputs)) st ->
  submitted st = length (enqueued done) ->
  Faithful (submission (done ++ inputs)) (run inputs st)
  /\ submitted (run inputs st) = length (enqueued (done ++ inputs)).
Proof.
  induction inputs as [|i inputs IH]; intros done st Hfa Hsub.
  - simpl. rewrite app_nil_r in *. auto.
  - change (run (i :: inputs) st) with (run inputs (react st i)).
    replace (done ++ i :: inputs)%list with ((done ++ [i]) ++ inputs)%list in *
      by (now rewrite <- app_assoc).
    apply IH.
    + destruct i as [dt|task|f]; simpl.
      * now apply elapse_Faithful.
      * apply enqueueRequest_Faithful; [exact Hfa|].
        unfold submission. rewrite !enqueued_app. simpl.
        rewrite <- app_assoc. rewrite lookup_app_r by lia.
        rewrite Hsub, Nat.sub_diag. reflexivity.
      * now apply act_Faithful.
    + rewrite react_submitted, enqueued_app, length_app. lia.
Qed.

Lemma initial_Faithful spec (w : W) t0 :
  Faithful spec (initial_loop (V := V) (E := E) w t0).
Proof. constructor; simpl; intros; contradiction. Qed.

(** *** The two properties of the queue *)

Lemma count_seq tid n k :
  length (List.filter (fun i => (i =? tid)%nat) (seq n k))
  = if ((n <=? tid) && (tid <? n + k))%nat then 1%nat else 0%nat.
Proof.
  revert n. induction k as [|k IH]; intros n; simpl.
  - destruct (n <=? tid)%nat eqn:H1, (tid <? n + 0)%nat eqn:H2; try reflexivity.
    apply Nat.leb_le in H1. apply Nat.ltb_lt in H2. lia.
  - destruct (n =? tid)%nat eqn:Hn; simpl; rewrite IH.
    + apply Nat.eqb_eq in Hn. subst tid.
      replace (S n <=? n)%nat with false by (symmetry; apply Nat.leb_gt; lia).
      replace (n <=? n)%nat with true by (symmetry; apply Nat.leb_le; lia).
      replace (n <? n + S k)%nat with true by (symmetry; apply Nat.ltb_lt; lia).
      reflexivity.
    + apply Nat.eqb_neq in Hn.
      destruct (S n <=? tid)%nat eqn:H1, (tid <? S n + k)%nat eqn:H2;
        destruct (n <=? tid)%nat eqn:H3, (tid <? n + S k)%nat eqn:H4;
        try reflexivity;
        repeat match goal with
               | H : (_ <=? _)%nat = true |- _ => apply Nat.leb_le in H
               | H : (_ <=? _)%nat = false |- _ => apply Nat.leb_gt in H
               | H : (_ <? _)%nat = true |- _ => apply Nat.ltb_lt in H
               | H : (_ <? _)%nat = false |- _ => apply Nat.ltb_ge in H
               end; lia.
Qed.

Lemma start_time_count tid tr :
  length (start_time tid tr)
  = length (List.filter (fun i => (i =? tid)%nat) (started tr)).
Proof.
  unfold start_time, started. rewrite length_map.
  induction tr as [|ev tr IH]; simpl; [reflexivity|].
  destruct (is_start ev); simpl; [|exact IH].
  destruct (event_task ev =? tid)%nat; simpl; now rewrite IH.
Qed.

Lemma settlements_In tid tr o :
  In o (settlements tid tr) ->
  exists ev, In ev tr /\ settlement ev = Some o /\ event_task ev = tid.
Proof.
  unfold settlements. intros Hin.
  apply list_elem_of_In, list_elem_of_omap in Hin as (ev & Hev & Ho).
  apply list_elem_of_In, filter_In in Hev as [Hev Hp].
  apply andb_true_iff in Hp as [_ Htid]. apply Nat.eqb_eq in Htid.
  eauto.
Qed.

(** C3: in every run of the queue, no window of one second sees more than
    [MAX_REQUESTS_PER_SECOND] tasks start; and the task submitted fifth
    starts a full second or more after the first task started, and after
    every task that started with the first has settled. *)
Theorem at_most_four_starts_per_window
    (inputs : list (Input W V E)) (w : W) (t0 : Z) :
  let during := trace (run inputs (initial_loop w t0)) in
  let after := trace (drain (run inputs (initial_loop w t0))) in
  window_bound during /\ first_cooldown_respected during
  /\ window_bound after /\ first_cooldown_respected after.
Proof.
  assert (forall st : Loop W V E,
             Inv st ->
             window_bound (trace st) /\ first_cooldown_respected (trace st))
    as Hpaced.
  { intros st [(_ & _ & Hpc) _]. split; [exact (pc_window _ Hpc)|].
    intros t1 t5 H1 H5.
    assert (t1 + COOLDOWN <= t5) as Hgap.
    { apply (pc_far _ Hpc (Started 0 t1) (Started MAX_REQUESTS_PER_SECOND t5));
        auto. }
    split; [exact Hgap|]. intros ev Hev Hsame.
    apply (pc_later _ Hpc ev (Started (event_task ev) t1)
             (Started MAX_REQUESTS_PER_SECOND t5)); auto.
    simpl. unfold COOLDOWN in Hgap. lia. }
  pose proof (run_Inv inputs _ (initial_Inv w t0)) as Hrun.
  destruct (Hpaced _ Hrun) as [H1 H2].
  destruct (Hpaced _ (proj1 (drain_spec _ Hrun))) as [H3 H4].
  cbv zeta. auto.
Qed.

(** Once the loop has run out of work, the trace holds one start and one
    settlement for every task submitted, the settlement being an outcome
    of the function of the task. *)
Lemma trace_settles_once
    (inputs : list (Input W V E)) (w : W) (t0 : Z) :
  let final := drain (run inputs (initial_loop w t0)) in
  submitted final = length (enqueued inputs)
  /\ requestQueue final = [] /\ running final = []
  /\ forall tid task,
       submission inputs tid = Some task ->
       length (start_time tid (trace final)) = 1%nat
       /\ exists o, settlements tid (trace final) = [o] /\ delivers task o.
Proof.
  intros final.
  destruct (run_Faithful inputs [] (initial_loop w t0)) as [Hfa Hsub].
  { apply initial_Faithful. }
  { reflexivity. }
  simpl in Hfa, Hsub.
  pose proof (run_Inv inputs _ (initial_Inv w t0)) as Hrun.
  destruct (drain_spec _ Hrun) as ([(Hsh & Hnb & Hpc) _] & Hr & Ht & Hq & Hp).
  fold final in Hsh, Hnb, Hpc, Hr, Ht, Hq, Hp.
  assert (submitted final = length (enqueued inputs)) as Hsubmitted.
  { unfold final, drain. now rewrite advance_submitted. }
  assert (Faithful (submission inputs) final) as Hfinal.
  { unfold final, drain. now apply advance_Faithful. }
  split; [exact Hsubmitted|]. split; [exact Hq|]. split; [exact Hr|].
  intros tid task Htask.
  assert (tid < length (started (trace final)))%nat as Hlt.
  { pose proof (nb_submitted _ Hnb) as Hn. rewrite Hq in Hn. simpl in Hn.
    apply lookup_lt_Some in Htask. lia. }
  split.
  - rewrite start_time_count, (nb_started _ Hnb), count_seq. simpl.
    apply Nat.ltb_lt in Hlt. now rewrite Hlt.
  - pose proof (nb_once _ Hnb tid) as Honce. rewrite Hr in Honce.
    apply Nat.ltb_lt in Hlt. rewrite Hlt in Honce.
    unfold count_running in Honce. simpl in Honce.
    destruct (settlements tid (trace final)) as [|o [|o' l]] eqn:Hset;
      simpl in Honce; try lia.
    exists o. split; [reflexivity|].
    destruct (settlements_In tid (trace final) o) as (ev & Hev & Ho & Htid).
    { rewrite Hset. now left. }
    destruct (fa_trace _ _ Hfinal ev o Hev Ho) as (task' & Hspec & Hdel).
    rewrite Htid, Htask in Hspec. now injection Hspec as <-.
Qed.

(** A job has one outcome. *)
Lemma delivers_job latency (o o' : V + E) :
  delivers (W := W) (job latency o) o' -> o' = o.
Proof. intros (w & ctx & w' & ctx' & H). simpl in H. congruence. Qed.
End DispatcherFacts.

(** Six jobs submitted together: the first submission finds the queue idle
    and starts alone, the next four form the second batch, a cooldown after
    the first has settled. *)
Example six_jobs_schedule :
  List.filter is_start (trace (drain (run six_jobs (initial_loop tt 0))))
  = [ Started 0 0; Started 1 1100; Started 2 1100; Started 3 1100;
      Started 4 1100; Started 5 2200 ].
Proof. vm_compute. reflexivity. Qed.

(** The failure of the second job leaves the two others to resolve. *)
Example three_jobs_trace :
  trace (drain (run three_jobs (initial_loop tt 0)))
  = [ Started 0 0; Resolved 0 1%nat 100; Started 1 1100; Started 2 1100;
      Resolved 2 3%nat 1300; Rejected 1 "boom" 1400 ].
Proof. vm_compute. reflexivity. Qed.

(** ** The server *)

Section ServerFacts.
Variable env : Env.

(** A hit: [fetchWithCache] returns the cached payload at once and leaves
    the upstream alone. *)
Lemma fetchWithCache_hit url cacheKey ttl w ctx e :
  JsMap.get cacheKey (cache w) = Some e ->
  now ctx - timestamp e < duration e ->
  fetchWithCache env url cacheKey ttl w ctx
  = (set_stats (hit (stats w)) w, Settled (inl (data e))).
Proof.
  intros Hget Hlt. unfold fetchWithCache.
  now rewrite (cache_lookup_valid _ _ _ _ Hget Hlt).
Qed.

(** A miss: one upstream call is logged, and counted. *)
Lemma fetchWithCache_miss url cacheKey ttl w ctx :
  snd (cache_lookup (now ctx) cacheKey w) = None ->
  let w' := fst (fetchWithCache env url cacheKey ttl w ctx) in
  fetched w' = (fetched w ++ [(url, now ctx)])%list
  /\ cacheMisses (stats w') = S (cacheMisses (stats w))
  /\ cacheHits (stats w') = cacheHits (stats w).
Proof.
  unfold fetchWithCache, cache_lookup.
  destruct (JsMap.get cacheKey (cache w)) as [e|].
  - destruct (now ctx - timestamp e <? duration e); simpl; [discriminate|].
    intros _. destruct (upstream env _ url (now ctx)). simpl. auto.
  - intros _. simpl. destruct (upstream env _ url (now ctx)). simpl. auto.
Qed.

Lemma elapse_submitted {W V E} dt (st : Loop W V E) :
  submitted (elapse dt st) = submitted st.
Proof. unfold elapse. simpl. apply advance_submitted. Qed.

(** A request to an endpoint of the server is one more submission, and
    the task of such a request looks the cache up: on a hit it calls no
    upstream and settles, with no delay of its own, with the cached
    payload, and on a miss it calls upstream once. *)
Lemma request_counts_and_looks_up req endpoint rest handler st dt :
  String.eqb (method req) "OPTIONS" = false ->
  parts req = "api" :: endpoint :: rest ->
  handlers.lookup endpoint = Some handler ->
  submitted (fetch env req st) = S (submitted st)
  /\ submitted (fetch env req (elapse dt (fetch env req st)))
     = S (S (submitted st))
  /\ forall url cacheKey ttl w ctx,
       handler (searchParams req) = CallFetchWithCache url cacheKey ttl ->
       let task := fn (request_task env req endpoint
                         (fun params =>
                            performanceMiddleware endpoint
                              (perform env (handler params)))) in
       match snd (cache_lookup (now ctx) cacheKey w) with
       | Some payload =>
           fetched (fst (task w ctx)) = fetched w
           /\ cacheHits (stats (fst (task w ctx))) = S (cacheHits (stats w))
           /\ exists k, snd (task w ctx) = Suspended 0 k
                        /\ forall w' ctx', snd (k w' ctx') = inl payload
       | None =>
           fetched (fst (task w ctx)) = (fetched w ++ [(url, now ctx)])%list
           /\ cacheHits (stats (fst (task w ctx))) = cacheHits (stats w)
       end.
Proof.
  intros Hm Hparts Hh.
  assert (forall s : Loop World JSON string,
             submitted (fetch env req s) = S (submitted s)) as Hsub.
  { intros s. unfold fetch, route, handlersWithStats.
    rewrite Hm, Hparts, Hh. apply enqueueRequest_submitted. }
  split; [apply Hsub|]. split; [now rewrite Hsub, elapse_submitted, Hsub|].
  intros url cacheKey ttl w ctx Hcall task. subst task. simpl.
  rewrite Hcall. unfold performanceMiddleware, perform.
  set (w1 := set_stats (count_call endpoint (stats w)) w).
  assert (snd (cache_lookup (now ctx) cacheKey w1)
          = snd (cache_lookup (now ctx) cacheKey w)) as Hsame.
  { unfold cache_lookup. simpl.
    destruct (JsMap.get cacheKey (cache w)) as [e|]; [|reflexivity].
    now destruct (now ctx - timestamp e <? duration e). }
  destruct (snd (cache_lookup (now ctx) cacheKey w)) as [payload|] eqn:Hlook.
  - unfold cache_lookup in Hsame. simpl in Hsame.
    unfold fetchWithCache, cache_lookup. simpl.
    destruct (JsMap.get cacheKey (cache w)) as [e|]; [|discriminate].
    destruct (now ctx - timestamp e <? duration e); [|discriminate].
    simpl in *. injection Hsame as <-.
    split; [reflexivity|]. split; [reflexivity|].
    eexists. split; reflexivity.
  - destruct (fetchWithCache_miss url cacheKey ttl w1 ctx Hsame)
      as (Hf & _ & Hhits).
    destruct (fetchWithCache env url cacheKey ttl w1 ctx) as [w2 [o|lat k]];
      simpl in *; auto.
Qed.
End ServerFacts.

(** C1 as stated fails: of two requests for [anime?id=5] five milliseconds
    apart the second is a cache hit, and yet it is the second submission to
    the queue, where it waits for the cooldown of the first. *)
Lemma cache_hit_goes_through_queue :
  let final :=
    drain (serve calm_env
             [ Receive (get_request 1 "anime" [("id", "5")]); Wait 5;
               Receive (get_request 2 "anime" [("id", "5")]) ] (boot 0 ∅)) in
  cacheMisses (stats (world final)) = 1%nat
  /\ cacheHits (stats (world final)) = 1%nat
  /\ fetched (world final) = [("https://api.jikan.moe/v4/anime/5", 0)]
  /\ submitted final = 2%nat
  /\ start_time 1 (trace final) = [1120]
  /\ submitted final <> 1%nat.
Proof. vm_compute. repeat split; discriminate. Qed.

(** When the two requests start in one batch, both miss: each looks the
    cache up before the reply to the other is stored. *)
Example same_batch_misses_twice :
  let final :=
    drain (serve calm_env
             [ Receive (get_request 0 "genres" []);
               Receive (get_request 1 "anime" [("id", "5")]);
               Receive (get_request 2 "anime" [("id", "5")]) ] (boot 0 ∅)) in
  cacheMisses (stats (world final)) = 3%nat
  /\ cacheHits (stats (world final)) = 0%nat
  /\ map fst (fetched (world final))
     = [ "https://api.jikan.moe/v4/genres/anime";
         "https://api.jikan.moe/v4/anime/5";
         "https://api.jikan.moe/v4/anime/5" ].
Proof. vm_compute. auto. Qed.

(** The response to a miss says [cached: true] like the response to a
    hit. *)
Example miss_is_reported_as_cached :
  let final :=
    drain (serve calm_env [Receive (get_request 1 "anime" [("id", "5")])]
             (boot 0 ∅)) in
  cacheMisses (stats (world final)) = 1%nat
  /\ cacheHits (stats (world final)) = 0%nat
  /\ match responses (world final) with
     | [(1%nat, {| status := 200%nat; body := JObj fields |})] =>
         fields !! "cached"
     | _ => None
     end = Some (JBool true).
Proof. vm_compute. auto. Qed.

(** ** The envelope, on samples *)

(** C9 as stated fails: a payload with a field [cached] of its own decides
    what the response says, here [false] for the endpoint [anime]. *)
Lemma payload_decides_cached_field :
  let final :=
    drain (serve (replying (obj [("cached", JBool false)]))
             [Receive (get_request 1 "anime" [("id", "5")])] (boot 0 ∅)) in
  match responses (world final) with
  | [(1%nat, {| status := 200%nat; body := JObj fields |})] =>
      fields !! "cached"
  | _ => None
  end = Some (JBool false).
Proof. vm_compute. reflexivity. Qed.

Lemma cached_field_follows_endpoint_witness :
  exists fields,
    last (responses
            (resolve (request_task calm_env (get_request 1 "anime" [("id", "5")])
                        "anime" (fun _ => perform calm_env CallNone))
               (obj [("data", JNum 1)]) (initial_world 0) sample_ctx))
    = Some (1%nat, {| status := 200; body := JObj fields |})
    /\ fields !! "cached" = Some (JBool true).
Proof.
  apply (cached_field_follows_endpoint calm_env
           (get_request 1 "anime" [("id", "5")]) "anime").
  - discriminate.
  - discriminate.
  - reflexivity.
Defined.

Lemma payload_field_replaces_metadata_witness :
  exists fields,
    last (responses
            (resolve (request_task calm_env (get_request 1 "anime" [("id", "5")])
                        "anime" (fun _ => perform calm_env CallNone))
               (JObj {["source" := JStr "upstream"]}) (initial_world 0)
               sample_ctx))
    = Some (1%nat, {| status := 200; body := JObj fields |})
    /\ fields !! "source" = Some (JStr "upstream").
Proof.
  apply (payload_field_replaces_metadata calm_env
           (get_request 1 "anime" [("id", "5")]) "anime" _
           {["source" := JStr "upstream"]} "source" (JStr "upstream")).
  - simpl. auto.
  - reflexivity.
Defined.

(** The four fields of the envelope, each replaced by the payload's. *)
Example payload_replaces_all_four :
  let payload :=
    obj [ ("source", JNum 1); ("cached", JNum 2); ("timestamp", JNum 3);
          ("endpoint", JNum 4) ] in
  let fields := enhancedData calm_env "anime" 0 payload in
  fields !! "source" = Some (JNum 1) /\ fields !! "cached" = Some (JNum 2)
  /\ fields !! "timestamp" = Some (JNum 3)
  /\ fields !! "endpoint" = Some (JNum 4).
Proof. vm_compute. auto. Qed.

(** ** The server as a run of the queue *)

Lemma serve_as_run env inputs :
  forall st, serve env inputs st = run (map (to_input env) inputs) st.
Proof.
  induction inputs as [|i inputs IH]; intros st; [reflexivity|].
  simpl. rewrite IH. f_equal. now destruct i.
Qed.

(** The pace of the queue is the pace of the upstream calls of the server:
    every call is made by a task as it starts. *)
Corollary server_keeps_pace env inputs t0 d :
  window_bound (trace (serve env inputs (boot t0 d)))
  /\ first_cooldown_respected (trace (serve env inputs (boot t0 d))).
Proof.
  rewrite serve_as_run. unfold boot.
  assert (Inv (run (map (to_input env) inputs)
                 (initial_loop
                    {| cache := loadCacheFromDisk t0 d; stats := initial_stats t0;
                       disk := d; fetched := []; responses := [] |} t0)))
    as [(_ & _ & Hpc) _] by apply run_Inv, initial_Inv.
  split; [exact (pc_window _ Hpc)|].
  intros t1 t5 H1 H5.
  assert (t1 + COOLDOWN <= t5) as Hgap.
  { apply (pc_far _ Hpc (Started 0 t1) (Started MAX_REQUESTS_PER_SECOND t5));
      auto. }
  split; [exact Hgap|]. intros ev Hev Hsame.
  apply (pc_later _ Hpc ev (Started (event_task ev) t1)
           (Started MAX_REQUESTS_PER_SECOND t5)); auto.
  simpl. unfold COOLDOWN in Hgap. lia.
Qed.

(** The same through the server: after [anime?id=21?] and [anime?id=5] were
    answered and cached, a flush over a flat cache directory writes the
    index and stops at the first entry. *)
Example flush_after_odd_id :
  let final :=
    serve flat_dir_env
      [ Receive (get_request 1 "anime" [("id", "21?")]); Wait 2000;
        Receive (get_request 2 "anime" [("id", "5")]); Wait 2000; Flush ]
      (boot 0 ∅) in
  JsMap.keys (cache (world final)) = ["anime_21?"; "anime_5"]
  /\ disk (world final) !! join CACHE_DIR "cache-index.json"
     = Some (IndexFile ["anime_21?"; "anime_5"])
  /\ disk (world final) !! cacheFilePath "anime_21?" = None
  /\ disk (world final) !! cacheFilePath "anime_5" = None.
Proof. vm_compute. auto. Qed.

(** * Further properties *)

(** ** The clean-up as a filter *)

Lemma delete_as_filter {V} k (m : JsMap.t V) :
  JsMap.delete k m = List.filter (fun kv => negb (String.eqb k (fst kv))) m.
Proof.
  induction m as [|[k' v] m IH]; simpl; [reflexivity|].
  destruct (String.eqb k k'); simpl; congruence.
Qed.

Lemma filter_filter {A} (f g : A -> bool) l :
  List.filter f (List.filter g l) = List.filter (fun x => g x && f x) l.
Proof.
  induction l as [|x l IH]; simpl; [reflexivity|].
  destruct (g x); simpl; [destruct (f x)|]; simpl; congruence.
Qed.

Lemma filter_all {A} (f : A -> bool) l :
  (forall x, In x l -> f x = true) -> List.filter f l = l.
Proof.
  induction l as [|x l IH]; simpl; intros H; [reflexivity|].
  rewrite (H x) by auto. f_equal. apply IH. auto.
Qed.

Lemma sweep_fold t l : forall acc n,
  fold_left (sweep_entry t) l (acc, n)
  = (List.filter
       (fun kv =>
          negb (existsb (fun kv' => String.eqb (fst kv') (fst kv)
                                    && expired_for_sweep t (snd kv')) l)) acc,
     (n + length (List.filter (fun kv' => expired_for_sweep t (snd kv')) l))%nat).
Proof.
  induction l as [|[k v] l IH]; intros acc n.
  - simpl. rewrite filter_all by reflexivity. f_equal. lia.
  - cbn [fold_left]. unfold sweep_entry at 2. cbn [fst snd].
    change (duration v <? t - timestamp v) with (expired_for_sweep t v).
    cbn [existsb List.filter fst snd].
    destruct (expired_for_sweep t v) eqn:Hexp.
    + rewrite IH, delete_as_filter, filter_filter. f_equal; [|simpl; lia].
      apply filter_ext. intros [k' v']. simpl. rewrite andb_true_r.
      now rewrite negb_orb.
    + rewrite IH. f_equal. apply filter_ext. intros [k' v']. simpl.
      now rewrite andb_false_r.
Qed.

Lemma wf_tail {V} kv (m : JsMap.t V) : JsMap.wf (kv :: m) -> JsMap.wf m.
Proof. unfold JsMap.wf, JsMap.keys. simpl. intros H. now apply NoDup_cons in H. Qed.

Lemma wf_filter {V} (f : string * V -> bool) (m : JsMap.t V) :
  JsMap.wf m -> JsMap.wf (List.filter f m).
Proof.
  unfold JsMap.wf, JsMap.keys. induction m as [|kv m IH]; simpl; [auto|].
  intros [Hnot Hnd]%NoDup_cons. destruct (f kv); simpl; [|auto].
  apply NoDup_cons. split; [|auto].
  intros Hin. apply Hnot. apply list_elem_of_In in Hin. apply list_elem_of_In.
  apply in_map_iff in Hin as (x & Hx & Hin). apply filter_In in Hin as [Hin _].
  apply in_map_iff. eauto.
Qed.

Lemma sweep_as_filter t (c : JsMap.t CacheEntry) :
  JsMap.wf c ->
  sweep t c
  = (List.filter (fresh_for_sweep t) c,
     (length c - length (List.filter (fresh_for_sweep t) c))%nat).
Proof.
  intros Hwf. unfold sweep, JsMap.entries. rewrite sweep_fold. f_equal.
  - apply filter_ext_in. intros [k v] Hin. unfold fresh_for_sweep. simpl. f_equal.
    destruct (expired_for_sweep t v) eqn:Hexp.
    + apply existsb_exists. exists (k, v). simpl.
      now rewrite String.eqb_refl, Hexp.
    + destruct (existsb _ c) eqn:Hex; [|reflexivity].
      apply existsb_exists in Hex as [[k' v'] [Hin' Hp]]. simpl in Hp.
      apply andb_true_iff in Hp as [Hk Hexp']. apply String.eqb_eq in Hk. subst k'.
      pose proof (In_get _ _ _ Hwf Hin) as H1.
      pose proof (In_get _ _ _ Hwf Hin') as H2. congruence.
  - simpl. pose proof (List.filter_length (fresh_for_sweep t) c) as Hlen.
    assert (length (List.filter (fun kv' => expired_for_sweep t (snd kv')) c)
            = length (List.filter (fun x => negb (fresh_for_sweep t x)) c)) as ->.
    { f_equal. apply filter_ext. intros kv. unfold fresh_for_sweep.
      now rewrite negb_involutive. }
    lia.
Qed.

(** X1: on a map in which no key occurs twice, the clean-up keeps, in
    their order, exactly the entries whose age does not exceed their
    duration, and counts the others. *)
Theorem sweep_is_filter t (c : JsMap.t CacheEntry) :
  JsMap.wf c ->
  sweep t c
  = (List.filter (fresh_for_sweep t) c,
     (length c - length (List.filter (fresh_for_sweep t) c))%nat).
Proof.
  apply sweep_as_filter.
Qed.

Lemma sweep_is_filter_witness :
  sweep 5000 [("a", sample_entry 0 1000); ("b", sample_entry 4500 1000)]
  = (List.filter (fresh_for_sweep 5000)
       [("a", sample_entry 0 1000); ("b", sample_entry 4500 1000)],
     (2 - length (List.filter (fresh_for_sweep 5000)
                    [("a", sample_entry 0 1000); ("b", sample_entry 4500 1000)]))%nat).
Proof.
  apply sweep_is_filter. unfold JsMap.wf. simpl.
  apply NoDup_cons. split; [|apply NoDup_singleton].
  intros H. apply list_elem_of_In in H. simpl in H. destruct H as [H|[]].
  discriminate.
Defined.



Lemma cache_lookup_result t k w :
  snd (cache_lookup t k w)
  = match JsMap.get k (cache w) with
    | Some e => if valid_at t e then Some (data e) else None
    | None => None
    end.
Proof.
  unfold cache_lookup, valid_at. destruct (JsMap.get k (cache w)) as [e|];
    [|reflexivity].
  now destruct (t - timestamp e <? duration e).
Qed.

(** X3: the clean-up is invisible to readers: a lookup at the time of the
    clean-up or later finds after it what it would have found without it. *)
Theorem sweep_keeps_lookups w ctx t k :
  JsMap.wf (cache w) ->
  now ctx <= t ->
  snd (cache_lookup t k (cleanup_tick w ctx)) = snd (cache_lookup t k w).
Proof.
  intros Hwf Hle. rewrite !cache_lookup_result. unfold cleanup_tick. simpl.
  rewrite sweep_get by assumption.
  destruct (JsMap.get k (cache w)) as [e|]; [|reflexivity].
  unfold expired_for_sweep, valid_at.
  destruct (duration e <? now ctx - timestamp e) eqn:Hexp; [|reflexivity].
  apply Z.ltb_lt in Hexp.
  destruct (t - timestamp e <? duration e) eqn:Hv; [|reflexivity].
  apply Z.ltb_lt in Hv. lia.
Qed.

Lemma sweep_keeps_lookups_witness :
  snd (cache_lookup 5200 "a"
         (cleanup_tick stale_and_fresh {| now := 5000; queueLength := 0 |}))
  = snd (cache_lookup 5200 "a" stale_and_fresh).
Proof.
  apply sweep_keeps_lookups.
  - unfold JsMap.wf. simpl. apply NoDup_cons. split; [|apply NoDup_singleton].
    intros H. apply list_elem_of_In in H. simpl in H. destruct H as [H|[]].
    discriminate.
  - simpl. lia.
Defined.

(** The clean-up of this sample removes the entry that is looked up. *)
Example sweep_removes_stale_entry :
  cache (cleanup_tick stale_and_fresh {| now := 5000; queueLength := 0 |})
  = [("b", sample_entry 4500 1000)]
  /\ JsMap.get "a" (cache stale_and_fresh) = Some (sample_entry 0 1000).
Proof. split; reflexivity. Qed.

(** ** The start-up load *)

Lemma load_fold t0 d keys : forall acc k e,
  JsMap.get k (fold_left (load_item t0 d) keys acc) = Some e ->
  JsMap.get k acc = Some e
  \/ (In k keys /\ d !! cacheFilePath k = Some (ItemFile e)
      /\ valid_at t0 e = true).
Proof.
  induction keys as [|key keys IH]; intros acc k e H; simpl in *; [auto|].
  apply IH in H as [H|(Hin & Hfile & Hv)]; [|right; auto].
  unfold load_item in H.
  destruct (d !! cacheFilePath key) as [[ks|item]|] eqn:Hfile; auto.
  destruct (t0 - timestamp item <? duration item) eqn:Hv; auto.
  destruct (String.eqb_spec key k) as [->|Hne].
  - rewrite get_set_eq in H. injection H as <-. right. auto.
  - rewrite get_set_ne in H by assumption. auto.
Qed.

Lemma wf_set {V} k (v : V) (m : JsMap.t V) : JsMap.wf m -> JsMap.wf (JsMap.set k v m).
Proof.
  unfold JsMap.wf, JsMap.keys. induction m as [|[k' v'] m IH]; simpl.
  - intros _. apply NoDup_singleton.
  - intros [Hnot Hnd]%NoDup_cons.
    destruct (String.eqb_spec k k') as [->|Hne]; simpl.
    + apply NoDup_cons. auto.
    + apply NoDup_cons. split; [|auto].
      intros Hin. apply Hnot. apply list_elem_of_In in Hin. apply list_elem_of_In.
      clear -Hin Hne. induction m as [|[k0 v0] m IH]; simpl in *.
      * destruct Hin as [?|[]]. congruence.
      * destruct (String.eqb_spec k k0) as [->|Hn]; simpl in *; tauto.
Qed.

Lemma wf_delete {V} k (m : JsMap.t V) : JsMap.wf m -> JsMap.wf (JsMap.delete k m).
Proof. rewrite delete_as_filter. apply wf_filter. Qed.

Lemma load_wf t0 d : JsMap.wf (loadCacheFromDisk t0 d).
Proof.
  unfold loadCacheFromDisk.
  assert (forall keys acc, JsMap.wf acc ->
                           JsMap.wf (fold_left (load_item t0 d) keys acc)) as H.
  { induction keys as [|k keys IH]; intros acc Hacc; simpl; [auto|].
    apply IH. unfold load_item.
    destruct (d !! cacheFilePath k) as [[|item]|]; auto.
    destruct (_ <? _); auto. now apply wf_set. }
  destruct (d !! join CACHE_DIR "cache-index.json") as [[keys|]|];
    try apply H; apply NoDup_nil_2.
Qed.

(** X4: whatever the files hold, an entry that the start-up load admits is
    listed in the index, is the content of the file of its key, and is
    unexpired at the time of the load. *)
Theorem load_keeps_only_valid t0 d k e :
  JsMap.get k (loadCacheFromDisk t0 d) = Some e ->
  valid_at t0 e = true
  /\ d !! cacheFilePath k = Some (ItemFile e)
  /\ exists keys, d !! join CACHE_DIR "cache-index.json" = Some (IndexFile keys)
                  /\ In k keys.
Proof.
  unfold loadCacheFromDisk.
  destruct (d !! join CACHE_DIR "cache-index.json") as [[keys|]|] eqn:Hidx;
    try discriminate.
  intros H. apply load_fold in H as [H|(Hin & Hfile & Hv)]; [discriminate|].
  eauto.
Qed.

Lemma load_keeps_only_valid_witness :
  valid_at 500 (sample_entry 0 1000) = true
  /\ disk (saveCacheToDisk calm_env two_entries) !! cacheFilePath "anime_5"
     = Some (ItemFile (sample_entry 0 1000))
  /\ exists keys,
       disk (saveCacheToDisk calm_env two_entries)
         !! join CACHE_DIR "cache-index.json" = Some (IndexFile keys)
       /\ In "anime_5" keys.
Proof.
  apply (load_keeps_only_valid 500 (disk (saveCacheToDisk calm_env two_entries))).
  vm_compute. reflexivity.
Defined.

(** ** [fetchWithCache], case by case *)

Section FetchFacts.
Variable env : Env.

Lemma cache_lookup_fetched t k w : fetched (fst (cache_lookup t k w)) = fetched w.
Proof.
unfold cache_lookup. destruct (JsMap.get k (cache w)) as [e|]; [|reflexivity].
now destruct (_ <? _).
Qed.

(** X5: a hit does not renew an entry: it leaves the map as it is, and a
  lookup once the duration has run out from the time of the store
  misses, however recent the hit. *)
Theorem hit_does_not_renew w key e t1 t2 :
JsMap.get key (cache w) = Some e ->
t1 - timestamp e < duration e ->
duration e <= t2 - timestamp e ->
snd (cache_lookup t1 key w) = Some (data e)
/\ cache (fst (cache_lookup t1 key w)) = cache w
/\ snd (cache_lookup t2 key (fst (cache_lookup t1 key w))) = None.
Proof.
intros Hget H1 H2. rewrite (cache_lookup_valid t1 key w e Hget H1). simpl.
split; [reflexivity|]. split; [reflexivity|].
rewrite cache_lookup_result. simpl. rewrite Hget. unfold valid_at.
apply Z.ltb_ge in H2. now rewrite H2.
Qed.

(** X6: on a miss answered with a payload, the payload is what the call
  returns, and it is stored under the key with the duration asked for and
  the time of the lookup, not that of the answer, as its timestamp. *)
Theorem miss_stores_reply url key ttl w ctx latency reply value :
snd (cache_lookup (now ctx) key w) = None ->
upstream env (length (fetched w)) url (now ctx) = (latency, reply) ->
reply_value reply = Some value ->
exists k,
  snd (fetchWithCache env url key ttl w ctx) = Suspended latency k
  /\ forall w' ctx',
       snd (k w' ctx') = inl value
       /\ JsMap.get key (cache (fst (k w' ctx')))
          = Some {| timestamp := now ctx; duration := ttl; data := value |}
       /\ forall key', key' <> key ->
            JsMap.get key' (cache (fst (k w' ctx'))) = JsMap.get key' (cache w').
Proof.
intros Hmiss Hup Hval. unfold fetchWithCache.
pose proof (cache_lookup_fetched (now ctx) key w) as Hf.
destruct (cache_lookup (now ctx) key w) as [w1 found]. simpl in Hmiss, Hf.
subst found. simpl. rewrite Hf, Hup. simpl.
eexists. split; [reflexivity|]. intros w' ctx'.
destruct reply as [m|[] c tx [v|]]; try discriminate. injection Hval as ->.
simpl. rewrite cache_store_cache.
split; [reflexivity|]. split; [apply get_set_eq|].
intros key' Hne. apply get_set_ne. congruence.
Qed.

(** X7: on a miss answered with a failure (no response, a status that is
  not ok, a body that does not parse) the call fails, with the same
  error wherever its continuation runs, and changes nothing: no entry
  is stored. *)
Theorem failed_reply_stores_nothing url key ttl w ctx latency reply :
snd (cache_lookup (now ctx) key w) = None ->
upstream env (length (fetched w)) url (now ctx) = (latency, reply) ->
reply_value reply = None ->
exists k message,
  snd (fetchWithCache env url key ttl w ctx) = Suspended latency k
  /\ forall w' ctx', k w' ctx' = (w', inr message).
Proof.
intros Hmiss Hup Hval. unfold fetchWithCache.
pose proof (cache_lookup_fetched (now ctx) key w) as Hf.
destruct (cache_lookup (now ctx) key w) as [w1 found]. simpl in Hmiss, Hf.
subst found. simpl. rewrite Hf, Hup. simpl.
destruct reply as [m|[] c tx [v|]]; try discriminate;
  do 2 eexists; (split; [reflexivity|]); intros w' ctx'; reflexivity.
Qed.
End FetchFacts.

Lemma hit_does_not_renew_witness :
  snd (cache_lookup 900 "anime_5" two_entries) = Some JNull
  /\ cache (fst (cache_lookup 900 "anime_5" two_entries)) = cache two_entries
  /\ snd (cache_lookup 1000 "anime_5" (fst (cache_lookup 900 "anime_5" two_entries)))
     = None.
Proof.
  apply (hit_does_not_renew two_entries "anime_5" (sample_entry 0 1000) 900 1000).
  - reflexivity.
  - simpl. lia.
  - simpl. lia.
Defined.

Lemma miss_stores_reply_witness :
  exists k,
    snd (fetchWithCache calm_env "u" "k" 1000 (initial_world 0) sample_ctx)
    = Suspended 120 k
    /\ forall w' ctx',
         snd (k w' ctx') = inl (obj [("data", JNum 0)])
         /\ JsMap.get "k" (cache (fst (k w' ctx')))
            = Some {| timestamp := now sample_ctx; duration := 1000;
                      data := obj [("data", JNum 0)] |}
         /\ forall key', key' <> "k" ->
              JsMap.get key' (cache (fst (k w' ctx'))) = JsMap.get key' (cache w').
Proof.
  apply (miss_stores_reply calm_env "u" "k" 1000 (initial_world 0) sample_ctx 120
           (HttpReply true 200 EmptyString (Some (obj [("data", JNum 0)])))).
  - reflexivity.
  - reflexivity.
  - reflexivity.
Defined.

Lemma failed_reply_stores_nothing_witness :
  exists k message,
    snd (fetchWithCache failing_env "u" "k" 1000 (initial_world 0) sample_ctx)
    = Suspended 80 k
    /\ forall w' ctx', k w' ctx' = (w', inr message).
Proof.
  apply (failed_reply_stores_nothing failing_env "u" "k" 1000 (initial_world 0)
           sample_ctx 80 (HttpReply false 404 "Not Found" None)); reflexivity.
Defined.

(** ** The handlers *)

(** [handlers[name]] is defined for the thirteen names of the table and for
    no other string. *)
Lemma lookup_table name h :
  handlers.lookup name = Some h <-> In (name, h) handler_table.
Proof.
  split.
  - unfold handlers.lookup, handler_table.
    repeat (destruct name as [|[[] [] [] [] [] [] [] []] name];
            try discriminate;
            try (intros [= <-]; simpl; tauto)).
  - unfold handler_table. simpl.
    intros H. repeat (destruct H as [[= <- <-]|H]; [reflexivity|]). destruct H.
Qed.



Lemma params_get_In name v (p : URLSearchParams) :
  NoDup (map fst p) -> (params_get name p = Some v <-> In (name, v) p).
Proof.
  induction p as [|[k x] p IH]; simpl.
  - intros _. split; [discriminate|tauto].
  - intros [Hnot Hnd]%NoDup_cons. destruct (String.eqb_spec k name) as [->|Hne].
    + split; [intros [= ->]; auto|].
      intros [[= ->]|Hin]; [reflexivity|].
      exfalso. apply Hnot. apply list_elem_of_In.
      apply (in_map fst) in Hin. exact Hin.
    + rewrite IH by assumption. split; [auto|].
      intros [[= -> _]|Hin]; [congruence|auto].
Qed.

Lemma params_get_perm (p1 p2 : URLSearchParams) name :
  NoDup (map fst p1) -> p1 ≡ₚ p2 -> params_get name p1 = params_get name p2.
Proof.
  intros Hnd Hperm.
  assert (NoDup (map fst p2)) as Hnd2.
  { assert (map fst p1 ≡ₚ map fst p2) as Hm by (now apply Permutation_map).
    now rewrite <- Hm. }
  destruct (params_get name p1) as [v|] eqn:H1.
  - apply params_get_In in H1; [|assumption]. symmetry.
    apply params_get_In; [assumption|].
    eapply Permutation_in; eassumption.
  - destruct (params_get name p2) as [v|] eqn:H2; [|reflexivity].
    apply params_get_In in H2; [|assumption].
    assert (In (name, v) p1) as Hin
      by (eapply Permutation_in; [symmetry|]; eassumption).
    apply params_get_In in Hin; [|assumption]. congruence.
Qed.

(** X9: the handlers that read their parameters by name ([seasons], [top],
    [schedule], [genres], [random], [reviews], [recommendations],
    [studios]) make the same call, with the same url, key and duration, for
    two orders of the same parameters, no name occurring twice. *)
Theorem by_name_handlers_ignore_order (p1 p2 : URLSearchParams) h :
  NoDup (map fst p1) -> p1 ≡ₚ p2 -> In h by_name_handlers -> h p1 = h p2.
Proof.
  intros Hnd Hperm Hin.
  pose proof (fun name => params_get_perm p1 p2 name Hnd Hperm) as Hget.
  unfold by_name_handlers in Hin. simpl in Hin.
  repeat (destruct Hin as [<-|Hin];
          [unfold handlers.seasons, handlers.top, handlers.schedule,
             handlers.genres, handlers.random, handlers.reviews,
             handlers.recommendations, handlers.studios, get_or;
           rewrite !Hget; reflexivity|]).
  destruct Hin.
Qed.

Lemma by_name_handlers_ignore_order_witness :
  handlers.top [("type", "manga"); ("page", "2")]
  = handlers.top [("page", "2"); ("type", "manga")].
Proof.
  apply by_name_handlers_ignore_order.
  - simpl. apply NoDup_cons. split; [|apply NoDup_singleton].
    intros H. apply list_elem_of_In in H. destruct H as [H|[]]. discriminate.
  - apply Permutation_swap.
  - simpl. tauto.
Defined.

(** X10: the key does not fix the url. The key of a search of [anime] (or
    of [manga]) is also the key of a lookup by id, of the id [search_]
    followed by the query; the two go to different urls upstream, and
    share one cache entry. *)
Theorem search_key_is_also_an_id_key (q : URLSearchParams) :
  truthy (params_get "id" q) = None ->
  let p := [("id", "search_" +:+ query_toString q)] in
  cacheKey_of (handlers.anime p) = cacheKey_of (handlers.anime q)
  /\ url_of (handlers.anime p) <> url_of (handlers.anime q)
  /\ cacheKey_of (handlers.manga p) = cacheKey_of (handlers.manga q)
  /\ url_of (handlers.manga p) <> url_of (handlers.manga q).
Proof.
  intros Hid p. subst p. unfold handlers.anime, handlers.manga. rewrite Hid.
  cbn [params_get String.eqb Ascii.eqb Bool.eqb truthy].
  unfold_append. cbn [truthy cacheKey_of url_of].
  unfold BASE_URL. unfold_append.
  repeat split; discriminate.
Qed.

Lemma search_key_is_also_an_id_key_witness :
  let q := [("q", "naruto")] in
  let p := [("id", "search_" +:+ query_toString q)] in
  cacheKey_of (handlers.anime p) = cacheKey_of (handlers.anime q)
  /\ url_of (handlers.anime p) <> url_of (handlers.anime q)
  /\ cacheKey_of (handlers.manga p) = cacheKey_of (handlers.manga q)
  /\ url_of (handlers.manga p) <> url_of (handlers.manga q).
Proof.
  apply (search_key_is_also_an_id_key [("q", "naruto")]). reflexivity.
Defined.

(** The shared entry at work: the result of a search is served, as a hit,
    to a lookup by that id. *)
Example search_result_served_for_id :
  let final :=
    drain (serve calm_env
             [ Receive (get_request 1 "anime" [("q", "naruto")]); Wait 5000;
               Receive (get_request 2 "anime" [("id", "search_q=naruto")]) ]
             (boot 0 ∅)) in
  cacheHits (stats (world final)) = 1%nat
  /\ fetched (world final) = [("https://api.jikan.moe/v4/anime?q=naruto", 0)].
Proof. vm_compute. auto. Qed.

Section HandlerFacts.
Variable env : Env.

(** X11: [random] goes past the cache: whatever the cache holds, the call
  looks nothing up, counts neither hit nor miss, calls upstream, and
  stores nothing when the answer comes. *)
Theorem random_bypasses_cache params w ctx :
let run := perform env (handlers.random params) w ctx in
cache (fst run) = cache w /\ stats (fst run) = stats w
/\ disk (fst run) = disk w
/\ fetched (fst run)
   = (fetched w
      ++ [(BASE_URL +:+ "/random/" +:+ get_or "type" "anime" params,
           now ctx)])%list
/\ exists latency k,
     snd run = Suspended latency k /\ forall w' ctx', fst (k w' ctx') = w'.
Proof.
cbv zeta. unfold handlers.random. cbn [perform].
destruct (upstream env (length (fetched w)) _ (now ctx)) as [latency reply].
simpl. repeat split; eauto.
Qed.

(** X12: a request for an endpoint that is not among the thirteen, nor a
  name that objects inherit, is answered at once with the 404 document;
  it is not submitted to the queue and leaves cache, statistics and
  upstream alone. *)
Theorem unknown_endpoint_is_not_found req endpoint rest st :
String.eqb (method req) "OPTIONS" = false ->
parts req = "api" :: endpoint :: rest ->
~ In endpoint handlers.names ->
~ In endpoint inherited_names ->
let st' := fetch env req st in
submitted st' = submitted st /\ requestQueue st' = requestQueue st
/\ running st' = running st /\ trace st' = trace st
/\ cache (world st') = cache (world st) /\ stats (world st') = stats (world st)
/\ fetched (world st') = fetched (world st)
/\ responses (world st')
   = (responses (world st) ++ [(conn req, not_found_response)])%list.
Proof.
intros Hm Hparts Hnot _. cbv zeta. unfold fetch, route, handlersWithStats.
rewrite Hm, Hparts.
destruct (handlers.lookup endpoint) as [h|] eqn:Hh.
- exfalso. apply Hnot. apply lookup_table in Hh.
  apply (in_map fst) in Hh. exact Hh.
- simpl. repeat split; reflexivity.
Qed.
End HandlerFacts.

Lemma unknown_endpoint_is_not_found_witness :
  let req := get_request 7 "waifu" [] in
  let st := boot 0 ∅ in
  let st' := fetch calm_env req st in
  submitted st' = submitted st /\ requestQueue st' = requestQueue st
  /\ running st' = running st /\ trace st' = trace st
  /\ cache (world st') = cache (world st) /\ stats (world st') = stats (world st)
  /\ fetched (world st') = fetched (world st)
  /\ responses (world st')
     = (responses (world st) ++ [(conn req, not_found_response)])%list.
Proof.
  apply (unknown_endpoint_is_not_found calm_env (get_request 7 "waifu" [])
           "waifu" [] (boot 0 ∅)).
  - reflexivity.
  - reflexivity.
  - simpl. intros H.
    repeat (destruct H as [H|H]; [discriminate|]). exact H.
  - simpl. intros H.
    repeat (destruct H as [H|H]; [discriminate|]). exact H.
Defined.

(** ** File names *)

Lemma b64_digit_read n :
  (n < 64)%N ->
  unb64 (b64_digit n) = n /\ Ascii.eqb (b64_digit n) "="%char = false
  /\ forall c, c = "-"%char \/ c = "."%char -> Ascii.eqb c (b64_digit n) = false.
Proof.
  intros Hlt.
  assert (forallb (fun n => (unb64 (b64_digit n) =? n)%N
                            && negb (Ascii.eqb (b64_digit n) "="%char)
                            && negb (Ascii.eqb "-"%char (b64_digit n))
                            && negb (Ascii.eqb "."%char (b64_digit n)))
            (map N.of_nat (seq 0 64)) = true) as Hall by (vm_compute; reflexivity).
  rewrite forallb_forall in Hall. specialize (Hall n).
  assert (In n (map N.of_nat (seq 0 64))) as Hin.
  { apply in_map_iff. exists (N.to_nat n). split; [apply N2Nat.id|].
    apply in_seq. lia. }
  apply Hall in Hin. apply andb_true_iff in Hin as [Hin H4].
  apply andb_true_iff in Hin as [Hin H3].
  apply andb_true_iff in Hin as [H1 H2].
  apply N.eqb_eq in H1. apply negb_true_iff in H2, H3, H4.
  split; [exact H1|]. split; [exact H2|]. intros c [-> | ->]; assumption.
Qed.

Lemma byte_bound a : (N_of_ascii a < 256)%N.
Proof. apply N_ascii_bounded. Qed.

(** [lia] is told about quotients and remainders for this lemma only. *)
Ltac Zify.zify_post_hook ::= Z.to_euclidean_division_equations.

Lemma sextets (x y z : N) :
  (x < 256 -> y < 256 -> z < 256 ->
   let d1 := x / 4 in
   let d2 := (x mod 4) * 16 + y / 16 in
   let d3 := (y mod 16) * 4 + z / 64 in
   let d4 := z mod 64 in
   d1 < 64 /\ d2 < 64 /\ d3 < 64 /\ d4 < 64
   /\ d1 * 4 + d2 / 16 = x
   /\ (d2 mod 16) * 16 + d3 / 4 = y
   /\ (d3 mod 4) * 64 + d4 = z)%N.
Proof.
  intros Hx Hy Hz. cbv zeta. repeat split; lia.
Qed.

Ltac Zify.zify_post_hook ::= idtac.

Lemma unbase64_step a b c d rest :
  unbase64 (String a (String b (String c (String d rest))))
  = let x := (unb64 a * 4 + unb64 b / 16)%N in
    let y := ((unb64 b mod 16) * 16 + unb64 c / 4)%N in
    let z := ((unb64 c mod 4) * 64 + unb64 d)%N in
    if Ascii.eqb c "="%char then String (ascii_of_N x) EmptyString
    else if Ascii.eqb d "="%char
         then String (ascii_of_N x) (String (ascii_of_N y) EmptyString)
         else String (ascii_of_N x)
                (String (ascii_of_N y) (String (ascii_of_N z) (unbase64 rest))).
Proof. reflexivity. Qed.

(** The name of a file tells its key: base64 reads back. *)
Lemma unbase64_base64 s : unbase64 (base64 s) = s.
Proof.
  assert (forall s,
             unbase64 (base64 s) = s
             /\ (forall a, unbase64 (base64 (String a s)) = String a s)
             /\ (forall a b, unbase64 (base64 (String a (String b s)))
                            = String a (String b s))) as H.
  { clear s. induction s as [|c s (IH0 & IH1 & IH2)].
    - split; [reflexivity|]. split.
      + intros a. cbn [base64]. cbv zeta. rewrite unbase64_step. cbv zeta.
        destruct (sextets (N_of_ascii a) 0 0 (byte_bound a)) as
          (L1 & L2 & _ & _ & E1 & _); try (cbv; reflexivity).
        cbv zeta in L1, L2, E1. change (0 / 16)%N with 0%N in *.
        rewrite N.add_0_r in *.
        destruct (b64_digit_read _ L1) as (R1 & _).
        destruct (b64_digit_read _ L2) as (R2 & _).
        rewrite R1, R2. cbn [Ascii.eqb Bool.eqb].
        now rewrite E1, ascii_N_embedding.
      + intros a b. cbn [base64]. cbv zeta. rewrite unbase64_step. cbv zeta.
        destruct (sextets (N_of_ascii a) (N_of_ascii b) 0
                    (byte_bound a) (byte_bound b)) as
          (L1 & L2 & L3 & _ & E1 & E2 & _); try (cbv; reflexivity).
        cbv zeta in L1, L2, L3, E1, E2. change (0 / 64)%N with 0%N in *.
        rewrite N.add_0_r in *.
        destruct (b64_digit_read _ L1) as (R1 & _).
        destruct (b64_digit_read _ L2) as (R2 & _).
        destruct (b64_digit_read _ L3) as (R3 & N3 & _).
        rewrite R1, R2, R3, N3. cbn [Ascii.eqb Bool.eqb].
        now rewrite E1, E2, !ascii_N_embedding.
    - split; [apply IH1|]. split; [intros a; apply (IH2 a c)|].
      intros a b. cbn [base64]. cbv zeta. rewrite unbase64_step. cbv zeta.
      destruct (sextets (N_of_ascii a) (N_of_ascii b) (N_of_ascii c)
                  (byte_bound a) (byte_bound b) (byte_bound c)) as
        (L1 & L2 & L3 & L4 & E1 & E2 & E3).
      cbv zeta in L1, L2, L3, L4, E1, E2, E3.
      destruct (b64_digit_read _ L1) as (R1 & _).
      destruct (b64_digit_read _ L2) as (R2 & _).
      destruct (b64_digit_read _ L3) as (R3 & N3 & _).
      destruct (b64_digit_read _ L4) as (R4 & N4 & _).
      rewrite R1, R2, R3, R4, N3, N4.
      now rewrite E1, E2, E3, !ascii_N_embedding, IH0. }
  apply H.
Qed.

Lemma base64_inj s1 s2 : base64 s1 = base64 s2 -> s1 = s2.
Proof.
  intros H. apply (f_equal unbase64) in H. now rewrite !unbase64_base64 in H.
Qed.

(** A base64 name holds neither [-] nor [.]. *)
Lemma base64_plain c s :
  c = "-"%char \/ c = "."%char -> occurs c (base64 s) = false.
Proof.
  intros Hc.
  assert (c <> "="%char) as Hne by (destruct Hc; subst; discriminate).
  apply Ascii.eqb_neq in Hne.
  assert (forall s,
             occurs c (base64 s) = false
             /\ (forall a, occurs c (base64 (String a s)) = false)
             /\ (forall a b, occurs c (base64 (String a (String b s))) = false))
    as H.
  { clear s. induction s as [|x s (IH0 & IH1 & IH2)].
    - split; [reflexivity|]. split.
      + intros a. cbn [base64]. cbv zeta.
        destruct (sextets (N_of_ascii a) 0 0 (byte_bound a)) as
          (L1 & L2 & _); try (cbv; reflexivity).
        cbv zeta in L1, L2. change (0 / 16)%N with 0%N in *.
        rewrite N.add_0_r in *.
        destruct (b64_digit_read _ L1) as (_ & _ & D1).
        destruct (b64_digit_read _ L2) as (_ & _ & D2).
        cbn [occurs]. now rewrite (D1 c Hc), (D2 c Hc), Hne.
      + intros a b. cbn [base64]. cbv zeta.
        destruct (sextets (N_of_ascii a) (N_of_ascii b) 0
                    (byte_bound a) (byte_bound b)) as
          (L1 & L2 & L3 & _); try (cbv; reflexivity).
        cbv zeta in L1, L2, L3. change (0 / 64)%N with 0%N in *.
        rewrite N.add_0_r in *.
        destruct (b64_digit_read _ L1) as (_ & _ & D1).
        destruct (b64_digit_read _ L2) as (_ & _ & D2).
        destruct (b64_digit_read _ L3) as (_ & _ & D3).
        cbn [occurs]. now rewrite (D1 c Hc), (D2 c Hc), (D3 c Hc), Hne.
    - split; [apply IH1|]. split; [intros a; apply (IH2 a x)|].
      intros a b. cbn [base64]. cbv zeta.
      destruct (sextets (N_of_ascii a) (N_of_ascii b) (N_of_ascii x)
                  (byte_bound a) (byte_bound b) (byte_bound x)) as
        (L1 & L2 & L3 & L4 & _).
      cbv zeta in L1, L2, L3, L4.
      destruct (b64_digit_read _ L1) as (_ & _ & D1).
      destruct (b64_digit_read _ L2) as (_ & _ & D2).
      destruct (b64_digit_read _ L3) as (_ & _ & D3).
      destruct (b64_digit_read _ L4) as (_ & _ & D4).
      cbn [occurs]. now rewrite (D1 c Hc), (D2 c Hc), (D3 c Hc), (D4 c Hc), IH0. }
  apply H.
Qed.

Lemma cacheFilePath_inj k1 k2 : cacheFilePath k1 = cacheFilePath k2 -> k1 = k2.
Proof.
  unfold cacheFilePath, join, CACHE_DIR. intros H. unfold_append.
  injection H as H. change ".json" with (String "."%char "json") in H.
  apply cut_unique in H as [H _]; try (apply base64_plain; auto).
  now apply base64_inj.
Qed.

Lemma cacheFilePath_not_index k :
  cacheFilePath k <> join CACHE_DIR "cache-index.json".
Proof.
  unfold cacheFilePath, join, CACHE_DIR. intros H. unfold_append.
  injection H as H. apply (f_equal (occurs "-")) in H.
  rewrite occurs_app, base64_plain in H by auto. discriminate.
Qed.

(** ** Snapshot and reload *)

Section RoundTrip.
Variable env : Env.

Lemma save_items_all items : forall d,
Forall (fun kv => write_fails env (cacheFilePath (fst kv)) = false) items ->
save_items env items d = (write_all items d, true).
Proof.
induction items as [|[k v] items IH]; intros d Hok; simpl; [reflexivity|].
apply Forall_cons in Hok as [Hk Hok]. simpl in Hk.
unfold writeFileSync. rewrite Hk. now apply IH.
Qed.

Lemma write_all_frame items path : forall d,
(forall kv, In kv items -> cacheFilePath (fst kv) <> path) ->
write_all items d !! path = d !! path.
Proof.
induction items as [|[k v] items IH]; intros d H; simpl; [reflexivity|].
rewrite IH by (intros; apply H; simpl; auto).
apply lookup_insert_ne. apply (H (k, v)). simpl. auto.
Qed.

Lemma write_all_item items : forall d k e,
JsMap.wf items -> In (k, e) items ->
write_all items d !! cacheFilePath k = Some (ItemFile e).
Proof.
induction items as [|[k0 e0] items IH]; intros d k e Hwf Hin; [destruct Hin|].
simpl. pose proof (wf_tail _ _ Hwf) as Hwf'.
destruct Hin as [[= -> ->]|Hin]; [|now apply IH].
rewrite write_all_frame; [apply lookup_insert_eq|].
intros [k' e'] Hin' Heq. simpl in Heq. apply cacheFilePath_inj in Heq. subst k'.
unfold JsMap.wf, JsMap.keys in Hwf. simpl in Hwf.
apply NoDup_cons in Hwf as [Hnot _]. apply Hnot.
apply list_elem_of_In. apply (in_map fst) in Hin'. exact Hin'.
Qed.

Lemma set_fresh {V} k (v : V) (m : JsMap.t V) :
JsMap.get k m = None -> JsMap.set k v m = (m ++ [(k, v)])%list.
Proof.
induction m as [|[k' v'] m IH]; simpl; [reflexivity|].
destruct (String.eqb k k'); [discriminate|]. intros H. now rewrite IH.
Qed.

Lemma get_snoc {V} k k' (v : V) (m : JsMap.t V) :
k <> k' -> JsMap.get k m = None -> JsMap.get k (m ++ [(k', v)])%list = None.
Proof.
intros Hne. induction m as [|[k0 v0] m IH]; simpl.
- intros _. now destruct (String.eqb_spec k k').
- destruct (String.eqb k k0); [discriminate|]. exact IH.
Qed.

Lemma load_fold_all t d items : forall acc,
JsMap.wf items ->
(forall kv, In kv items -> JsMap.get (fst kv) acc = None) ->
(forall k e, In (k, e) items -> d !! cacheFilePath k = Some (ItemFile e)) ->
fold_left (load_item t d) (map fst items) acc
= (acc ++ List.filter (fun kv => valid_at t (snd kv)) items)%list.
Proof.
induction items as [|[k e] items IH]; intros acc Hwf Hfresh Hfile.
- simpl. now rewrite app_nil_r.
- pose proof (wf_tail _ _ Hwf) as Hwf'.
  unfold JsMap.wf, JsMap.keys in Hwf. simpl in Hwf.
  apply NoDup_cons in Hwf as [Hnot _].
  cbn [map fold_left fst List.filter snd].
  unfold load_item at 2. rewrite (Hfile k e) by (simpl; auto).
  change (t - timestamp e <? duration e) with (valid_at t e).
  destruct (valid_at t e).
  + rewrite set_fresh by (apply (Hfresh (k, e)); simpl; auto).
    rewrite (IH (acc ++ [(k, e)])%list); auto.
    * now rewrite <- app_assoc.
    * intros [k' e'] Hin. simpl. apply get_snoc.
      -- intros ->. apply Hnot. apply list_elem_of_In.
         apply (in_map fst) in Hin. exact Hin.
      -- apply (Hfresh (k', e')). simpl. auto.
    * intros k' e' Hin. apply Hfile. simpl. auto.
  + apply IH; auto.
    * intros kv Hin. apply Hfresh. simpl. auto.
    * intros k' e' Hin. apply Hfile. simpl. auto.
Qed.

Lemma snapshot_reloads_aux w t :
JsMap.wf (cache w) ->
write_fails env (join CACHE_DIR "cache-index.json") = false ->
Forall (fun kv => write_fails env (cacheFilePath (fst kv)) = false) (cache w) ->
loadCacheFromDisk t (disk (saveCacheToDisk env w))
= List.filter (fun kv => valid_at t (snd kv)) (cache w).
Proof.
intros Hwf Hidx Hok.
assert (disk (saveCacheToDisk env w)
        = write_all (cache w)
            (<[join CACHE_DIR "cache-index.json"
               := IndexFile (JsMap.keys (cache w))]> (disk w))) as Hdisk.
{ unfold saveCacheToDisk, writeFileSync. rewrite Hidx. unfold JsMap.entries.
  now rewrite save_items_all. }
unfold loadCacheFromDisk. rewrite Hdisk.
rewrite write_all_frame
  by (intros kv _; apply cacheFilePath_not_index).
rewrite lookup_insert_eq.
unfold JsMap.keys. rewrite (load_fold_all t _ (cache w) JsMap.empty); auto.
intros k e Hin. now apply write_all_item.
Qed.

(** X13: when no write fails, the snapshot read back at time [t] is the
  cache, in its order, without the entries expired at [t]; what else
  the cache directory held plays no part. *)
Theorem snapshot_reloads w t :
JsMap.wf (cache w) ->
write_fails env (join CACHE_DIR "cache-index.json") = false ->
Forall (fun kv => write_fails env (cacheFilePath (fst kv)) = false) (cache w) ->
loadCacheFromDisk t (disk (saveCacheToDisk env w))
= List.filter (fun kv => valid_at t (snd kv)) (cache w).
Proof. apply snapshot_reloads_aux. Qed.

Lemma get_filter {V} (f : string * V -> bool) k (m : JsMap.t V) :
JsMap.wf m ->
JsMap.get k (List.filter f m)
= match JsMap.get k m with
  | Some v => if f (k, v) then Some v else None
  | None => None
  end.
Proof.
induction m as [|[k' v'] m IH]; intros Hwf; simpl; [reflexivity|].
pose proof (wf_tail _ _ Hwf) as Hwf'.
destruct (String.eqb_spec k k') as [->|Hne].
- destruct (f (k', v')) eqn:Hf; simpl.
  + now rewrite String.eqb_refl.
  + rewrite IH by assumption.
    destruct (JsMap.get k' m) as [v|] eqn:Hget; [|reflexivity].
    exfalso. apply get_In in Hget.
    unfold JsMap.wf, JsMap.keys in Hwf. simpl in Hwf.
    apply NoDup_cons in Hwf as [Hnot _]. apply Hnot.
    apply list_elem_of_In. apply (in_map fst) in Hget. exact Hget.
- destruct (f (k', v')); simpl.
  + destruct (String.eqb_spec k k'); [congruence|]. now apply IH.
  + now apply IH.
Qed.

(** X14: a restart is invisible to readers: when no write fails, a server
  started at [t] over the snapshot answers every lookup from then on as
  the server that took the snapshot would. *)
Theorem restart_keeps_lookups w t t' key :
JsMap.wf (cache w) ->
write_fails env (join CACHE_DIR "cache-index.json") = false ->
Forall (fun kv => write_fails env (cacheFilePath (fst kv)) = false) (cache w) ->
t <= t' ->
snd (cache_lookup t' key (world (boot t (disk (saveCacheToDisk env w)))))
= snd (cache_lookup t' key w).
Proof.
intros Hwf Hidx Hok Hle. rewrite !cache_lookup_result. simpl.
rewrite snapshot_reloads_aux by assumption.
rewrite get_filter by assumption.
destruct (JsMap.get key (cache w)) as [e|]; [|reflexivity]. simpl.
unfold valid_at. destruct (t - timestamp e <? duration e) eqn:Hv; [reflexivity|].
apply Z.ltb_ge in Hv.
destruct (t' - timestamp e <? duration e) eqn:Hv'; [|reflexivity].
apply Z.ltb_lt in Hv'. lia.
Qed.
End RoundTrip.

Lemma two_entries_wf : JsMap.wf (cache two_entries).
Proof.
  unfold JsMap.wf. simpl. apply NoDup_cons. split; [|apply NoDup_singleton].
  intros H. apply list_elem_of_In in H. simpl in H. destruct H as [H|[]].
  discriminate.
Qed.

Lemma snapshot_reloads_witness :
  loadCacheFromDisk 500 (disk (saveCacheToDisk calm_env two_entries))
  = List.filter (fun kv => valid_at 500 (snd kv)) (cache two_entries).
Proof.
  apply snapshot_reloads.
  - apply two_entries_wf.
  - reflexivity.
  - repeat constructor.
Defined.

Lemma restart_keeps_lookups_witness :
  snd (cache_lookup 600 "anime_5"
         (world (boot 500 (disk (saveCacheToDisk calm_env two_entries)))))
  = snd (cache_lookup 600 "anime_5" two_entries).
Proof.
  apply restart_keeps_lookups.
  - apply two_entries_wf.
  - reflexivity.
  - repeat constructor.
  - lia.
Defined.

(** ** Proving more invariants of the queue *)

Section Principle.
Context {W V E : Type}.
Implicit Types (st : Loop W V E) (task : Task W V E).

Lemma enqueueRequest_queued task st :
enqueueRequest task st = processQueue (queued task st).
Proof. reflexivity. Qed.

Lemma wake_woken t st : wake t st = processQueue (woken t st).
Proof. reflexivity. Qed.

Lemma processQueue_opened st :
processingQueue st = false -> requestQueue st <> [] ->
processQueue st
= fold_left start_task (firstn MAX_REQUESTS_PER_SECOND (requestQueue st))
    (opened st).
Proof.
intros Hp Hq. unfold processQueue, opened. rewrite Hp.
destruct (requestQueue st); [congruence|reflexivity].
Qed.

Lemma queued_Ready task st : Inv st -> Ready (queued task st).
Proof.
intros [(Hsh & Hnb & Hpc) Hidle]. split; [|split].
- destruct Hsh. constructor; simpl; auto.
- destruct Hnb as [Hq Hs Hst Honce Hev]. constructor; simpl; auto.
  + rewrite map_app, length_app, Hq. simpl.
    rewrite seq_app. simpl. now rewrite Hs.
  + rewrite length_app. simpl. lia.
- destruct Hpc. constructor; simpl; auto.
Qed.

Lemma woken_Ready t st :
Inv st -> running st = [] -> timer st = Some t -> Ready (woken t st).
Proof.
intros [(Hsh & Hnb & Hpc) Hidle] Hrun Ht. split; [|split].
- constructor; simpl; rewrite ?Hrun.
  + congruence.
  + discriminate.
  + auto.
  + constructor.
  + discriminate.
  + simpl. lia.
- destruct Hnb. constructor; simpl; auto.
- pose proof (sh_timer _ Hsh t Ht) as Hle.
  constructor; simpl; try discriminate.
  + intros ev Hev. pose proof (pc_past _ Hpc ev Hev). lia.
  + intros _. apply (pc_cool _ Hpc t Ht).
  + apply (pc_window _ Hpc).
  + apply (pc_far _ Hpc).
  + rewrite Hrun. intros r [].
  + apply (pc_later _ Hpc).
Qed.

(** A property of the loop holds after every callback when it holds at the
  start and each piece of the queue's code keeps it. [P batch st] is the
  property while [processQueue] still has [batch] to start. *)
Variable P : list (nat * Task W V E) -> Loop W V E -> Prop.

Hypothesis P_opened : forall st,
Ready st -> P [] st -> processingQueue st = false -> requestQueue st <> [] ->
P (firstn MAX_REQUESTS_PER_SECOND (requestQueue st)) (opened st).
Hypothesis P_start : forall st item rest,
P (item :: rest) st ->
(forall ev, In ev (trace st) ->
            event_time ev <= clock st /\ (event_task ev < fst item)%nat) ->
P rest (start_task st item).
Hypothesis P_settle : forall st r others,
Inv st -> P [] st -> earliest (running st) = Some (r, others) ->
P [] (settle r others st).
Hypothesis P_woken : forall st t,
Inv st -> P [] st -> running st = [] -> timer st = Some t ->
P [] (woken t st).
Hypothesis P_clock : forall st l,
Inv st -> P [] st -> clock st <= l -> P [] (set_clock l st).

Lemma keep_batch batch : forall st m,
map fst batch = seq m (length batch) ->
P batch st ->
(forall ev, In ev (trace st) ->
            event_time ev <= clock st /\ (event_task ev < m)%nat) ->
P [] (fold_left start_task batch st).
Proof.
induction batch as [|[tid task] batch IH]; intros st m Hm HP Hev; [exact HP|].
simpl in Hm. injection Hm as Htid Hm. subst tid.
change (fold_left start_task ((m, task) :: batch) st)
  with (fold_left start_task batch (start_task st (m, task))).
destruct (start_task_fields st m task) as (Hc & _ & _ & _ & _ & Htr & _).
apply (IH _ (S m)); auto.
intros ev. rewrite Htr, Hc. intros [Hin|[<-|[]]]%in_app_iff.
- destruct (Hev ev Hin). split; [assumption|lia].
- simpl. split; lia.
Qed.

Lemma keep_processQueue st : Ready st -> P [] st -> P [] (processQueue st).
Proof.
intros Hready HP.
destruct (processingQueue st) eqn:Hp.
{ now rewrite processQueue_skip by auto. }
destruct (requestQueue st) as [|item q] eqn:Hq.
{ now rewrite processQueue_skip by auto. }
assert (requestQueue st <> []) as Hne by (rewrite Hq; discriminate).
rewrite processQueue_opened by assumption.
destruct Hready as (Hsh & Hnb & Hpc).
destruct (batch_numbers st Hnb) as (Hb & _ & _).
apply (keep_batch _ _ (length (started (trace st)))).
- exact Hb.
- apply P_opened; auto. exact (conj Hsh (conj Hnb Hpc)).
- intros ev Hin. simpl in *. split.
  + apply (pc_past _ Hpc ev Hin).
  + apply (nb_events _ Hnb ev Hin).
Qed.

Lemma keep_enqueue task st :
Inv st -> P [] (queued task st) -> P [] (enqueueRequest task st).
Proof.
intros Hinv HP. rewrite enqueueRequest_queued.
apply keep_processQueue; [now apply queued_Ready|assumption].
Qed.

Lemma keep_step st : Inv st -> P [] st -> P [] (step st).
Proof.
intros Hinv HP. unfold step.
destruct (earliest (running st)) as [[r others]|] eqn:He.
- now apply P_settle.
- destruct (timer st) as [t|] eqn:Ht; [|exact HP].
  apply earliest_None in He. rewrite wake_woken.
  apply keep_processQueue; [now apply woken_Ready|now apply P_woken].
Qed.

Lemma keep_advance fuel limit : forall st,
Inv st -> P [] st -> P [] (advance fuel limit st).
Proof.
induction fuel as [|fuel IH]; intros st Hinv HP; simpl; [exact HP|].
destruct (next_due st); [|exact HP].
destruct (within limit z); [|exact HP].
apply IH; [now apply step_Inv|now apply keep_step].
Qed.

Lemma keep_elapse dt st : Inv st -> P [] st -> P [] (elapse dt st).
Proof.
intros Hinv HP. unfold elapse.
destruct (advance_spec (work st) (Some (clock st + Z.of_nat dt)) st)
  as (H1 & H2 & H3 & H4); auto.
{ intros l [= <-]. lia. }
apply P_clock; auto. now apply keep_advance.
Qed.

Lemma keep_drain st : Inv st -> P [] st -> P [] (drain st).
Proof. intros Hinv HP. now apply keep_advance. Qed.
End Principle.

(** ** The queue, seen from outside *)

Section QueueFacts.
Context {W V E : Type}.
Implicit Types (st : Loop W V E) (inputs : list (Input W V E)).

Lemma run_submitted inputs : forall st,
submitted (run inputs st) = (submitted st + length (enqueued inputs))%nat.
Proof.
unfold run. induction inputs as [|i inputs IH]; intros st.
- simpl. lia.
- change (fold_left react (i :: inputs) st)
    with (fold_left react inputs (react st i)).
  rewrite IH, react_submitted.
  change (i :: inputs) with ([i] ++ inputs)%list.
  rewrite (enqueued_app [i] inputs), length_app. lia.
Qed.

(** X15: tasks start in the order of their submission, none is skipped,
  and those that have not started wait in the queue in that order. *)
Theorem queue_is_first_in_first_out inputs (w : W) t0 :
let st := run inputs (initial_loop w t0) in
(started (trace st) ++ map fst (requestQueue st))%list
= seq 0 (length (enqueued inputs)).
Proof.
intros st.
destruct (run_Inv inputs _ (initial_Inv w t0)) as [(_ & Hnb & _) _].
fold st in Hnb.
rewrite (nb_started _ Hnb), (nb_queue _ Hnb), <- seq_app.
rewrite <- (nb_submitted _ Hnb). unfold st.
now rewrite run_submitted.
Qed.

(** X16: a task that waits is never stranded: while the queue is not empty
  a batch is in flight or the timer of the cooldown is pending, and the
  batch in flight has at most [MAX_REQUESTS_PER_SECOND] promises. *)
Theorem waiting_task_is_not_stranded inputs (w : W) t0 :
let st := run inputs (initial_loop w t0) in
requestQueue st <> [] ->
processingQueue st = true
/\ next_due st <> None
/\ (length (running st) <= MAX_REQUESTS_PER_SECOND)%nat.
Proof.
intros st Hq.
destruct (run_Inv inputs _ (initial_Inv w t0)) as [(Hsh & _ & _) Hidle].
fold st in Hsh, Hidle.
assert (processingQueue st = true) as Hp.
{ destruct (processingQueue st); [reflexivity|]. now destruct Hq; apply Hidle. }
split; [exact Hp|]. split; [|apply (sh_batch _ Hsh)].
unfold next_due.
destruct (earliest (running st)) as [[r others]|] eqn:He; [discriminate|].
apply earliest_None in He.
destruct (sh_busy _ Hsh Hp) as [Hr|Ht]; [contradiction|exact Ht].
Qed.

(** X17: batches are a cooldown apart: a task starts no sooner than
  [COOLDOWN] after the start and after the settlement of every task that
  started before it at another time. *)
Theorem later_batch_waits_for_cooldown inputs (w : W) t0 ev ev1 ev2 :
let st := run inputs (initial_loop w t0) in
In ev (trace st) -> In ev1 (trace st) -> In ev2 (trace st) ->
is_start ev1 = true -> is_start ev2 = true ->
event_task ev = event_task ev1 ->
event_time ev1 < event_time ev2 ->
event_time ev + COOLDOWN <= event_time ev2.
Proof.
intros st.
destruct (run_Inv inputs _ (initial_Inv w t0)) as [(_ & _ & Hpc) _].
apply (pc_later _ Hpc).
Qed.

End QueueFacts.

Lemma waiting_task_is_not_stranded_witness :
  processingQueue (run six_jobs (initial_loop tt 0)) = true
  /\ next_due (run six_jobs (initial_loop tt 0)) <> None
  /\ (length (running (run six_jobs (initial_loop tt 0)))
      <= MAX_REQUESTS_PER_SECOND)%nat.
Proof.
  apply (waiting_task_is_not_stranded six_jobs tt 0).
  vm_compute. discriminate.
Defined.

Lemma later_batch_waits_for_cooldown_witness :
  event_time (Resolved (E := string) 0%nat 0%nat 100) + COOLDOWN
  <= event_time (Started (V := nat) (E := string) 1%nat 1100).
Proof.
  apply (later_batch_waits_for_cooldown
           (six_jobs ++ [Elapse 1100]) tt 0
           (Resolved 0%nat 0%nat 100) (Started 0%nat 0) (Started 1%nat 1100)).
  - vm_compute. tauto.
  - vm_compute. tauto.
  - vm_compute. tauto.
  - reflexivity.
  - reflexivity.
  - reflexivity.
  - vm_compute. reflexivity.
Defined.

(** ** The server and its queue *)

(** The theorems about the server that follow are stated for the requests
    that [route] covers ([own_endpoints]): [/api/constructor] and the like
    find an inherited property in [handlersWithStats] and are submitted
    to the queue without going through [performanceMiddleware]. *)

Section LedgerFacts.
Variable env : Env.
Implicit Types (st : Loop World JSON string) (w : World).

Lemma saveCacheToDisk_rest w :
stats (saveCacheToDisk env w) = stats w
/\ fetched (saveCacheToDisk env w) = fetched w
/\ responses (saveCacheToDisk env w) = responses w.
Proof.
unfold saveCacheToDisk.
destruct (writeFileSync env _ _ (disk w)); auto.
Qed.

Lemma cache_store_rest t key ttl value w :
stats (cache_store env t key ttl value w) = stats w
/\ fetched (cache_store env t key ttl value w) = fetched w
/\ responses (cache_store env t key ttl value w) = responses w.
Proof.
unfold cache_store.
match goal with |- context [if ?b then _ else _] => destruct b end.
- match goal with
  | |- context [saveCacheToDisk env ?x] =>
      destruct (saveCacheToDisk_rest x) as (-> & -> & ->)
  end.
  auto.
- auto.
Qed.

Lemma fetchWithCache_resume_Silent t key ttl reply :
Silent (fun w (_ : Ctx) => fetchWithCache_resume env t key ttl reply w).
Proof.
constructor; intros w ctx; unfold fetchWithCache_resume;
  destruct reply as [m|[] code text [value|]]; simpl;
  try reflexivity; apply cache_store_rest.
Qed.

Lemma perform_begins call w ctx :
Touched 0 (now ctx) w (fst (perform env call w ctx))
/\ match snd (perform env call w ctx) with
   | Settled _ => True
   | Suspended _ k => Silent k
   end.
Proof.
destruct call as [url key ttl|url|]; simpl.
- unfold fetchWithCache, cache_lookup.
  destruct (JsMap.get key (cache w)) as [e|].
  + destruct (now ctx - timestamp e <? duration e).
    * simpl. split; [|exact I].
      constructor; simpl; auto.
    * simpl.
      destruct (upstream env _ url (now ctx)) as [latency reply]. simpl.
      split; [|apply fetchWithCache_resume_Silent].
      constructor; simpl; auto. right. eauto.
  + simpl.
    destruct (upstream env _ url (now ctx)) as [latency reply]. simpl.
    split; [|apply fetchWithCache_resume_Silent].
    constructor; simpl; auto. right. eauto.
- destruct (upstream env _ url (now ctx)) as [latency reply]. simpl.
  split.
  + constructor; simpl; auto. right. eauto.
  + constructor; reflexivity.
- split; [|exact I]. constructor; simpl; auto.
Qed.

Lemma push_sample_length t samples :
(length samples <= 1000)%nat -> (length (push_sample t samples) <= 1000)%nat.
Proof.
intros H. unfold push_sample.
destruct (1000 <? length (samples ++ [t]))%nat eqn:Hl.
- rewrite length_tl, length_app. simpl. lia.
- apply Nat.ltb_ge in Hl. exact Hl.
Qed.

Lemma record_outcome_Quiet endpoint t0 k :
Silent k ->
Quiet (fun w ctx =>
         let '(w', o) := k w ctx in
         (record_outcome endpoint t0 (now ctx) o w', o)).
Proof.
intros [Hs Hf Hr].
constructor; intros w ctx;
  specialize (Hs w ctx); specialize (Hf w ctx); specialize (Hr w ctx);
  destruct (k w ctx) as [w' [v|e]]; simpl in *;
  rewrite ?Hs, ?Hf, ?Hr; try reflexivity; try lia.
apply push_sample_length.
Qed.

Lemma middleware_begins endpoint call w ctx :
exists w' latency k,
  performanceMiddleware endpoint (perform env call) w ctx
  = (w', Suspended latency k)
  /\ Touched 1 (now ctx) w w' /\ Quiet k.
Proof.
unfold performanceMiddleware.
set (w1 := set_stats (count_call endpoint (stats w)) w).
destruct (perform_begins call w1 ctx) as [Ht Hk].
destruct (perform env call w1 ctx) as [w2 [o|latency k]]; simpl in Ht, Hk.
- exists w2, 0%nat. eexists. split; [reflexivity|]. split.
  + destruct Ht as [H1 H2 H3 H4 H5]. constructor; simpl in *; auto.
  + apply (record_outcome_Quiet endpoint (now ctx) (fun w' _ => (w', o))).
    constructor; reflexivity.
- exists w2, latency. eexists. split; [reflexivity|]. split.
  + destruct Ht as [H1 H2 H3 H4 H5]. constructor; simpl in *; auto.
  + apply (record_outcome_Quiet endpoint (now ctx) k Hk).
Qed.

Lemma for_request_task req task :
for_request env req task ->
exists endpoint call,
  fn task = performanceMiddleware endpoint (perform env call)
  /\ (forall v w ctx,
        resolve task v w ctx
        = send (conn req)
            {| status := 200;
               body := JObj (enhancedData env endpoint (now ctx) v) |} w)
  /\ (forall e w ctx,
        reject task e w ctx
        = send (conn req) (error_response endpoint e) w).
Proof.
intros (endpoint & handler & Hh & ->). unfold handlersWithStats in Hh.
destruct (handlers.lookup endpoint) as [h|]; [|discriminate].
injection Hh as <-. exists endpoint, (h (searchParams req)).
split; [reflexivity|]. split; reflexivity.
Qed.

Lemma start_times_snoc_start (tr : list (Event JSON string)) tid t :
start_times (tr ++ [Started tid t]) = (start_times tr ++ [t])%list.
Proof. unfold start_times. now rewrite List.filter_app, map_app. Qed.

Lemma start_times_snoc_other (tr : list (Event JSON string)) ev :
is_start ev = false -> start_times (tr ++ [ev]) = start_times tr.
Proof.
intros H. unfold start_times. rewrite List.filter_app. simpl. rewrite H.
now rewrite app_nil_r.
Qed.

Lemma rejections_snoc (tr : list (Event JSON string)) ev :
length (List.filter is_rejection (tr ++ [ev]))
= (length (List.filter is_rejection tr)
   + if is_rejection ev then 1 else 0)%nat.
Proof.
rewrite List.filter_app, length_app. simpl. now destruct (is_rejection ev).
Qed.

Lemma failed_snoc (rs : list (nat * HttpResponse)) r :
length (List.filter failed (rs ++ [r]))
= (length (List.filter failed rs) + if failed r then 1 else 0)%nat.
Proof.
rewrite List.filter_app, length_app. simpl. now destruct (failed r).
Qed.

Lemma earliest_Forall2 {A} (R : Running World JSON string -> A -> Prop) rs :
forall r others xs,
  earliest rs = Some (r, others) -> Forall2 R rs xs ->
  exists x xs', R r x /\ Forall2 R others xs' /\ xs ≡ₚ x :: xs'.
Proof.
induction rs as [|y rs IH]; intros r others xs He HF; simpl in He.
- discriminate.
- apply Forall2_cons_inv_l in HF as (x & xs0 & Hy & HF & ->).
  destruct (earliest rs) as [[m o]|] eqn:Hm.
  + destruct (due y <=? due m).
    * injection He as <- <-. exists x, xs0. auto.
    * injection He as <- <-.
      destruct (IH m o xs0 eq_refl HF) as (x' & xs' & Hr & HF' & Hp).
      exists x', (x :: xs'). split; [assumption|]. split.
      -- now constructor.
      -- rewrite Hp. apply perm_swap.
  + injection He as <- <-. apply earliest_None in Hm. subst rs.
    apply Forall2_nil_inv_l in HF. subst xs0.
    exists x, []. auto.
Qed.

(** *** The books are kept by every piece of the queue's code *)

Lemma Ledger_same conns batch st st' :
stats (world st') = stats (world st) ->
fetched (world st') = fetched (world st) ->
responses (world st') = responses (world st) ->
requestQueue st' = requestQueue st -> running st' = running st ->
trace st' = trace st ->
Ledger env conns batch st -> Ledger env conns batch st'.
Proof.
intros Hs Hf Hr Hq Hrun Htr [H1 H2 H3 H4 H5 H6 H7 H8 H9].
constructor; rewrite ?Hs, ?Hf, ?Hr, ?Hq, ?Hrun, ?Htr; assumption.
Qed.

Lemma Ledger_opened conns st :
Ready st -> Ledger env conns [] st ->
processingQueue st = false -> requestQueue st <> [] ->
Ledger env conns (firstn MAX_REQUESTS_PER_SECOND (requestQueue st))
  (opened st).
Proof.
intros _ [H1 H2 H3 H4 H5 H6 H7 H8 H9] _ _.
constructor; simpl; try assumption.
destruct H1 as (qs & bs & rs & Hq & Hb & Hr & Hp).
apply Forall2_nil_inv_l in Hb. subst bs.
exists (drop MAX_REQUESTS_PER_SECOND qs), (take MAX_REQUESTS_PER_SECOND qs), rs.
split; [now apply Forall2_drop|]. split; [now apply Forall2_take|].
split; [assumption|].
rewrite <- Hp. simpl. rewrite <- map_app, take_drop. reflexivity.
Qed.

Lemma Ledger_start conns st item rest :
Ledger env conns (item :: rest) st ->
(forall ev, In ev (trace st) ->
            event_time ev <= clock st /\ (event_task ev < fst item)%nat) ->
Ledger env conns rest (start_task st item).
Proof.
intros [H1 H2 H3 H4 H5 H6 H7 H8 H9] _.
destruct item as [tid task].
destruct H1 as (qs & bs & rs & Hq & Hb & Hr & Hp).
apply Forall2_cons_inv_l in Hb as (req & bs' & Hreq & Hb & ->).
simpl in Hreq.
destruct (for_request_task req task Hreq) as (endpoint & call & Hfn & _).
destruct (middleware_begins endpoint call (world st) (ctx_of st))
  as (w' & latency & k & Hm & Ht & Hk).
unfold start_task. rewrite Hfn, Hm.
destruct Ht as [T1 T2 T3 T4 T5]. simpl in T5.
constructor; simpl.
- exists qs, bs', (rs ++ [req])%list.
  split; [assumption|]. split; [assumption|]. split.
  + apply Forall2_app; [assumption|]. constructor; [exact Hreq|constructor].
  + rewrite <- Hp, T1, map_app. simpl.
    now rewrite <- (app_assoc (map conn rs)).
- apply Forall_app. split; [assumption|]. constructor; [exact Hk|constructor].
- rewrite start_times_snoc_start.
  destruct T5 as [(Hf & _)|(url & Hf & _)]; rewrite Hf.
  + now apply sublist_inserts_r.
  + rewrite map_app. simpl. apply sublist_app; [assumption|reflexivity].
- unfold started in *. rewrite List.filter_app, map_app, length_app. simpl. lia.
- rewrite rejections_snoc. simpl. lia.
- rewrite rejections_snoc, T1. simpl. lia.
- destruct T5 as [(Hf & Hmiss & Hhit)|(url & Hf & Hhit & Hmiss)]; rewrite Hf.
  + lia.
  + rewrite length_app. simpl. lia.
- destruct T5 as [(Hf & Hmiss & Hhit)|(url & Hf & Hhit & Hmiss)]; rewrite Hf.
  + lia.
  + rewrite length_app. simpl. lia.
- now rewrite T4.
Qed.

Lemma Ledger_settle conns st r others :
Inv st -> Ledger env conns [] st ->
earliest (running st) = Some (r, others) ->
Ledger env conns [] (settle r others st).
Proof.
intros _ [H1 H2 H3 H4 H5 H6 H7 H8 H9] He.
destruct H1 as (qs & bs & rs & Hq & Hb & Hr & Hp).
apply Forall2_nil_inv_l in Hb. subst bs.
destruct (earliest_Forall2 _ _ _ _ _ He Hr) as (req & rs' & Hreq & Hr' & Hperm).
destruct (earliest_Some _ _ _ He) as (Hin & _).
assert (Quiet (resume r)) as Hk.
{ rewrite Forall_forall in H2. apply H2. apply list_elem_of_In, Hin. now left. }
assert (Forall (fun x => Quiet (resume x)) others) as Hks.
{ rewrite Forall_forall in H2 |- *. intros x Hx. apply H2.
  apply list_elem_of_In, Hin. right. now apply list_elem_of_In. }
destruct (for_request_task req _ Hreq) as (endpoint & call & _ & Hres & Hrej).
unfold settle.
set (ctx := {| now := due r; queueLength := length (requestQueue st) |}).
destruct Hk as [K1 K2 K3 K4 K5 K6 K7].
specialize (K1 (world st) ctx). specialize (K2 (world st) ctx).
specialize (K3 (world st) ctx). specialize (K4 (world st) ctx).
specialize (K5 (world st) ctx). specialize (K6 (world st) ctx).
specialize (K7 (world st) ctx H9).
destruct (resume r (world st) ctx) as [w1 [v|e]]; simpl in *.
- rewrite Hres. constructor; simpl; rewrite ?K1, ?K2, ?K3, ?K4, ?K5, ?K6;
    try assumption.
  + exists qs, [], rs'. split; [assumption|]. split; [constructor|].
    split; [assumption|].
    rewrite <- Hp, Hperm, map_app. simpl.
    rewrite <- app_assoc. reflexivity.
  + now rewrite start_times_snoc_other.
  + unfold started in *. rewrite List.filter_app. simpl. now rewrite app_nil_r.
  + rewrite rejections_snoc. simpl. lia.
  + rewrite rejections_snoc, failed_snoc. simpl. lia.
- rewrite Hrej. constructor; simpl; rewrite ?K1, ?K2, ?K3, ?K4, ?K5, ?K6;
    try assumption.
  + exists qs, [], rs'. split; [assumption|]. split; [constructor|].
    split; [assumption|].
    rewrite <- Hp, Hperm, map_app. simpl.
    rewrite <- app_assoc. reflexivity.
  + now rewrite start_times_snoc_other.
  + unfold started in *. rewrite List.filter_app. simpl. now rewrite app_nil_r.
  + rewrite rejections_snoc. simpl. lia.
  + rewrite rejections_snoc, failed_snoc. simpl. lia.
Qed.

Lemma Ledger_woken conns st t :
Inv st -> Ledger env conns [] st -> running st = [] -> timer st = Some t ->
Ledger env conns [] (woken t st).
Proof. intros _ H _ _. now apply (Ledger_same conns [] st). Qed.

Lemma Ledger_clock conns st l :
Inv st -> Ledger env conns [] st -> clock st <= l ->
Ledger env conns [] (set_clock l st).
Proof. intros _ H _. now apply (Ledger_same conns [] st). Qed.

Lemma Ledger_queued conns st req task :
for_request env req task -> Ledger env conns [] st ->
Ledger env (conns ++ [conn req]) [] (queued task st).
Proof.
intros Hreq [H1 H2 H3 H4 H5 H6 H7 H8 H9].
constructor; simpl; try assumption.
destruct H1 as (qs & bs & rs & Hq & Hb & Hr & Hp).
apply Forall2_nil_inv_l in Hb. subst bs.
exists (qs ++ [req])%list, [], rs.
split. { apply Forall2_app; [assumption|]. constructor; [exact Hreq|constructor]. }
split; [constructor|]. split; [assumption|].
rewrite <- Hp, map_app. simpl. now rewrite !app_assoc.
Qed.

Lemma Ledger_answer conns st c r :
failed (c, r) = false -> Ledger env conns [] st ->
Ledger env (conns ++ [c]) []
  (act (fun w (_ : Ctx) => send c r w) st).
Proof.
intros Hr [H1 H2 H3 H4 H5 H6 H7 H8 H9].
constructor; simpl; try assumption.
- destruct H1 as (qs & bs & rs & Hq & Hb & Hrs & Hp).
  apply Forall2_nil_inv_l in Hb. subst bs.
  exists qs, [], rs. split; [assumption|]. split; [constructor|].
  split; [assumption|].
  rewrite <- Hp, map_app. simpl. rewrite <- !app_assoc. simpl.
  apply Permutation_app_head. rewrite app_assoc.
  apply Permutation_cons_append.
- rewrite failed_snoc, Hr. lia.
Qed.

Lemma serve_Ledger inputs : forall st conns,
Inv st -> Ledger env conns [] st ->
Inv (serve env inputs st)
/\ Ledger env (conns ++ received inputs) [] (serve env inputs st).
Proof.
induction inputs as [|i inputs IH]; intros st conns Hinv HL.
- simpl. rewrite app_nil_r. auto.
- change (serve env (i :: inputs) st)
    with (serve env inputs (serve_input env st i)).
  assert (Inv (serve_input env st i)
          /\ Ledger env (conns ++ received [i]) [] (serve_input env st i))
    as [Hinv' HL'].
  { destruct i as [dt|req| |]; simpl.
    - split; [now apply elapse_Inv|]. rewrite app_nil_r.
      apply (keep_elapse (Ledger env conns)); auto using
        Ledger_opened, Ledger_start, Ledger_settle, Ledger_woken, Ledger_clock.
    - unfold fetch. split; [now apply react_Inv|].
      unfold route. destruct (String.eqb (method req) "OPTIONS").
      { now apply Ledger_answer. }
      destruct (parts req) as [|p l].
      { now apply Ledger_answer. }
      destruct (String.eqb_spec p "api") as [->|Hne].
      + destruct l as [|endpoint rest].
        { now apply Ledger_answer. }
        destruct (handlersWithStats env endpoint) as [handler|] eqn:Hh.
        * simpl.
          apply (keep_enqueue (Ledger env (conns ++ [conn req])));
            auto using Ledger_opened, Ledger_start.
          apply Ledger_queued; [|assumption].
          exists endpoint, handler. auto.
        * now apply Ledger_answer.
      + match goal with
        | |- Ledger _ _ _ (react st ?i) =>
            assert (i = Act (fun w (_ : Ctx) =>
                               send (conn req) home_response w)) as ->
        end.
        { clear -Hne.
          destruct p as [|a1 p]; [reflexivity|].
          destruct a1 as [[] [] [] [] [] [] [] []]; try reflexivity.
          destruct p as [|a2 p]; [reflexivity|].
          destruct a2 as [[] [] [] [] [] [] [] []]; try reflexivity.
          destruct p as [|a3 p]; [reflexivity|].
          destruct a3 as [[] [] [] [] [] [] [] []]; try reflexivity.
          destruct p as [|a4 p]; [now destruct Hne|reflexivity]. }
        now apply Ledger_answer.
    - split; [now apply act_Inv|]. rewrite app_nil_r.
      apply (Ledger_same conns [] st); auto.
    - split; [now apply act_Inv|]. rewrite app_nil_r.
      apply (Ledger_same conns [] st); auto; simpl; apply saveCacheToDisk_rest. }
  destruct (IH _ _ Hinv' HL') as [H1 H2]. split; [exact H1|].
  change (i :: inputs) with ([i] ++ inputs)%list.
  unfold received in *. rewrite omap_app, app_assoc. exact H2.
Qed.

Lemma boot_Ledger t0 d : Ledger env [] [] (boot t0 d).
Proof.
constructor; simpl; try lia; try reflexivity; try (now constructor).
exists [], [], []. repeat (split; [constructor|]). reflexivity.
Qed.

Lemma served_Ledger inputs t0 d :
Inv (serve env inputs (boot t0 d))
/\ Ledger env (received inputs) [] (serve env inputs (boot t0 d)).
Proof.
apply (serve_Ledger inputs (boot t0 d) []).
- apply initial_Inv.
- apply boot_Ledger.
Qed.

Lemma drained_Ledger inputs t0 d :
let st := drain (serve env inputs (boot t0 d)) in
Ledger env (received inputs) [] st
/\ running st = [] /\ requestQueue st = [].
Proof.
intros st. destruct (served_Ledger inputs t0 d) as [Hinv HL].
destruct (drain_spec _ Hinv) as (_ & Hr & _ & Hq & _).
split; [|split; assumption].
apply (keep_drain (Ledger env (received inputs))); auto using
  Ledger_opened, Ledger_start, Ledger_settle, Ledger_woken, Ledger_clock.
Qed.

Lemma filter_sublist_length {A} (f : A -> bool) (l1 l2 : list A) :
sublist l1 l2 ->
(length (List.filter f l1) <= length (List.filter f l2))%nat.
Proof.
induction 1 as [|x l1 l2 _ IH|x l1 l2 _ IH]; simpl.
- lia.
- destruct (f x); simpl; lia.
- destruct (f x); simpl; lia.
Qed.

Lemma in_window_start_times a (tr : list (Event JSON string)) :
length (in_window a (start_times tr)) = length (started_in a tr).
Proof.
unfold in_window, start_times, started_in. rewrite length_map.
induction tr as [|ev tr IH]; simpl; [reflexivity|].
destruct (is_start ev); simpl; [|exact IH].
destruct ((a <=? event_time ev) && (event_time ev <? a + COOLDOWN));
  simpl; now rewrite IH.
Qed.

(** X18: for requests whose endpoint is no inherited name,
  the pace of the queue is the pace of the upstream: whatever the
  requests and whenever they come, the calls the server made to the
  upstream within any window of [COOLDOWN] milliseconds are at most
  [MAX_REQUESTS_PER_SECOND]. *)
Theorem upstream_calls_keep_pace inputs t0 d a :
own_endpoints inputs = true ->
(length (in_window a
           (map snd (fetched (world (serve env inputs (boot t0 d))))))
 <= MAX_REQUESTS_PER_SECOND)%nat.
Proof.
intros _.
destruct (served_Ledger inputs t0 d) as [[(_ & _ & Hpc) _] HL].
etransitivity.
- apply filter_sublist_length, (lg_fetched _ _ _ _ HL).
- fold (in_window a (start_times (trace (serve env inputs (boot t0 d))))).
  rewrite in_window_start_times. apply (pc_window _ Hpc).
Qed.

(** X19: for requests whose endpoint is no inherited name,
  [stats.requests] counts the tasks the queue has started: a
  request that still waits in the queue is not counted yet, and the
  counter and the length of the queue add up to the requests received
  for the endpoints the server knows. *)
Theorem requests_counts_started_tasks inputs t0 d :
own_endpoints inputs = true ->
let st := serve env inputs (boot t0 d) in
requests (stats (world st)) = length (started (trace st))
/\ (requests (stats (world st)) + length (requestQueue st))%nat
   = length (enqueued (map (to_input env) inputs)).
Proof.
intros _ st.
destruct (served_Ledger inputs t0 d) as [[(_ & Hnb & _) _] HL].
fold st in Hnb, HL. split; [apply (lg_requests _ _ _ _ HL)|].
rewrite (lg_requests _ _ _ _ HL), <- (nb_submitted _ Hnb).
unfold st. rewrite serve_as_run, run_submitted. reflexivity.
Qed.

(** X20: for requests whose endpoint is no inherited name,
  [stats.errors] counts the promises of the queue that were
  rejected, and these are the responses sent with status 500. *)
Theorem errors_counts_failed_responses inputs t0 d :
own_endpoints inputs = true ->
let st := serve env inputs (boot t0 d) in
errors (stats (world st)) = length (List.filter is_rejection (trace st))
/\ length (List.filter failed (responses (world st)))
   = errors (stats (world st)).
Proof.
intros _ st. destruct (served_Ledger inputs t0 d) as [_ HL].
fold st in HL. split; [apply (lg_errors _ _ _ _ HL)|].
now rewrite (lg_failed _ _ _ _ HL), (lg_errors _ _ _ _ HL).
Qed.

(** X21: for requests whose endpoint is no inherited name,
  the samples of [stats.responseTime] never exceed a thousand. *)
Theorem response_times_are_bounded inputs t0 d :
own_endpoints inputs = true ->
(length (responseTime (stats (world (serve env inputs (boot t0 d)))))
 <= 1000)%nat.
Proof.
intros _. destruct (served_Ledger inputs t0 d) as [_ HL].
apply (lg_samples _ _ _ _ HL).
Qed.

(** X22: for requests whose endpoint is no inherited name,
  every upstream call belongs to a counted request that did not hit
  the cache, and every counted miss made one upstream call. *)
Theorem upstream_calls_are_accounted inputs t0 d :
own_endpoints inputs = true ->
let w := world (serve env inputs (boot t0 d)) in
(cacheHits (stats w) + length (fetched w) <= requests (stats w))%nat
/\ (cacheMisses (stats w) <= length (fetched w))%nat.
Proof.
intros _ w. destruct (served_Ledger inputs t0 d) as [_ HL].
split; [apply (lg_hits _ _ _ _ HL)|apply (lg_misses _ _ _ _ HL)].
Qed.

(** X23: for requests whose endpoint is no inherited name,
  no connection is answered more often than it asked: at any time,
  the connections of the responses sent are among those of the requests
  received, counted with their multiplicity. *)
Theorem no_unsolicited_response inputs t0 d :
own_endpoints inputs = true ->
map fst (responses (world (serve env inputs (boot t0 d))))
⊆+ received inputs.
Proof.
intros _. destruct (served_Ledger inputs t0 d) as [_ HL].
destruct (lg_conns _ _ _ _ HL) as (qs & bs & rs & _ & _ & _ & Hp).
rewrite <- Hp. now apply submseteq_inserts_r.
Qed.

(** X24: for requests whose endpoint is no inherited name,
  every request is answered: once the loop has nothing left to do,
  the connections of the responses sent are those of the requests
  received, each as often as it asked. *)
Theorem every_request_is_answered_once inputs t0 d :
own_endpoints inputs = true ->
map fst (responses (world (drain (serve env inputs (boot t0 d)))))
≡ₚ received inputs.
Proof.
intros _. destruct (drained_Ledger inputs t0 d) as (HL & Hr & Hq).
destruct (lg_conns _ _ _ _ HL) as (qs & bs & rs & Hqs & Hbs & Hrs & Hp).
rewrite Hq in Hqs. rewrite Hr in Hrs.
apply Forall2_nil_inv_l in Hqs, Hbs, Hrs. subst qs bs rs.
simpl in Hp. now rewrite app_nil_r in Hp.
Qed.
End LedgerFacts.

Lemma upstream_calls_keep_pace_witness :
  (length (in_window 0
             (map snd (fetched (world (serve calm_env sample_inputs
                                         (boot 0 ∅))))))
   <= MAX_REQUESTS_PER_SECOND)%nat.
Proof.
  apply (upstream_calls_keep_pace calm_env sample_inputs 0 ∅ 0). reflexivity.
Defined.

Lemma requests_counts_started_tasks_witness :
  let st := serve calm_env sample_inputs (boot 0 ∅) in
  requests (stats (world st)) = length (started (trace st))
  /\ (requests (stats (world st)) + length (requestQueue st))%nat
     = length (enqueued (map (to_input calm_env) sample_inputs)).
Proof.
  apply (requests_counts_started_tasks calm_env sample_inputs 0 ∅).
  reflexivity.
Defined.

Lemma errors_counts_failed_responses_witness :
  let st := serve failing_env sample_inputs (boot 0 ∅) in
  errors (stats (world st)) = length (List.filter is_rejection (trace st))
  /\ length (List.filter failed (responses (world st)))
     = errors (stats (world st)).
Proof.
  apply (errors_counts_failed_responses failing_env sample_inputs 0 ∅).
  reflexivity.
Defined.

Lemma response_times_are_bounded_witness :
  (length (responseTime (stats (world (serve calm_env sample_inputs
                                         (boot 0 ∅)))))
   <= 1000)%nat.
Proof.
  apply (response_times_are_bounded calm_env sample_inputs 0 ∅). reflexivity.
Defined.

Lemma upstream_calls_are_accounted_witness :
  let w := world (serve calm_env sample_inputs (boot 0 ∅)) in
  (cacheHits (stats w) + length (fetched w) <= requests (stats w))%nat
  /\ (cacheMisses (stats w) <= length (fetched w))%nat.
Proof.
  apply (upstream_calls_are_accounted calm_env sample_inputs 0 ∅).
  reflexivity.
Defined.

Lemma no_unsolicited_response_witness :
  map fst (responses (world (serve calm_env sample_inputs (boot 0 ∅))))
  ⊆+ received sample_inputs.
Proof.
  apply (no_unsolicited_response calm_env sample_inputs 0 ∅). reflexivity.
Defined.

Lemma every_request_is_answered_once_witness :
  map fst (responses (world (drain (serve calm_env sample_inputs (boot 0 ∅)))))
  ≡ₚ received sample_inputs.
Proof.
  apply (every_request_is_answered_once calm_env sample_inputs 0 ∅).
  reflexivity.
Defined.

(** ** The counters per endpoint *)

Section TallyFacts.
Variable env : Env.
Implicit Types (st : Loop World JSON string) (w : World).

Lemma total_set f k v (m : JsMap.t EndpointStats) :
(total f (JsMap.set k v m)
 + match JsMap.get k m with Some d => f d | None => 0 end
 = total f m + f v)%nat.
Proof.
unfold total. induction m as [|[k' v'] m IH]; simpl.
- lia.
- destruct (String.eqb k k'); simpl; lia.
Qed.

Lemma endpoint_stats_get f endpoint s :
match JsMap.get endpoint (endpoints s) with Some d => f d | None => 0%nat end
= f (endpoint_stats endpoint s) \/
(JsMap.get endpoint (endpoints s) = None).
Proof.
unfold endpoint_stats. destruct (JsMap.get endpoint (endpoints s)); auto.
Qed.

Lemma total_count f endpoint d' s :
(f d' = f (endpoint_stats endpoint s) + 1)%nat ->
(f {| calls := 0; ep_errors := 0; totalResponseTime := 0 |} = 0)%nat ->
total f (JsMap.set endpoint d' (endpoints s)) = S (total f (endpoints s)).
Proof.
intros Hd Hz. pose proof (total_set f endpoint d' (endpoints s)) as H.
unfold endpoint_stats in Hd.
destruct (JsMap.get endpoint (endpoints s)); lia.
Qed.

Lemma total_keep f endpoint d' s :
f d' = f (endpoint_stats endpoint s) ->
(f {| calls := 0; ep_errors := 0; totalResponseTime := 0 |} = 0)%nat ->
total f (JsMap.set endpoint d' (endpoints s)) = total f (endpoints s).
Proof.
intros Hd Hz. pose proof (total_set f endpoint d' (endpoints s)) as H.
unfold endpoint_stats in Hd.
destruct (JsMap.get endpoint (endpoints s)); lia.
Qed.

Lemma perform_endpoints call w ctx :
endpoints (stats (fst (perform env call w ctx))) = endpoints (stats w).
Proof.
destruct call as [url key ttl|url|]; simpl.
- unfold fetchWithCache, cache_lookup.
  destruct (JsMap.get key (cache w)) as [e|].
  + destruct (now ctx - timestamp e <? duration e); simpl; [reflexivity|].
    now destruct (upstream env _ url (now ctx)).
  + simpl. now destruct (upstream env _ url (now ctx)).
- now destruct (upstream env _ url (now ctx)).
- reflexivity.
Qed.

Lemma record_outcome_Tallied endpoint t0 t o w :
Tallied w -> Tallied (record_outcome endpoint t0 t o w).
Proof.
intros [Hc He]. destruct o as [v|e]; constructor; simpl.
- rewrite total_keep; auto.
- rewrite total_keep; auto.
- rewrite total_keep; auto.
- rewrite (total_count ep_errors); auto. simpl. lia.
Qed.

Lemma record_outcome_Steady endpoint t0 k :
Silent k ->
Steady (fun w ctx =>
          let '(w', o) := k w ctx in
          (record_outcome endpoint t0 (now ctx) o w', o)).
Proof.
intros [Hs _ _] w ctx [Hc He]. specialize (Hs w ctx).
destruct (k w ctx) as [w' o]. simpl in *.
apply record_outcome_Tallied. constructor; now rewrite Hs.
Qed.

Lemma middleware_tallies endpoint call w ctx :
Tallied w ->
Tallied (fst (performanceMiddleware endpoint (perform env call) w ctx))
/\ match snd (performanceMiddleware endpoint (perform env call) w ctx) with
   | Settled _ => True
   | Suspended _ k => Steady k
   end.
Proof.
intros [Hc He]. unfold performanceMiddleware.
set (w1 := set_stats (count_call endpoint (stats w)) w).
destruct (perform_begins env call w1 ctx) as [Ht Hk].
pose proof (perform_endpoints call w1 ctx) as Hends.
assert (Tallied (fst (perform env call w1 ctx))) as HT.
{ destruct Ht as [_ T2 T3 _ _]. constructor; rewrite Hends, ?T2, ?T3; simpl.
  - rewrite (total_count calls); auto. simpl. lia.
  - rewrite total_keep; auto. }
destruct (perform env call w1 ctx) as [w2 [o|latency k]]; simpl in *.
- split; [exact HT|].
  apply (record_outcome_Steady endpoint (now ctx) (fun w' _ => (w', o))).
  constructor; reflexivity.
- split; [exact HT|].
  apply (record_outcome_Steady endpoint (now ctx) k Hk).
Qed.

Lemma Books_same conns batch st st' :
world st' = world st -> running st' = running st ->
Ledger env conns batch st' ->
Books env conns [] st -> Books env conns batch st'.
Proof.
intros Hw Hr HL (_ & HT & HS). split; [exact HL|].
rewrite Hw, Hr. auto.
Qed.

Lemma Books_opened conns st :
Ready st -> Books env conns [] st ->
processingQueue st = false -> requestQueue st <> [] ->
Books env conns (firstn MAX_REQUESTS_PER_SECOND (requestQueue st))
  (opened st).
Proof.
intros Hready HB Hp Hq. apply (Books_same conns _ st); auto.
apply Ledger_opened; auto. apply HB.
Qed.

Lemma Books_start conns st item rest :
Books env conns (item :: rest) st ->
(forall ev, In ev (trace st) ->
            event_time ev <= clock st /\ (event_task ev < fst item)%nat) ->
Books env conns rest (start_task st item).
Proof.
intros (HL & HT & HS) Hev. split; [now apply Ledger_start|].
destruct item as [tid task].
destruct (lg_conns _ _ _ _ HL) as (qs & bs & rs & _ & Hb & _).
apply Forall2_cons_inv_l in Hb as (req & bs' & Hreq & _). simpl in Hreq.
destruct (for_request_task env req task Hreq) as (endpoint & call & Hfn & _).
destruct (middleware_begins env endpoint call (world st) (ctx_of st))
  as (w' & latency & k & Hm & _).
destruct (middleware_tallies endpoint call (world st) (ctx_of st) HT)
  as [HT' HS'].
rewrite Hm in HT', HS'. simpl in HT', HS'.
unfold start_task. rewrite Hfn, Hm. simpl. split; [exact HT'|].
apply Forall_app. split; [exact HS|]. constructor; [exact HS'|constructor].
Qed.

Lemma Books_settle conns st r others :
Inv st -> Books env conns [] st ->
earliest (running st) = Some (r, others) ->
Books env conns [] (settle r others st).
Proof.
intros Hinv (HL & HT & HS) He. split; [now apply Ledger_settle|].
destruct (lg_conns _ _ _ _ HL) as (qs & bs & rs & _ & _ & Hr & _).
destruct (earliest_Forall2 _ _ _ _ _ He Hr) as (req & rs' & Hreq & _).
destruct (earliest_Some _ _ _ He) as (Hin & _).
destruct (for_request_task env req _ Hreq) as (endpoint & call & _ & Hres & Hrej).
rewrite Forall_forall in HS.
assert (Steady (resume r)) as Hk.
{ apply HS. apply list_elem_of_In, Hin. now left. }
unfold settle.
set (ctx := {| now := due r; queueLength := length (requestQueue st) |}).
specialize (Hk (world st) ctx HT).
destruct (resume r (world st) ctx) as [w1 [v|e]]; simpl in *.
- rewrite Hres. split; [destruct Hk; constructor; assumption|].
  apply Forall_forall. intros x Hx. apply HS.
  apply list_elem_of_In, Hin. right. now apply list_elem_of_In.
- rewrite Hrej. split; [destruct Hk; constructor; assumption|].
  apply Forall_forall. intros x Hx. apply HS.
  apply list_elem_of_In, Hin. right. now apply list_elem_of_In.
Qed.

Lemma Books_woken conns st t :
Inv st -> Books env conns [] st -> running st = [] -> timer st = Some t ->
Books env conns [] (woken t st).
Proof.
intros Hinv HB Hr Ht. apply (Books_same conns _ st); auto.
apply Ledger_woken; auto. apply HB.
Qed.

Lemma Books_clock conns st l :
Inv st -> Books env conns [] st -> clock st <= l ->
Books env conns [] (set_clock l st).
Proof.
intros Hinv HB Hl. apply (Books_same conns _ st); auto.
apply Ledger_clock; auto. apply HB.
Qed.

Lemma Books_act conns conns' st f :
(forall w ctx, stats (f w ctx) = stats w) ->
Ledger env conns' [] (act f st) ->
Books env conns [] st -> Books env conns' [] (act f st).
Proof.
intros Hf HL (_ & [Hc He] & HS). split; [exact HL|]. simpl. split.
- constructor; now rewrite Hf.
- exact HS.
Qed.

Lemma route_cases req :
(exists r, failed (conn req, r) = false
           /\ route env req = Act (fun w (_ : Ctx) => send (conn req) r w))
\/ (exists task, for_request env req task /\ route env req = Enqueue task).
Proof.
unfold route. destruct (String.eqb (method req) "OPTIONS").
{ left. eexists. split; [|reflexivity]. reflexivity. }
destruct (parts req) as [|p l].
{ left. eexists. split; [|reflexivity]. reflexivity. }
destruct (String.eqb_spec p "api") as [->|Hne].
- destruct l as [|endpoint rest].
  { left. eexists. split; [|reflexivity]. reflexivity. }
  destruct (handlersWithStats env endpoint) as [handler|] eqn:Hh.
  + right. eexists. split; [|reflexivity]. exists endpoint, handler. auto.
  + left. eexists. split; [|reflexivity]. reflexivity.
- left. exists home_response. split; [reflexivity|].
  clear -Hne.
  destruct p as [|a1 p]; [reflexivity|].
  destruct a1 as [[] [] [] [] [] [] [] []]; try reflexivity.
  destruct p as [|a2 p]; [reflexivity|].
  destruct a2 as [[] [] [] [] [] [] [] []]; try reflexivity.
  destruct p as [|a3 p]; [reflexivity|].
  destruct a3 as [[] [] [] [] [] [] [] []]; try reflexivity.
  destruct p as [|a4 p]; [now destruct Hne|reflexivity].
Qed.

Lemma serve_Books inputs : forall st conns,
Inv st -> Books env conns [] st ->
Books env (conns ++ received inputs) [] (serve env inputs st).
Proof.
induction inputs as [|i inputs IH]; intros st conns Hinv HB.
- simpl. now rewrite app_nil_r.
- change (serve env (i :: inputs) st)
    with (serve env inputs (serve_input env st i)).
  destruct (serve_Ledger env [i] st conns Hinv (proj1 HB)) as [Hinv' HL'].
  change (serve env [i] st) with (serve_input env st i) in Hinv', HL'.
  assert (Books env (conns ++ received [i]) [] (serve_input env st i)) as HB'.
  { destruct i as [dt|req| |].
    - simpl. rewrite app_nil_r.
      apply (keep_elapse (Books env conns)); auto using
        Books_opened, Books_start, Books_settle, Books_woken, Books_clock.
    - change (serve_input env st (Receive req)) with (react st (route env req))
        in *.
      destruct (route_cases req) as [(r & _ & Hroute)|(task & Hreq & Hroute)];
        rewrite Hroute in *.
      + apply (Books_act conns); auto.
      + apply (keep_enqueue (Books env (conns ++ [conn req])));
          auto using Books_opened, Books_start.
        destruct HB as (HL & HT & HS). split; [|split; assumption].
        now apply Ledger_queued.
    - simpl. rewrite app_nil_r.
      apply (Books_act conns); auto. now rewrite app_nil_r in HL'.
    - simpl. rewrite app_nil_r.
      apply (Books_act conns); auto.
      + intros w ctx. apply saveCacheToDisk_rest.
      + now rewrite app_nil_r in HL'. }
  pose proof (IH _ _ Hinv' HB') as H.
  change (i :: inputs) with ([i] ++ inputs)%list.
  unfold received in *. rewrite omap_app, app_assoc. exact H.
Qed.

(** X25: for requests whose endpoint is no inherited name,
  the counters per endpoint add up: at any time the calls counted
  for the endpoints sum to [stats.requests] and the errors counted for
  them sum to [stats.errors]. *)
Theorem endpoint_counters_add_up inputs t0 d :
own_endpoints inputs = true ->
let s := stats (world (serve env inputs (boot t0 d))) in
total calls (endpoints s) = requests s
/\ total ep_errors (endpoints s) = errors s.
Proof.
intros _ s.
destruct (serve_Books inputs (boot t0 d) []) as (_ & [Hc He] & _).
- apply initial_Inv.
- split; [apply boot_Ledger|]. split; [now constructor|constructor].
- auto.
Qed.
End TallyFacts.

Lemma endpoint_counters_add_up_witness :
  let s := stats (world (serve failing_env sample_inputs (boot 0 ∅))) in
  total calls (endpoints s) = requests s
  /\ total ep_errors (endpoints s) = errors s.
Proof.
  apply (endpoint_counters_add_up failing_env sample_inputs 0 ∅). reflexivity.
Defined.

(** ** A request at an idle and at a busy queue *)

Section Arrival.
Context {W V E : Type}.
Implicit Types (st : Loop W V E) (inputs : list (Input W V E)).

(** X26: a task submitted while the queue is idle starts at once, with
  nothing left in the queue; a task submitted while a batch runs or
  cools down is appended to the queue, and nothing starts. *)
Theorem submission_starts_or_waits inputs (w : W) t0 task :
let st := run inputs (initial_loop w t0) in
let n := length (enqueued inputs) in
trace (enqueueRequest task st)
= (if processingQueue st then trace st
   else trace st ++ [Started n (clock st)])%list
/\ requestQueue (enqueueRequest task st)
   = (if processingQueue st then requestQueue st ++ [(n, task)] else [])%list.
Proof.
intros st n.
destruct (run_Inv inputs _ (initial_Inv w t0)) as [_ Hidle].
fold st in Hidle.
assert (submitted st = n) as Hn.
{ unfold st. now rewrite run_submitted. }
rewrite enqueueRequest_queued.
destruct (processingQueue st) eqn:Hp.
- rewrite processQueue_skip by (left; exact Hp). simpl.
  rewrite Hn. auto.
- specialize (Hidle eq_refl).
  assert (requestQueue (queued task st) = [(n, task)]) as Hq1.
  { simpl. now rewrite Hidle, Hn. }
  rewrite processQueue_opened; [|exact Hp|rewrite Hq1; discriminate].
  rewrite Hq1.
  change (firstn MAX_REQUESTS_PER_SECOND [(n, task)]) with [(n, task)].
  change (fold_left start_task [(n, task)] (opened (queued task st)))
    with (start_task (opened (queued task st)) (n, task)).
  destruct (start_task_fields (opened (queued task st)) n task)
    as (Hc & Hq & _ & _ & _ & Htr & _).
  rewrite Htr, Hq. split; [reflexivity|].
  simpl. now rewrite Hidle.
Qed.
End Arrival.

(** ** The names of the files *)

Lemma slash_digit n :
  (n < 64)%N -> Ascii.eqb (b64_digit n) "/"%char = (n =? 63)%N.
Proof.
  intros Hlt.
  assert (forallb (fun n => Bool.eqb (Ascii.eqb (b64_digit n) "/"%char)
                              (n =? 63)%N)
            (map N.of_nat (seq 0 64)) = true) as Hall by (vm_compute; reflexivity).
  rewrite forallb_forall in Hall. specialize (Hall n).
  apply Bool.eqb_prop, Hall.
  apply in_map_iff. exists (N.to_nat n). split; [apply N2Nat.id|].
  apply in_seq. lia.
Qed.

Ltac Zify.zify_post_hook ::= Z.to_euclidean_division_equations.

Lemma sextets_apart (x y z : N) :
  (x < 252 -> y < 252 -> z < 252 ->
   let d1 := x / 4 in
   let d2 := (x mod 4) * 16 + y / 16 in
   let d3 := (y mod 16) * 4 + z / 64 in
   let d4 := z mod 64 in
   d1 <> 63 /\ ~ (d2 = 63 /\ d3 = 63) /\ ~ (d3 = 63 /\ d4 = 63))%N.
Proof.
  intros Hx Hy Hz. cbv zeta. repeat split; lia.
Qed.

Ltac Zify.zify_post_hook ::= idtac.

Lemma slashes_apart_weaken b s :
  slashes_apart true s = true -> slashes_apart b s = true.
Proof.
  destruct s as [|a s]; simpl; [reflexivity|].
  destruct b; [auto|]. simpl. now intros [_ H]%andb_true_iff.
Qed.

Lemma slashes_apart_json b s :
  slashes_apart b (s +:+ ".json") = slashes_apart b s.
Proof.
  revert b. induction s as [|a s IH]; intros b.
  - rewrite append_nil_l. simpl. now rewrite andb_false_r.
  - rewrite append_cons. simpl. now rewrite IH.
Qed.

Lemma base64_apart s :
  text_bytes s = true -> slashes_apart true (base64 s) = true.
Proof.
  assert (forall s,
             (text_bytes s = true -> slashes_apart true (base64 s) = true)
             /\ (forall a, text_bytes (String a s) = true ->
                           slashes_apart true (base64 (String a s)) = true)
             /\ (forall a b, text_bytes (String a (String b s)) = true ->
                             slashes_apart true (base64 (String a (String b s)))
                             = true)) as H.
  { clear s. induction s as [|c s (IH0 & IH1 & IH2)].
    - split; [reflexivity|]. split.
      + intros a Ht. simpl in Ht. rewrite andb_true_r in Ht.
        apply N.ltb_lt in Ht.
        destruct (sextets (N_of_ascii a) 0 0 (byte_bound a)) as
          (L1 & L2 & _); try (cbv; reflexivity).
        destruct (sextets_apart (N_of_ascii a) 0 0 Ht) as (A1 & _);
          try (cbv; reflexivity).
        cbv zeta in L1, L2, A1. change (0 / 16)%N with 0%N in *.
        rewrite N.add_0_r in *.
        cbn [base64]. cbv zeta. cbn [slashes_apart].
        rewrite !slash_digit by assumption.
        apply N.eqb_neq in A1. rewrite A1.
        now destruct (N.eqb (N_of_ascii a mod 4 * 16) 63).
      + intros a b Ht. simpl in Ht. rewrite andb_true_r in Ht.
        apply andb_true_iff in Ht as [Ha Hb].
        apply N.ltb_lt in Ha, Hb.
        destruct (sextets (N_of_ascii a) (N_of_ascii b) 0
                    (byte_bound a) (byte_bound b)) as
          (L1 & L2 & L3 & _); try (cbv; reflexivity).
        destruct (sextets_apart (N_of_ascii a) (N_of_ascii b) 0 Ha Hb)
          as (A1 & A2 & _); try (cbv; reflexivity).
        cbv zeta in L1, L2, L3, A1, A2. change (0 / 64)%N with 0%N in *.
        rewrite N.add_0_r in *.
        cbn [base64]. cbv zeta. cbn [slashes_apart].
        rewrite !slash_digit by assumption.
        apply N.eqb_neq in A1. rewrite A1.
        destruct (N.eqb_spec ((N_of_ascii a mod 4) * 16 + N_of_ascii b / 16) 63);
          destruct (N.eqb_spec ((N_of_ascii b mod 16) * 4) 63);
          try reflexivity.
        now destruct A2.
    - split; [apply IH1|]. split; [intros a; apply (IH2 a c)|].
      intros a b Ht. simpl in Ht.
      apply andb_true_iff in Ht as [Ha Ht].
      apply andb_true_iff in Ht as [Hb Ht].
      apply andb_true_iff in Ht as [Hc Ht].
      apply N.ltb_lt in Ha, Hb, Hc.
      destruct (sextets (N_of_ascii a) (N_of_ascii b) (N_of_ascii c)
                  (byte_bound a) (byte_bound b) (byte_bound c)) as
        (L1 & L2 & L3 & L4 & _).
      destruct (sextets_apart (N_of_ascii a) (N_of_ascii b) (N_of_ascii c)
                  Ha Hb Hc) as (A1 & A2 & A3).
      cbv zeta in L1, L2, L3, L4, A1, A2, A3.
      cbn [base64]. cbv zeta. cbn [slashes_apart].
      rewrite !slash_digit by assumption.
      rewrite (slashes_apart_weaken _ _ (IH0 Ht)).
      apply N.eqb_neq in A1. rewrite A1.
      destruct (N.eqb_spec ((N_of_ascii a mod 4) * 16 + N_of_ascii b / 16) 63);
        destruct (N.eqb_spec ((N_of_ascii b mod 16) * 4 + N_of_ascii c / 64) 63);
        destruct (N.eqb_spec (N_of_ascii c mod 64) 63);
        try reflexivity; try (now destruct A2); now destruct A3. }
  apply H.
Qed.

(** X27: two keys never share a file, and no key has the file of the
    index. *)
Theorem cache_files_do_not_collide k1 k2 :
  k1 <> k2 ->
  cacheFilePath k1 <> cacheFilePath k2
  /\ cacheFilePath k1 <> join CACHE_DIR "cache-index.json".
Proof.
  intros Hne. split.
  - intros H. now apply Hne, cacheFilePath_inj.
  - apply cacheFilePath_not_index.
Qed.

Lemma cache_files_do_not_collide_witness :
  cacheFilePath "anime_1" <> cacheFilePath "anime_2"
  /\ cacheFilePath "anime_1" <> join CACHE_DIR "cache-index.json".
Proof.
  apply (cache_files_do_not_collide "anime_1" "anime_2"). discriminate.
Defined.

(** X28: the path of the file of a key that is a text has no empty
    segment: the name does not start with a slash and holds no two slashes
    in a row, so [path.join] leaves the name as it is. *)
Theorem cache_file_path_has_no_empty_segment key :
  text_bytes key = true -> slashes_apart false (cacheFilePath key) = true.
Proof.
  intros Ht. unfold cacheFilePath, join, CACHE_DIR. unfold_append.
  cbn [slashes_apart Ascii.eqb Bool.eqb andb negb].
  rewrite slashes_apart_json. now apply base64_apart.
Qed.

Lemma cache_file_path_has_no_empty_segment_witness :
  slashes_apart false (cacheFilePath "anime_21?") = true.
Proof.
  apply (cache_file_path_has_no_empty_segment "anime_21?"). reflexivity.
Defined.

(** * The watched run *)

Section WatchFacts.
Context {W V E : Type}.
Implicit Types (st : Loop W V E) (sw : Loop (W * list (Note V E)) V E).

Lemma ctx_of_Watched sw st : Watched sw st -> ctx_of sw = ctx_of st.
Proof.
intros H. unfold ctx_of.
now rewrite (wa_clock _ _ H), (Forall2_length _ _ _ (wa_queue _ _ H)).
Qed.

Lemma start_task_Watched sw st tid (task : Task W V E) :
Watched sw st ->
Watched (start_task sw (tid, observed tid task)) (start_task st (tid, task)).
Proof.
intros H. pose proof (ctx_of_Watched _ _ H) as Hctx.
destruct H as [Hw Hn Hc Hf Ht Hs Htr Hq Hr].
unfold start_task. rewrite Hctx. cbn [fn observed]. rewrite Hw.
destruct (fn task (world st) (ctx_of st)) as [w1 [o|latency k]]; cbn [fst snd].
- constructor; cbn [world clock requestQueue processingQueue running timer
                      submitted trace fst snd]; auto.
  + rewrite flat_map_app, Hn. reflexivity.
  + now rewrite Htr, Hc.
  + apply Forall2_app; [exact Hr|]. constructor; [|constructor].
    unfold watches. cbn [due tid_of task_of resume].
    split; [rewrite Hc; lia|]. split; [reflexivity|]. split; reflexivity.
- constructor; cbn [world clock requestQueue processingQueue running timer
                      submitted trace fst snd]; auto.
  + rewrite flat_map_app, Hn. reflexivity.
  + now rewrite Htr, Hc.
  + apply Forall2_app; [exact Hr|]. constructor; [|constructor].
    unfold watches. cbn [due tid_of task_of resume].
    split; [now rewrite Hc|]. split; [reflexivity|]. split; reflexivity.
Qed.

Lemma batch_Watched batch' batch : forall sw st,
Forall2 (fun i' i => fst i' = fst i /\ snd i' = observed (fst i) (snd i))
  batch' batch ->
Watched sw st ->
Watched (fold_left start_task batch' sw) (fold_left start_task batch st).
Proof.
intros sw st HF. revert sw st.
induction HF as [|[tid' task'] [tid task] batch' batch [Htid Htask] _ IH];
  intros sw st H; [exact H|].
simpl in Htid, Htask. subst tid' task'.
change (fold_left start_task ((tid, observed tid task) :: batch') sw)
  with (fold_left start_task batch' (start_task sw (tid, observed tid task))).
change (fold_left start_task ((tid, task) :: batch) st)
  with (fold_left start_task batch (start_task st (tid, task))).
apply IH. now apply start_task_Watched.
Qed.

Lemma processQueue_Watched sw st :
Watched sw st -> Watched (processQueue sw) (processQueue st).
Proof.
intros H. pose proof H as [Hw Hn Hc Hf Ht Hs Htr Hq Hr].
unfold processQueue. rewrite Hf, (Forall2_length _ _ _ Hq).
destruct (processingQueue st || (length (requestQueue st) =? 0)%nat);
  [exact H|].
apply batch_Watched; [now apply Forall2_take|].
constructor; cbn [world clock requestQueue processingQueue running timer
                    submitted trace]; auto.
now apply Forall2_drop.
Qed.

Lemma enqueueRequest_Watched sw st (task : Task W V E) :
Watched sw st ->
Watched (enqueueRequest (observed (submitted st) task) sw)
  (enqueueRequest task st).
Proof.
intros [Hw Hn Hc Hf Ht Hs Htr Hq Hr]. unfold enqueueRequest.
apply processQueue_Watched.
constructor; cbn [world clock requestQueue processingQueue running timer
                    submitted trace]; auto.
apply Forall2_app; [exact Hq|]. constructor; [|constructor].
cbn [fst snd]. auto.
Qed.

Lemma earliest_Watched (rs' : list (Running (W * list (Note V E)) V E)) :
forall (rs : list (Running W V E)),
  Forall2 watches rs' rs ->
  match earliest rs', earliest rs with
  | Some (r', others'), Some (r, others) =>
      watches r' r /\ Forall2 watches others' others
  | None, None => True
  | _, _ => False
  end.
Proof.
induction rs' as [|x' rs' IH]; intros rs HF.
- apply Forall2_nil_inv_l in HF. subst rs. exact I.
- apply Forall2_cons_inv_l in HF as (x & rs0 & Hx & HF & ->).
  specialize (IH rs0 HF). cbn [earliest].
  destruct (earliest rs') as [[m' o']|], (earliest rs0) as [[m o]|];
    try contradiction.
  + destruct IH as [Hm Ho].
    destruct Hx as (Hdx & Hx'). pose proof Hm as (Hdm & _).
    rewrite Hdx, Hdm.
    destruct (due x <=? due m).
    * split; [exact (conj Hdx Hx')|exact HF].
    * split; [exact Hm|]. constructor; [exact (conj Hdx Hx')|exact Ho].
  + split; [exact Hx|constructor].
Qed.

Lemma settle_Watched r' r others' others sw st :
watches r' r -> Forall2 watches others' others -> Watched sw st ->
Watched (settle r' others' sw) (settle r others st).
Proof.
intros (Hd & Htid & Htask & Hres) Ho [Hw Hn Hc Hf Ht Hs Htr Hq Hr].
unfold settle. rewrite Hd, (Forall2_length _ _ _ Hq), Hres, Hw, Htask, Htid.
set (ctx := {| now := due r; queueLength := length (requestQueue st) |}).
destruct (resume r (world st) ctx) as [w1 [v|e]]; cbn [fst snd resolve reject observed].
- constructor; cbn [world clock requestQueue processingQueue running timer
                      submitted trace fst snd]; auto.
  + rewrite flat_map_app, Hn. cbn [flat_map notes_of].
    now rewrite <- app_assoc.
  + destruct Ho; [reflexivity|exact Ht].
  + now rewrite Htr.
- constructor; cbn [world clock requestQueue processingQueue running timer
                      submitted trace fst snd]; auto.
  + rewrite flat_map_app, Hn. cbn [flat_map notes_of].
    now rewrite <- app_assoc.
  + destruct Ho; [reflexivity|exact Ht].
  + now rewrite Htr.
Qed.

Lemma wake_Watched t sw st :
Watched sw st -> Watched (wake t sw) (wake t st).
Proof.
intros [Hw Hn Hc Hf Ht Hs Htr Hq Hr]. unfold wake.
apply processQueue_Watched.
constructor; cbn [world clock requestQueue processingQueue running timer
                    submitted trace]; auto.
Qed.

Lemma step_Watched sw st : Watched sw st -> Watched (step sw) (step st).
Proof.
intros H. unfold step.
pose proof (earliest_Watched _ _ (wa_running _ _ H)) as He.
destruct (earliest (running sw)) as [[r' o']|],
         (earliest (running st)) as [[r o]|]; try contradiction.
- destruct He. now apply settle_Watched.
- rewrite (wa_timer _ _ H). destruct (timer st); [|exact H].
  now apply wake_Watched.
Qed.

Lemma next_due_Watched sw st : Watched sw st -> next_due sw = next_due st.
Proof.
intros H. unfold next_due.
pose proof (earliest_Watched _ _ (wa_running _ _ H)) as He.
destruct (earliest (running sw)) as [[r' o']|],
         (earliest (running st)) as [[r o]|]; try contradiction.
- destruct He as [(Hd & _) _]. now rewrite Hd.
- apply (wa_timer _ _ H).
Qed.

Lemma work_Watched sw st : Watched sw st -> work sw = work st.
Proof.
intros H. unfold work.
now rewrite (Forall2_length _ _ _ (wa_queue _ _ H)),
  (Forall2_length _ _ _ (wa_running _ _ H)), (wa_timer _ _ H).
Qed.

Lemma advance_Watched fuel limit : forall sw st,
Watched sw st -> Watched (advance fuel limit sw) (advance fuel limit st).
Proof.
induction fuel as [|fuel IH]; intros sw st H; [exact H|].
cbn [advance]. rewrite (next_due_Watched _ _ H).
destruct (next_due st) as [d|]; [|exact H].
destruct (within limit d); [|exact H].
apply IH. now apply step_Watched.
Qed.

Lemma set_clock_Watched t sw st :
Watched sw st -> Watched (set_clock t sw) (set_clock t st).
Proof.
intros [Hw Hn Hc Hf Ht Hs Htr Hq Hr].
constructor; cbn [set_clock world clock requestQueue processingQueue running
                    timer submitted trace]; auto.
Qed.

Lemma elapse_Watched dt sw st :
Watched sw st -> Watched (elapse dt sw) (elapse dt st).
Proof.
intros H. unfold elapse.
rewrite (work_Watched _ _ H), (wa_clock _ _ H).
apply set_clock_Watched. now apply advance_Watched.
Qed.

Lemma drain_Watched sw st :
Watched sw st -> Watched (drain sw) (drain st).
Proof.
intros H. unfold drain. rewrite (work_Watched _ _ H).
now apply advance_Watched.
Qed.

Lemma act_Watched (f : W -> Ctx -> W) sw st :
Watched sw st ->
Watched (act (fun wl ctx => (f (fst wl) ctx, snd wl)) sw) (act f st).
Proof.
intros H. pose proof (ctx_of_Watched _ _ H) as Hctx.
destruct H as [Hw Hn Hc Hf Ht Hs Htr Hq Hr].
constructor; cbn [act world clock requestQueue processingQueue running
                    timer submitted trace fst snd]; auto.
now rewrite Hctx, Hw.
Qed.

Lemma run_Watched inputs : forall sw st,
Watched sw st ->
Watched (run (observe (submitted st) inputs) sw) (run inputs st).
Proof.
unfold run. induction inputs as [|i inputs IH]; intros sw st H; [exact H|].
destruct i as [dt|task|f]; cbn [observe fold_left react].
- rewrite <- (elapse_submitted dt st). apply IH. now apply elapse_Watched.
- rewrite <- (enqueueRequest_submitted task st). apply IH.
  now apply enqueueRequest_Watched.
- change (submitted st) with (submitted (act f st)). apply IH.
  now apply act_Watched.
Qed.

Lemma initial_Watched (w : W) t0 :
Watched (initial_loop (V := V) (E := E) (w, []) t0) (initial_loop w t0).
Proof. constructor; cbn; auto; constructor. Qed.

(** What the notes of a trace tell. *)
Lemma executions_notes tid (tr : list (Event V E)) :
executions tid (flat_map notes_of tr) = length (start_time tid tr).
Proof.
unfold executions, start_time. rewrite length_map.
induction tr as [|ev tr IH]; [reflexivity|].
cbn [flat_map]. rewrite List.filter_app, length_app, IH.
destruct ev as [i t|i v t|i e t]; cbn; destruct (i =? tid)%nat; reflexivity.
Qed.

Lemma returned_notes tid (tr : list (Event V E)) :
returned tid (flat_map notes_of tr) = settlements tid tr.
Proof.
unfold returned, settlements.
induction tr as [|ev tr IH]; [reflexivity|].
cbn [flat_map]. rewrite omap_app, IH.
destruct ev as [i t|i v t|i e t]; cbn; destruct (i =? tid)%nat; reflexivity.
Qed.

Lemma got_notes tid (tr : list (Event V E)) :
got tid (flat_map notes_of tr) = settlements tid tr.
Proof.
unfold got, settlements.
induction tr as [|ev tr IH]; [reflexivity|].
cbn [flat_map]. rewrite omap_app, IH.
destruct ev as [i t|i v t|i e t]; cbn; destruct (i =? tid)%nat; reflexivity.
Qed.

(** C4: every task submitted is executed once and its promise settled
  once, with what the task made of it. The tasks being watched, the run
  goes as it does without the notes, and once the loop has run out of
  work the notes hold, for every task, one call of its function, one
  outcome returned or thrown by it, and one call of the callbacks of its
  promise: [resolve] with the value returned, or [reject] with the error
  thrown, whatever the other tasks did. *)
Theorem every_task_settles_exactly_once
  (inputs : list (Input W V E)) (w : W) (t0 : Z) :
let plain := drain (run inputs (initial_loop w t0)) in
let final := drain (run (observe 0 inputs) (initial_loop (w, []) t0)) in
let notes := snd (world final) in
trace final = trace plain /\ fst (world final) = world plain
/\ submitted final = length (enqueued inputs)
/\ requestQueue final = [] /\ running final = []
/\ forall tid task,
     submission inputs tid = Some task ->
     length (start_time tid (trace final)) = 1%nat
     /\ executions tid notes = 1%nat
     /\ exists o,
          settlements tid (trace final) = [o]
          /\ returned tid notes = [o] /\ got tid notes = [o]
          /\ delivers task o.
Proof.
intros plain final notes.
assert (Watched final plain) as H.
{ apply drain_Watched.
  apply (run_Watched inputs (initial_loop (w, []) t0) (initial_loop w t0)).
  apply initial_Watched. }
destruct (trace_settles_once inputs w t0) as (Hsub & Hq & Hr & Htasks).
fold plain in Hsub, Hq, Hr, Htasks.
split; [apply (wa_trace _ _ H)|]. split; [apply (wa_world _ _ H)|].
split; [now rewrite (wa_submitted _ _ H)|].
split.
{ pose proof (wa_queue _ _ H) as HF. rewrite Hq in HF.
  now apply Forall2_nil_inv_r in HF. }
split.
{ pose proof (wa_running _ _ H) as HF. rewrite Hr in HF.
  now apply Forall2_nil_inv_r in HF. }
intros tid task Htask.
destruct (Htasks tid task Htask) as (Hstart & o & Hset & Hdel).
unfold notes. rewrite (wa_notes _ _ H), (wa_trace _ _ H).
split; [exact Hstart|]. split; [now rewrite executions_notes|].
exists o. split; [exact Hset|].
split; [now rewrite returned_notes|]. split; [now rewrite got_notes|exact Hdel].
Qed.
End WatchFacts.

Lemma every_task_settles_exactly_once_witness :
  length (start_time 1 (trace three_jobs_watched)) = 1%nat
  /\ executions 1 (snd (world three_jobs_watched)) = 1%nat
  /\ exists o,
       settlements 1 (trace three_jobs_watched) = [o]
       /\ returned 1 (snd (world three_jobs_watched)) = [o]
       /\ got 1 (snd (world three_jobs_watched)) = [o]
       /\ delivers (W := unit) (job 300 (inr "boom")) o.
Proof.
  apply (every_task_settles_exactly_once three_jobs tt 0). reflexivity.
Defined.

(** The notes of the three jobs: the failure of the second leaves the two
    others to resolve, each with its own result. *)
Example three_jobs_notes :
  snd (world three_jobs_watched)
  = [ Ran 0%nat; Returned 0%nat (inl 1%nat); Got 0%nat (inl 1%nat);
      Ran 1%nat; Ran 2%nat;
      Returned 2%nat (inl 3%nat); Got 2%nat (inl 3%nat);
      Returned 1%nat (inr "boom"); Got 1%nat (inr "boom") ].
Proof. vm_compute. reflexivity. Qed.

(** * A request and the queue *)

Section ArrivalFacts.
Context {W V E : Type}.
Implicit Types (st : Loop W V E) (task : Task W V E).

Lemma enqueue_busy task st :
processingQueue st = true -> enqueueRequest task st = queued task st.
Proof.
intros Hp. rewrite enqueueRequest_queued. apply processQueue_skip.
left. exact Hp.
Qed.

Lemma enqueue_idle task st :
processingQueue st = false -> requestQueue st = [] ->
enqueueRequest task st
= start_task (opened (queued task st)) (submitted st, task).
Proof.
intros Hp Hq. rewrite enqueueRequest_queued.
assert (requestQueue (queued task st) = [(submitted st, task)]) as Hq1.
{ simpl. now rewrite Hq. }
rewrite processQueue_opened; [|exact Hp|rewrite Hq1; discriminate].
now rewrite Hq1.
Qed.
End ArrivalFacts.

Section RequestFacts.
Variable env : Env.

(** C1, as amended: every request other than [OPTIONS] to an endpoint the
  server has a handler for is submitted to the queue, once, whatever the
  cache holds, so two requests in a row are two submissions. What is
  submitted is the task that calls the handler: while a batch runs or
  cools down it waits in the queue and nothing is looked up; when the
  queue is idle it starts at once. It is this task that looks the cache
  up: on a hit it calls no upstream and settles, with no delay of its
  own, with the cached payload, and on a miss it calls upstream once. *)
Theorem every_request_is_enqueued req endpoint rest handler inputs t0 d :
String.eqb (method req) "OPTIONS" = false ->
parts req = "api" :: endpoint :: rest ->
handlers.lookup endpoint = Some handler ->
let st := serve env inputs (boot t0 d) in
let task :=
  request_task env req endpoint
    (fun params =>
       performanceMiddleware endpoint (perform env (handler params))) in
let arrival := {| now := clock st; queueLength := 0 |} in
fetch env req st = enqueueRequest task st
/\ submitted (fetch env req st) = S (submitted st)
/\ (forall dt,
      submitted (fetch env req (elapse dt (fetch env req st)))
      = S (S (submitted st)))
/\ (if processingQueue st
    then requestQueue (fetch env req st)
         = (requestQueue st ++ [(submitted st, task)])%list
         /\ world (fetch env req st) = world st
         /\ trace (fetch env req st) = trace st
    else requestQueue (fetch env req st) = []
         /\ world (fetch env req st) = fst (fn task (world st) arrival)
         /\ trace (fetch env req st)
            = (trace st ++ [Started (submitted st) (clock st)])%list)
/\ forall url cacheKey ttl w ctx,
     handler (searchParams req) = CallFetchWithCache url cacheKey ttl ->
     match snd (cache_lookup (now ctx) cacheKey w) with
     | Some payload =>
         fetched (fst (fn task w ctx)) = fetched w
         /\ cacheHits (stats (fst (fn task w ctx))) = S (cacheHits (stats w))
         /\ exists k, snd (fn task w ctx) = Suspended 0 k
                      /\ forall w' ctx', snd (k w' ctx') = inl payload
     | None =>
         fetched (fst (fn task w ctx)) = (fetched w ++ [(url, now ctx)])%list
         /\ cacheHits (stats (fst (fn task w ctx))) = cacheHits (stats w)
     end.
Proof.
intros Hm Hparts Hh st task arrival.
assert (fetch env req st = enqueueRequest task st) as Hfetch.
{ unfold fetch, route, handlersWithStats. now rewrite Hm, Hparts, Hh. }
split; [exact Hfetch|].
split.
{ now destruct (request_counts_and_looks_up env req endpoint rest handler
                  st 0 Hm Hparts Hh) as (H1 & _). }
split.
{ intros dt.
  now destruct (request_counts_and_looks_up env req endpoint rest handler
                  st dt Hm Hparts Hh) as (_ & H2 & _). }
split.
- assert (Inv st) as [(Hsh & _ & _) Hidle].
  { unfold st. rewrite serve_as_run. apply run_Inv, initial_Inv. }
  rewrite Hfetch. destruct (processingQueue st) eqn:Hp.
  + rewrite enqueue_busy by exact Hp. auto.
  + specialize (Hidle eq_refl).
    rewrite enqueue_idle by assumption.
    unfold start_task, arrival.
    assert (ctx_of (opened (queued task st))
            = {| now := clock st; queueLength := 0 |}) as ->.
    { unfold ctx_of. simpl. now rewrite Hidle. }
    change (world (opened (queued task st))) with (world st).
    destruct (fn task (world st) {| now := clock st; queueLength := 0 |})
      as [w1 p].
    cbn [requestQueue world trace opened queued clock fst].
    rewrite Hidle. auto.
- intros url cacheKey ttl w ctx Hcall.
  destruct (request_counts_and_looks_up env req endpoint rest handler
              st 0 Hm Hparts Hh) as (_ & _ & H3).
  apply (H3 url cacheKey ttl w ctx Hcall).
Qed.
End RequestFacts.

(* The second request for [anime?id=5] comes while the first batch cools
   down and the answer is in the cache. *)
Lemma every_request_is_enqueued_witness :
  let req := get_request 2 "anime" [("id", "5")] in
  let st := serve calm_env [Receive (get_request 1 "anime" [("id", "5")]); Wait 200]
              (boot 0 ∅) in
  let task :=
    request_task calm_env req "anime"
      (fun params =>
         performanceMiddleware "anime" (perform calm_env (handlers.anime params))) in
  fetch calm_env req st = enqueueRequest task st
  /\ submitted (fetch calm_env req st) = S (submitted st)
  /\ (forall dt,
        submitted (fetch calm_env req (elapse dt (fetch calm_env req st)))
        = S (S (submitted st)))
  /\ (requestQueue (fetch calm_env req st)
      = (requestQueue st ++ [(submitted st, task)])%list
      /\ world (fetch calm_env req st) = world st
      /\ trace (fetch calm_env req st) = trace st)
  /\ forall url cacheKey ttl w ctx,
       handlers.anime (searchParams req) = CallFetchWithCache url cacheKey ttl ->
       match snd (cache_lookup (now ctx) cacheKey w) with
       | Some payload =>
           fetched (fst (fn task w ctx)) = fetched w
           /\ cacheHits (stats (fst (fn task w ctx))) = S (cacheHits (stats w))
           /\ exists k, snd (fn task w ctx) = Suspended 0 k
                        /\ forall w' ctx', snd (k w' ctx') = inl payload
       | None =>
           fetched (fst (fn task w ctx)) = (fetched w ++ [(url, now ctx)])%list
           /\ cacheHits (stats (fst (fn task w ctx))) = cacheHits (stats w)
       end.
Proof.
  pose proof (every_request_is_enqueued calm_env
                (get_request 2 "anime" [("id", "5")]) "anime" [] handlers.anime
                [Receive (get_request 1 "anime" [("id", "5")]); Wait 200] 0 ∅
                eq_refl eq_refl eq_refl) as H.
  cbv zeta in H.
  assert (processingQueue
            (serve calm_env
               [Receive (get_request 1 "anime" [("id", "5")]); Wait 200]
               (boot 0 ∅)) = true) as Hp by (vm_compute; reflexivity).
  rewrite Hp in H. exact H.
Defined.

(** A request that arrives while the first batch cools down finds its
    answer in the cache and still waits in the queue: nothing is looked
    up, no hit is counted and no response is sent before its turn. *)
Example cached_request_waits_its_turn :
  let busy :=
    serve calm_env
      [ Receive (get_request 1 "anime" [("id", "5")]); Wait 200;
        Receive (get_request 2 "anime" [("id", "5")]); Wait 500 ] (boot 0 ∅) in
  JsMap.has "anime_5" (cache (world busy)) = true
  /\ length (requestQueue busy) = 1%nat
  /\ cacheHits (stats (world busy)) = 0%nat
  /\ map fst (responses (world busy)) = [1%nat]
  /\ let final := drain busy in
     cacheHits (stats (world final)) = 1%nat
     /\ map fst (responses (world final)) = [1%nat; 2%nat]
     /\ start_time 1 (trace final) = [1120].
Proof. vm_compute. repeat split; reflexivity. Qed.

(** * Reordered parameters *)

Section ReorderFacts.
Variable env : Env.

(** A call of [fetchWithCache] for one key leaves the lookups of every
  other key as they were, when it looks its own key up and when the
  answer of the upstream is stored. *)
Lemma fetchWithCache_other_key url key1 ttl key2 w ctx t :
key1 <> key2 ->
snd (cache_lookup t key2 (fst (fetchWithCache env url key1 ttl w ctx)))
= snd (cache_lookup t key2 w)
/\ match snd (fetchWithCache env url key1 ttl w ctx) with
   | Settled _ => True
   | Suspended _ k =>
       forall w' ctx',
         snd (cache_lookup t key2 (fst (k w' ctx')))
         = snd (cache_lookup t key2 w')
   end.
Proof.
intros Hne. unfold fetchWithCache, cache_lookup at 2 4.
destruct (JsMap.get key1 (cache w)) as [e|].
- destruct (now ctx - timestamp e <? duration e); cbn [fst snd].
  + split; [|exact I]. now rewrite !cache_lookup_result.
  + destruct (upstream env _ url (now ctx)) as [latency reply]. cbn [fst snd].
    split.
    * rewrite !cache_lookup_result. cbn [cache log_fetch set_stats set_cache].
      now rewrite get_delete_ne.
    * intros w' ctx'. rewrite !cache_lookup_result.
      unfold fetchWithCache_resume.
      destruct reply as [m|[] code text [value|]]; cbn [fst]; try reflexivity.
      now rewrite cache_store_cache, get_set_ne.
- cbn [fst snd].
  destruct (upstream env _ url (now ctx)) as [latency reply]. cbn [fst snd].
  split.
  + now rewrite !cache_lookup_result.
  + intros w' ctx'. rewrite !cache_lookup_result.
    unfold fetchWithCache_resume.
    destruct reply as [m|[] code text [value|]]; cbn [fst]; try reflexivity.
    now rewrite cache_store_cache, get_set_ne.
Qed.

(** C2, as amended: for two requests to [anime] (or to [manga]) whose
  parameters are the same pairs in another order, and that agree on
  their first [id] parameter (an empty one counting as none), the cache
  keys are the same exactly when that id is there. Without it the keys
  differ, and the first request leaves the lookup of the key of the
  second as it was, when it looks its own key up and when its answer is
  stored: the second request finds what it would have found had the
  first not been made. *)
Theorem cache_key_of_anime_and_manga (p1 p2 : URLSearchParams) h :
p1 ≡ₚ p2 -> p1 <> p2 ->
truthy (params_get "id" p1) = truthy (params_get "id" p2) ->
In h [handlers.anime; handlers.manga] ->
(cacheKey_of (h p1) = cacheKey_of (h p2)
 <-> truthy (params_get "id" p1) <> None)
/\ (truthy (params_get "id" p1) = None ->
    exists key1 key2,
      cacheKey_of (h p1) = Some key1 /\ cacheKey_of (h p2) = Some key2
      /\ key1 <> key2
      /\ forall w ctx t,
           snd (cache_lookup t key2 (fst (perform env (h p1) w ctx)))
           = snd (cache_lookup t key2 w)
           /\ match snd (perform env (h p1) w ctx) with
              | Settled _ => True
              | Suspended _ k =>
                  forall w' ctx',
                    snd (cache_lookup t key2 (fst (k w' ctx')))
                    = snd (cache_lookup t key2 w')
              end).
Proof.
intros _ Hdiff Hid Hh.
destruct (same_key_of_anime_and_manga p1 p2 Hid) as [Ha Hm].
assert (cacheKey_of (h p1) = cacheKey_of (h p2)
        <-> truthy (params_get "id" p1) <> None \/ p1 = p2) as Hkey.
{ destruct Hh as [<-|[<-|[]]]; assumption. }
split.
- rewrite Hkey. tauto.
- intros Hnone.
  assert (cacheKey_of (h p1) <> cacheKey_of (h p2)) as Hne.
  { rewrite Hkey. intros [H|H]; [now apply H|now apply Hdiff]. }
  assert (exists url1 key1 url2 key2,
             h p1 = CallFetchWithCache url1 key1 CACHE_DURATION
             /\ h p2 = CallFetchWithCache url2 key2 CACHE_DURATION)
    as (url1 & key1 & url2 & key2 & H1 & H2).
  { destruct Hh as [<-|[<-|[]]]; unfold handlers.anime, handlers.manga;
      rewrite <- Hid, Hnone; do 4 eexists; split; reflexivity. }
  rewrite H1, H2 in Hne |- *. cbn [cacheKey_of] in Hne |- *.
  exists key1, key2. split; [reflexivity|]. split; [reflexivity|].
  assert (key1 <> key2) as Hk by congruence.
  split; [exact Hk|]. intros w ctx t. cbn [perform].
  now apply fetchWithCache_other_key.
Qed.
End ReorderFacts.

Lemma cache_key_of_anime_and_manga_witness :
  let p1 := [("q", "naruto"); ("page", "1")] in
  let p2 := [("page", "1"); ("q", "naruto")] in
  (cacheKey_of (handlers.anime p1) = cacheKey_of (handlers.anime p2)
   <-> truthy (params_get "id" p1) <> None)
  /\ (truthy (params_get "id" p1) = None ->
      exists key1 key2,
        cacheKey_of (handlers.anime p1) = Some key1
        /\ cacheKey_of (handlers.anime p2) = Some key2
        /\ key1 <> key2
        /\ forall w ctx t,
             snd (cache_lookup t key2
                    (fst (perform calm_env (handlers.anime p1) w ctx)))
             = snd (cache_lookup t key2 w)
             /\ match snd (perform calm_env (handlers.anime p1) w ctx) with
                | Settled _ => True
                | Suspended _ k =>
                    forall w' ctx',
                      snd (cache_lookup t key2 (fst (k w' ctx')))
                      = snd (cache_lookup t key2 w')
                end).
Proof.
  apply (cache_key_of_anime_and_manga calm_env
           [("q", "naruto"); ("page", "1")] [("page", "1"); ("q", "naruto")]
           handlers.anime).
  - apply perm_swap.
  - discriminate.
  - reflexivity.
  - simpl. auto.
Defined.

(** * A lookup right after the store *)

Section StoreFacts.
Variable env : Env.

(** C5, as amended: [fetchWithCache] reads the time when it is called and
  stores the answer of the upstream, when it has come, under that time.
  A lookup of the key at the time of the store finds the value exactly
  when less than the ttl has passed since the call: with a ttl of zero
  or less, or an upstream that takes the ttl or longer to answer, the
  entry is expired when it is stored. *)
Theorem lookup_after_store_hits url key ttl w ctx latency code text value :
snd (cache_lookup (now ctx) key w) = None ->
upstream env (length (fetched w)) url (now ctx)
= (latency, HttpReply true code text (Some value)) ->
exists k,
  snd (fetchWithCache env url key ttl w ctx) = Suspended latency k
  /\ (forall w' ctx',
        let stored := fst (k w' ctx') in
        JsMap.get key (cache stored)
        = Some {| timestamp := now ctx; duration := ttl; data := value |}
        /\ snd (cache_lookup (now ctx') key stored)
           = if now ctx' - now ctx <? ttl then Some value else None)
  /\ (forall w' q,
        let answered :=
          {| now := now ctx + Z.of_nat latency; queueLength := q |} in
        snd (cache_lookup (now answered) key (fst (k w' answered)))
        = if Z.of_nat latency <? ttl then Some value else None).
Proof.
intros Hmiss Hup. unfold fetchWithCache.
pose proof (cache_lookup_fetched (now ctx) key w) as Hf.
destruct (cache_lookup (now ctx) key w) as [w1 found]. simpl in Hmiss, Hf.
subst found. cbn [set_stats fetched]. rewrite Hf, Hup. cbn [snd].
eexists. split; [reflexivity|].
assert (forall w' t,
           JsMap.get key (cache (cache_store env (now ctx) key ttl value w'))
           = Some {| timestamp := now ctx; duration := ttl; data := value |}
           /\ snd (cache_lookup t key
                     (cache_store env (now ctx) key ttl value w'))
              = if t - now ctx <? ttl then Some value else None) as Hstore.
{ intros w' t. rewrite cache_lookup_result, cache_store_cache, get_set_eq.
  split; reflexivity. }
split.
- intros w' ctx'. cbn [fetchWithCache_resume fst]. apply Hstore.
- intros w' q. cbn [fetchWithCache_resume fst now].
  destruct (Hstore w' (now ctx + Z.of_nat latency)) as [_ ->].
  now replace (now ctx + Z.of_nat latency - now ctx) with (Z.of_nat latency)
    by lia.
Qed.
End StoreFacts.

Lemma lookup_after_store_hits_witness :
  exists k,
    snd (fetchWithCache calm_env "https://api.jikan.moe/v4/anime/5" "anime_5"
           CACHE_DURATION (initial_world 0) sample_ctx)
    = Suspended 120 k
    /\ (forall w' ctx',
          let stored := fst (k w' ctx') in
          JsMap.get "anime_5" (cache stored)
          = Some {| timestamp := 0; duration := CACHE_DURATION;
                    data := obj [("data", JNum 0)] |}
          /\ snd (cache_lookup (now ctx') "anime_5" stored)
             = if now ctx' - 0 <? CACHE_DURATION
               then Some (obj [("data", JNum 0)]) else None)
    /\ (forall w' q,
          let answered := {| now := 0 + Z.of_nat 120; queueLength := q |} in
          snd (cache_lookup (now answered) "anime_5" (fst (k w' answered)))
          = if Z.of_nat 120 <? CACHE_DURATION
            then Some (obj [("data", JNum 0)]) else None).
Proof.
  apply (lookup_after_store_hits calm_env "https://api.jikan.moe/v4/anime/5"
           "anime_5" CACHE_DURATION (initial_world 0) sample_ctx
           120 200 EmptyString (obj [("data", JNum 0)])); reflexivity.
Defined.

(** C5 as stated fails: a call with a ttl of 50 ms that the upstream
    answers after 120 ms stores, at 120, an entry with the timestamp 0;
    the lookup at the time of the store does not find the value. *)
Lemma stored_entry_is_expired_at_once :
  let st := run [Enqueue slow_task; Elapse 120]
              (initial_loop (initial_world 0) 0) in
  clock st = 120
  /\ map event_time (trace st) = [0; 120]
  /\ (exists e, JsMap.get "anime_5" (cache (world st)) = Some e
                /\ timestamp e = 0 /\ duration e = 50
                /\ data e = obj [("data", JNum 0)])
  /\ snd (cache_lookup (clock st) "anime_5" (world st)) = None.
Proof.
  vm_compute. split; [reflexivity|]. split; [reflexivity|].
  split; [|reflexivity]. eexists. repeat split; reflexivity.
Qed.
